(** * Treasury risk engine: the FX calculation library

    A shallow embedding of [src/lib/fx-calculations.ts] (the trade generator,
    the rate shock model, the P&L, hedge cost, optimal hedge ratio and VaR
    calculators, the risk metrics aggregator and the sensitivity curve
    generator), and the properties the specification states about them.

    Every function of the library computes on JavaScript [number]s.  The
    functions are embedded once, over an interface [JSNumber] of the
    operations they use, and the interface is read in two ways:

    - [float_number]: IEEE 754 binary64 (Rocq's primitive floats), which is
      what a JavaScript engine executes, NaN, infinities, signed zeros and
      rounding included.  Every evaluation of the code on a concrete input is
      done here.
    - [real_number]: exact real arithmetic, which is what the formulas of the
      specification denote ("real", "positive real").  It has no NaN and no
      rounding, and is only used where no division by zero and no square
      root of a negative number can occur.

    The development also embeds what the dashboard page (the component
    [Index]) computes from its parameters before it calls the library, and
    closes with properties of the library and of the page that go beyond the
    specification.  They are stated on binary64, with the rounding argued
    from the definition of the format. *)

From Stdlib Require Import ZArith QArith Bool List Lia.
From Stdlib Require Import String Ascii DecimalString DecimalNat.
From Stdlib Require Import Floats.
From Stdlib Require Import Reals Lra.
Import ListNotations.

Set Warnings "-inexact-float".

Close Scope R_scope.
Close Scope Q_scope.
Close Scope float_scope.

(** ** The numbers of the library *)

(** The operations of JavaScript's [number] that the library uses.  [lit q]
    is the numeric literal whose decimal text denotes the rational [q];
    [n_of_Z z] is the number that holds the integer [z] (a loop counter, a
    reading of the clock); [n_eq] is [===] and [n_lt] is [<] on numbers;
    [TimeClip] is the conversion [new Date(t)] applies to a time value
    ([None] is the time value of an Invalid Date). *)
Class JSNumber (num : Type) : Type := {
  lit : Q -> num;
  n_of_Z : Z -> num;
  n_add : num -> num -> num;
  n_sub : num -> num -> num;
  n_mul : num -> num -> num;
  n_div : num -> num -> num;
  n_neg : num -> num;
  n_eq : num -> num -> bool;
  n_lt : num -> num -> bool;
  Math_abs : num -> num;
  Math_sqrt : num -> num;
  Math_floor : num -> num;
  Math_min : num -> num -> num;
  Math_max : num -> num -> num;
  TimeClip : num -> option Z
}.

Arguments lit {num _} q%_Q.

Declare Scope num_scope.
Delimit Scope num_scope with num.
Notation "x + y" := (n_add x y) : num_scope.
Notation "x - y" := (n_sub x y) : num_scope.
Notation "x * y" := (n_mul x y) : num_scope.
Notation "x / y" := (n_div x y) : num_scope.
Notation "- x" := (n_neg x) : num_scope.
Notation "x === y" := (n_eq x y) (at level 70, no associativity) : num_scope.
Notation "x > y" := (n_lt y x) : num_scope.

(** [i] as a number, for a loop counter. *)
Definition n_of_nat {num} `{JSNumber num} (i : nat) : num :=
  n_of_Z (Z.of_nat i).

(** A parameter with a default value: [None] is an omitted argument. *)
Definition dflt {A : Type} (arg : option A) (d : A) : A :=
  match arg with
  | Some a => a
  | None => d
  end.

(** *** binary64 *)

Module Binary64.

(** An integer as a float: exact up to 2^53 in absolute value, which covers
    every loop counter and every valid time value. *)
Definition of_Z (z : Z) : float :=
  match z with
  | Z0 => PrimFloat.zero
  | Zpos _ => PrimFloat.of_uint63 (Uint63.of_Z z)
  | Zneg p => PrimFloat.opp (PrimFloat.of_uint63 (Uint63.of_Z (Zpos p)))
  end.

(** A decimal literal: numerator and denominator are exact and the division
    rounds to nearest, so the result is the double nearest to [q], which is
    how a literal is read. *)
Definition of_Q (q : Q) : float :=
  PrimFloat.div (of_Z (Qnum q)) (of_Z (Zpos (Qden q))).

(** Math.min: NaN if either argument is NaN, and -0 is below +0. *)
Definition min (a b : float) : float :=
  if PrimFloat.is_nan a || PrimFloat.is_nan b then PrimFloat.nan
  else if PrimFloat.ltb a b then a
  else if PrimFloat.ltb b a then b
  else if PrimFloat.get_sign a then a else b.

(** Math.max: NaN if either argument is NaN, and +0 is above -0. *)
Definition max (a b : float) : float :=
  if PrimFloat.is_nan a || PrimFloat.is_nan b then PrimFloat.nan
  else if PrimFloat.ltb a b then b
  else if PrimFloat.ltb b a then a
  else if PrimFloat.get_sign a then b else a.

(** The integer below a finite float (rounding toward minus infinity). *)
Definition floorZ (x : spec_float) : Z :=
  match x with
  | S754_finite s m e => Z.shiftl (if s then Zneg m else Zpos m) e
  | _ => 0
  end.

(** Math.floor.  Zeros, infinities and NaN are returned unchanged, and so is
    a float with a non-negative exponent, which is an integer already. *)
Definition floor (x : float) : float :=
  match Prim2SF x with
  | S754_finite s m e =>
      if (0 <=? e)%Z then x
      else
        let z := floorZ (S754_finite s m e) in
        if (z =? 0)%Z then PrimFloat.zero else of_Z z
  | _ => x
  end.

(** The integer part of a finite float (rounding toward zero). *)
Definition truncZ (x : spec_float) : Z :=
  match x with
  | S754_finite s m e =>
      let a := Z.shiftl (Zpos m) e in
      if s then (- a)%Z else a
  | _ => 0
  end.

(** TimeClip: an Invalid Date for a time value that is not finite or beyond
    8.64e15 ms in absolute value, the integer part otherwise. *)
Definition time_clip (t : float) : option Z :=
  if negb (PrimFloat.is_finite t) then None
  else if PrimFloat.ltb 8.64e15%float (PrimFloat.abs t) then None
  else Some (truncZ (Prim2SF t)).

End Binary64.

#[export] Instance float_number : JSNumber float := {
  lit := Binary64.of_Q;
  n_of_Z := Binary64.of_Z;
  n_add := PrimFloat.add;
  n_sub := PrimFloat.sub;
  n_mul := PrimFloat.mul;
  n_div := PrimFloat.div;
  n_neg := PrimFloat.opp;
  n_eq := PrimFloat.eqb;
  n_lt := PrimFloat.ltb;
  Math_abs := PrimFloat.abs;
  Math_sqrt := PrimFloat.sqrt;
  Math_floor := Binary64.floor;
  Math_min := Binary64.min;
  Math_max := Binary64.max;
  TimeClip := Binary64.time_clip
}.

(** *** Exact reals *)

Module Exact.

Definition eqb (x y : R) : bool := if Req_dec_T x y then true else false.

Definition ltb (x y : R) : bool := if Rlt_dec x y then true else false.

Definition floor (x : R) : R := IZR (Int_part x).

Definition truncZ (x : R) : Z :=
  if Rle_dec 0 x then Int_part x else (- Int_part (- x))%Z.

Definition time_clip (t : R) : option Z :=
  if Rle_dec (Rabs t) 8640000000000000 then Some (truncZ t) else None.

End Exact.

#[export] Instance real_number : JSNumber R := {
  lit := Q2R;
  n_of_Z := IZR;
  n_add := Rplus;
  n_sub := Rminus;
  n_mul := Rmult;
  n_div := Rdiv;
  n_neg := Ropp;
  n_eq := Exact.eqb;
  n_lt := Exact.ltb;
  Math_abs := Rabs;
  Math_sqrt := sqrt;
  Math_floor := Exact.floor;
  Math_min := Rmin;
  Math_max := Rmax;
  TimeClip := Exact.time_clip
}.

(** ** Data model *)

Inductive Direction : Set := long | short.

(** A [Date] is its time value: integer milliseconds, or [None] for an
    Invalid Date. *)
Definition Date : Set := option Z.

(** [new Date(t)] *)
Definition new_Date {num} `{JSNumber num} (t : num) : Date := TimeClip t.

(** [a > b] on dates compares the time values; an Invalid Date compares
    false with everything. *)
Definition Date_gt (a b : Date) : bool :=
  match a, b with
  | Some x, Some y => (y <? x)%Z
  | _, _ => false
  end.

Section Engine.

Context {num : Type} `{JSNumber num}.
Local Open Scope num_scope.

Record FXTrade : Type := {
  id : string;
  notionalUSD : num;
  tradeDate : Date;
  maturityDate : Date;
  direction : Direction
}.

Record RiskScenario : Type := {
  currentFXRate : num;
  shockedFXRate : num;
  interestRateShock : num;
  volatility : num
}.

Record RiskMetrics : Type := {
  totalExposureUSD : num;
  totalPnL : num;
  unhedgedPnL : num;
  hedgedPnL : num;
  optimalHedgeRatio : num;
  hedgeCost : num;
  valueAtRisk : num
}.

Record SensitivityPoint : Type := {
  fxRate : num;
  pnl : num;
  hedgedPnl : num
}.

(** ** The calculators *)

(** Calculate FX rate after interest rate shock *)
Definition calculateShockedFXRate
  (currentRate interestRateShockBps : num) (timeToMaturity : option num) : num :=
  let timeToMaturity := dflt timeToMaturity (lit 1) in
  let shockDecimal := interestRateShockBps / lit 10000 in
  currentRate * (lit 1 + shockDecimal * timeToMaturity).

(** The callback of the reduction in [calculateUnhedgedPnL]. *)
Definition pnl_step (currentRate shockedRate : num)
  (totalPnL : num) (trade : FXTrade) : num :=
  let rateDelta := shockedRate - currentRate in
  let tradePnL :=
    match direction trade with
    | long => notionalUSD trade * rateDelta
    | short => - notionalUSD trade * rateDelta
    end in
  totalPnL + tradePnL.

(** Calculate P&L impact from unhedged FX exposure *)
Definition calculateUnhedgedPnL
  (trades : list FXTrade) (currentRate shockedRate : num) : num :=
  fold_left (pnl_step currentRate shockedRate) trades (lit 0).

(** Calculate hedge cost using simple forward premium *)
Definition calculateHedgeCost
  (notional forwardRate spotRate : num) (hedgeRatio : option num) : num :=
  let hedgeRatio := dflt hedgeRatio (lit 1) in
  let forwardPoints := forwardRate - spotRate in
  notional * hedgeRatio * forwardPoints.

(** The two locals of [calculateOptimalHedgeRatio]. *)
Definition costPenalty (totalExposure hedgeCost : num) : num :=
  Math_abs hedgeCost / totalExposure.

Definition volatilityBenefit (expectedVolatility riskAversion : num) : num :=
  expectedVolatility * riskAversion.

(** Calculate optimal hedge ratio using simplified portfolio optimization *)
Definition calculateOptimalHedgeRatio
  (totalExposure expectedVolatility hedgeCost : num)
  (riskAversion : option num) : num :=
  let riskAversion := dflt riskAversion (lit 0.5) in
  let costPenalty := costPenalty totalExposure hedgeCost in
  let volatilityBenefit := volatilityBenefit expectedVolatility riskAversion in
  let optimalRatio :=
    Math_min (lit 1) (volatilityBenefit / (volatilityBenefit + costPenalty)) in
  Math_max (lit 0) optimalRatio.

(** The z-score local of [calculateVaR]. *)
Definition zScore (confidenceLevel : num) : num :=
  if confidenceLevel === lit 0.95 then lit 1.645 else lit 2.33.

(** Calculate Value at Risk (VaR) for 95% confidence *)
Definition calculateVaR
  (totalExposure volatility : num)
  (confidenceLevel timeHorizon : option num) : num :=
  let confidenceLevel := dflt confidenceLevel (lit 0.95) in
  let timeHorizon := dflt timeHorizon (lit 1) in
  let zScore := zScore confidenceLevel in
  let scaledVolatility := volatility * Math_sqrt (timeHorizon / lit 252) in
  totalExposure * scaledVolatility * zScore.

(** Main risk calculation function *)
Definition calculateRiskMetrics
  (trades : list FXTrade) (scenario : RiskScenario) : RiskMetrics :=
  let totalExposureUSD :=
    fold_left (fun sum trade => sum + notionalUSD trade) trades (lit 0) in
  let unhedgedPnL :=
    calculateUnhedgedPnL trades (currentFXRate scenario) (shockedFXRate scenario) in
  let forwardRate :=
    calculateShockedFXRate
      (currentFXRate scenario) (interestRateShock scenario) (Some (lit 0.25)) in
  let hedgeCost :=
    calculateHedgeCost totalExposureUSD forwardRate (currentFXRate scenario) None in
  let optimalHedgeRatio :=
    calculateOptimalHedgeRatio totalExposureUSD (volatility scenario) hedgeCost None in
  let hedgedPnL :=
    unhedgedPnL * (lit 1 - optimalHedgeRatio) - hedgeCost * optimalHedgeRatio in
  let valueAtRisk :=
    calculateVaR totalExposureUSD (volatility scenario) None None in
  {| totalExposureUSD := totalExposureUSD;
     totalPnL := unhedgedPnL;
     unhedgedPnL := unhedgedPnL;
     hedgedPnL := hedgedPnL;
     optimalHedgeRatio := optimalHedgeRatio;
     hedgeCost := hedgeCost;
     valueAtRisk := valueAtRisk |}.

(** The number of steps of the sensitivity sweep, a local constant. *)
Definition steps : nat := 50.

(** The body of the loop of [generatePnLSensitivity] at counter [i]. *)
Definition sensitivity_point
  (trades : list FXTrade) (baseRate shockRange : num) (i : nat) : SensitivityPoint :=
  let rate :=
    baseRate - shockRange + (lit 2 * shockRange * n_of_nat i) / n_of_nat steps in
  let pnl := calculateUnhedgedPnL trades baseRate rate in
  let hedgedPnl := pnl * lit 0.3 in
  {| fxRate := rate;
     pnl := pnl / lit 1000000;
     hedgedPnl := hedgedPnl / lit 1000000 |}.

(** Generate P&L sensitivity data for charting: the loop runs [i] from 0 to
    [steps] inclusive and pushes one point per turn. *)
Definition generatePnLSensitivity
  (trades : list FXTrade) (baseRate : num) (shockRange : option num)
  : list SensitivityPoint :=
  let shockRange := dflt shockRange (lit 0.5) in
  fold_left
    (fun sensitivity i =>
       sensitivity ++ [sensitivity_point trades baseRate shockRange i])
    (seq 0 (S steps)) [].

End Engine.

Arguments FXTrade num : clear implicits.
Arguments RiskScenario num : clear implicits.
Arguments RiskMetrics num : clear implicits.
Arguments SensitivityPoint num : clear implicits.

(** ** The trade generator *)

(** [generateFXTrades] reads two ambient sources: [Math.random()] and
    [Date.now()].  The embedding makes both explicit: the [k]-th call of
    [Math.random()] returns [random_source k], the [k]-th call of
    [Date.now()] returns [clock k], and the state threaded through the
    generator counts the calls made so far. *)
Record World : Set := {
  random_calls : nat;
  now_calls : nat
}.

Definition Gen (A : Type) : Type := World -> A * World.

Definition ret {A : Type} (a : A) : Gen A := fun w => (a, w).

Definition bind {A B : Type} (c : Gen A) (k : A -> Gen B) : Gen B :=
  fun w => let (a, w') := c w in k a w'.

Notation "x <- c ;; k" := (bind c (fun x => k))
  (at level 61, c at next level, right associativity).

(** A [for] loop over the counter values [xs], threading the loop state. *)
Fixpoint for_each {A S : Type} (xs : list A) (body : S -> A -> Gen S) (s : S)
  : Gen S :=
  match xs with
  | [] => ret s
  | x :: rest => s' <- body s x ;; for_each rest body s'
  end.

(** [i.toString()] for a loop counter: its decimal digits. *)
Definition toString (i : nat) : string :=
  NilEmpty.string_of_uint (Nat.to_uint i).

(** [s.padStart(targetLength, c)] for a one-character pad string. *)
Definition padStart (targetLength : nat) (c : ascii) (s : string) : string :=
  (string_of_list_ascii (repeat c (targetLength - String.length s)) ++ s)%string.

(** The template literal [`FX-${i.toString().padStart(3, '0')}`]. *)
Definition trade_id (i : nat) : string :=
  ("FX-" ++ padStart 3 "0"%char (toString i))%string.

Section Generator.

Context {num : Type} `{JSNumber num}.
Variable random_source : nat -> num.
Variable clock : nat -> Z.
Local Open Scope num_scope.

Definition Math_random : Gen num :=
  fun w =>
    (random_source (random_calls w),
     {| random_calls := S (random_calls w); now_calls := now_calls w |}).

Definition Date_now : Gen num :=
  fun w =>
    (n_of_Z (clock (now_calls w)),
     {| random_calls := random_calls w; now_calls := S (now_calls w) |}).

(** The body of the loop of [generateFXTrades] at counter [i]: three draws
    for the notional, the direction and the days to maturity, then the
    object literal, whose properties are evaluated in the order written
    ([tradeDate] reads the clock and draws once more, [maturityDate] reads
    the clock again). *)
Definition generate_trade (trades : list (FXTrade num)) (i : nat)
  : Gen (list (FXTrade num)) :=
  r1 <- Math_random ;;
  let baseNotional := lit 50000 + r1 * lit 2000000 in
  r2 <- Math_random ;;
  let direction := if r2 > lit 0.5 then long else short in
  r3 <- Math_random ;;
  let daysToMaturity := Math_floor (r3 * lit 365) + lit 30 in
  now1 <- Date_now ;;
  r4 <- Math_random ;;
  let tradeDate :=
    new_Date (now1 - r4 * lit 90 * lit 24 * lit 60 * lit 60 * lit 1000) in
  now2 <- Date_now ;;
  let maturityDate :=
    new_Date (now2 + daysToMaturity * lit 24 * lit 60 * lit 60 * lit 1000) in
  ret (trades ++ [ {| id := trade_id i;
                      notionalUSD := baseNotional;
                      tradeDate := tradeDate;
                      maturityDate := maturityDate;
                      direction := direction |} ]).

(** Generate dummy FX trades for simulation *)
Definition generateFXTrades (count : option nat) : Gen (list (FXTrade num)) :=
  let count := dflt count 100%nat in
  for_each (seq 0 count) generate_trade [].

End Generator.

(** The state before the first call. *)
Definition fresh : World := {| random_calls := 0; now_calls := 0 |}.

(** The trade pushed at counter [i] by a run that starts from [fresh]: it
    takes the draws [4 i .. 4 i + 3] and the clock readings [2 i] and
    [2 i + 1] (see [generateFXTrades_run]). *)
Definition trade_at {num} `{JSNumber num}
  (random_source : nat -> num) (clock : nat -> Z) (i : nat) : FXTrade num :=
  {| id := trade_id i;
     notionalUSD :=
       (lit 50000 + random_source (4 * i)%nat * lit 2000000)%num;
     tradeDate :=
       new_Date (n_of_Z (clock (2 * i)%nat)
                 - random_source (4 * i + 3)%nat
                   * lit 90 * lit 24 * lit 60 * lit 60 * lit 1000)%num;
     maturityDate :=
       new_Date (n_of_Z (clock (2 * i + 1)%nat)
                 + (Math_floor (random_source (4 * i + 2)%nat * lit 365) + lit 30)
                   * lit 24 * lit 60 * lit 60 * lit 1000)%num;
     direction :=
       if (random_source (4 * i + 1)%nat > lit 0.5)%num then long else short |}.

(** ** Vocabulary of the statements *)

(** The number a string of decimal digits denotes. *)
Definition decimal_value (s : string) : option nat :=
  option_map Nat.of_uint (NilEmpty.uint_of_string s).

(** A clock the generator can run on: no reading is 30 days or more before
    the previous one (as for every clock that does not go back), and every
    reading leaves room for the 90 days before it and the 395 days after it
    within the range of valid time values (8.64e15 ms either side of the
    epoch). *)
Definition clock_ok (clock : nat -> Z) : Prop :=
  (forall k, (clock k - 30 * 86400000 < clock (S k))%Z) /\
  (forall k, (-8640000000000000 + 90 * 86400000 <= clock k
              <= 8640000000000000 - 395 * 86400000)%Z).

(** Zero of either sign, a positive float, plus infinity, or NaN: the floats
    that are not below zero. *)
Definition sf_nonneg (x : spec_float) : bool :=
  match x with
  | S754_nan | S754_zero _ => true
  | S754_infinity s | S754_finite s _ _ => negb s
  end.

(** A zero or a finite nonzero float. *)
Definition sf_finite (x : spec_float) : bool :=
  match x with
  | S754_zero _ | S754_finite _ _ _ => true
  | _ => false
  end.

(** [0 <= r && r <= 1] on numbers; false for NaN. *)
Definition in_unit_interval (r : float) : bool :=
  PrimFloat.leb 0%float r && PrimFloat.leb r 1%float.

(** A trade of the given notional and direction, for the examples (its id
    and dates play no part in the calculators). *)
Definition position {num : Type} (notional : num) (side : Direction) : FXTrade num :=
  {| id := ""; notionalUSD := notional; tradeDate := None; maturityDate := None;
     direction := side |}.

(** The scenario the dashboard starts from: spot 4.65, a 200 bps shock over
    30 days, 15% volatility. *)
Definition dashboard_scenario : RiskScenario float :=
  {| currentFXRate := 4.65%float;
     shockedFXRate :=
       calculateShockedFXRate 4.65%float 200%float (Some (30 / 365)%float);
     interestRateShock := 200%float;
     volatility := 0.15%float |}.

(** ** The dashboard page *)

(** The page component [Index] holds the simulation parameters and derives
    from them the scenario handed to [calculateRiskMetrics] and the data of
    the sensitivity chart. *)
Module Index.

Section Page.

Context {num : Type} `{JSNumber num}.
Local Open Scope num_scope.

(** The [parameters] state of the page. *)
Record Parameters : Type := {
  currentFXRate : num;
  interestRateShock : num;
  volatility : num;
  numberOfTrades : nat;
  timeHorizon : num
}.

(** Calculate risk scenario *)
Definition riskScenario (parameters : Parameters) : RiskScenario num :=
  let shockedRate :=
    calculateShockedFXRate
      (currentFXRate parameters)
      (interestRateShock parameters)
      (Some (timeHorizon parameters / lit 365)) in
  @Build_RiskScenario num
    (currentFXRate parameters)
    shockedRate
    (interestRateShock parameters)
    (volatility parameters).

(** Generate P&L sensitivity data for charts *)
Definition pnlSensitivityData
  (trades : list (FXTrade num)) (parameters : Parameters)
  : list (SensitivityPoint num) :=
  if (List.length trades =? 0)%nat then []
  else generatePnLSensitivity trades (currentFXRate parameters) (Some (lit 0.5)).

(** The three trends of a metrics card. *)
Inductive Trend : Set := positive | negative | neutral.

Definition getRiskLevel (pnl : num) : Trend :=
  if pnl > lit 0 then positive
  else if n_lt pnl (- lit 10000000) then negative
  else neutral.

End Page.

Arguments Parameters num : clear implicits.

End Index.

(** ** Vocabulary of the statements about binary64 *)

(** The power of two with an integer exponent, as a real. *)
Definition pow2 (e : Z) : R := powerRZ 2 e.

(** The real number a float stands for (0 for infinities and NaN). *)
Definition SF2R (x : spec_float) : R :=
  match x with
  | S754_finite s m e =>
      ((if s then - IZR (Zpos m) else IZR (Zpos m)) * pow2 e)%R
  | _ => 0%R
  end.

Definition F2R (x : float) : R := SF2R (Prim2SF x).

(** A zero, or a positive finite float of magnitude below 2^971: the floats
    the generator computes with. *)
Definition sf_ordinary (x : spec_float) : bool :=
  match x with
  | S754_zero _ => true
  | S754_finite false m e => (Z.pos (digits2_pos m) + e <=? 971)%Z
  | _ => false
  end.

Definition ordinary (x : float) : bool := sf_ordinary (Prim2SF x).

(** A finite float that is not a zero. *)
Definition sf_finite_nonzero (x : spec_float) : bool :=
  match x with
  | S754_finite _ _ _ => true
  | _ => false
  end.

(** [rounds_to v r]: the float [r] is the real [v >= 0] rounded to nearest.
    Whenever [v] is at most an ordinary float, [r] is ordinary and at most
    that float, [r] is at least every ordinary float that [v] is at least,
    and [r] is within half a unit in the last place of [v]. *)
Definition rounds_to (v : R) (r : spec_float) : Prop :=
  forall hi, valid_binary hi = true -> sf_ordinary hi = true -> (v <= SF2R hi)%R ->
  sf_ordinary r = true /\
  (SF2R r <= SF2R hi)%R /\
  (forall lo, valid_binary lo = true -> sf_ordinary lo = true ->
     (SF2R lo <= v)%R -> (SF2R lo <= SF2R r)%R) /\
  (forall k, (-1021 <= k)%Z -> (v < pow2 k)%R ->
     (Rabs (SF2R r - v) <= pow2 (k - 54))%R).

(** [shifted k m X]: the record [X] is what is left of the mantissa [m] after
    [k] right shifts: its mantissa is the quotient by [2^k], its round bit
    says whether the remainder reaches half of [2^k], and its sticky bit
    whether the remainder is neither 0 nor that half. *)
Definition shifted (k m : Z) (X : shr_record) : Prop :=
  (0 <= k /\ 0 <= shr_m X /\
   0 <= m - shr_m X * 2 ^ k < 2 ^ k /\
   shr_r X = (0 <? k) && (2 ^ (k - 1) <=? m - shr_m X * 2 ^ k) /\
   shr_s X = (0 <? k) && negb ((m - shr_m X * 2 ^ k) mod 2 ^ (k - 1) =? 0))%Z.

(** [x] is an ordinary float between the integers [a] and [b]. *)
Definition between (a b : Z) (x : float) : Prop :=
  ordinary x = true /\ (IZR a <= F2R x <= IZR b)%R.

(** A clock of the present era: readings never go back, and every reading
    is at least 90 days after the epoch and at least 395 days before the end
    of the range of valid time values. *)
Definition clock_in_era (clock : nat -> Z) : Prop :=
  (forall j k, (j <= k)%nat -> (clock j <= clock k)%Z) /\
  (forall k, (90 * 86400000 <= clock k <= 8640000000000000 - 395 * 86400000)%Z).

(** A draw of [Math.random()]: a float [r] with [0 <= r < 1]. *)
Definition unit_source (random_source : nat -> float) : Prop :=
  forall k, PrimFloat.leb 0%float (random_source k) = true /\
            PrimFloat.ltb (random_source k) 1%float = true.

(** A zero, or a finite float of either sign of magnitude below 2^971. *)
Definition sf_regular (x : spec_float) : bool :=
  match x with
  | S754_zero _ => true
  | S754_finite _ m e => (Z.pos (digits2_pos m) + e <=? 971)%Z
  | _ => false
  end.

(** [x] is a regular float between the integers [a] and [b], of any sign. *)
Definition enclosed (a b : Z) (x : float) : Prop :=
  sf_regular (Prim2SF x) = true /\ (IZR a <= F2R x <= IZR b)%R.

(** The opposite direction, and a trade with its direction reversed. *)
Definition opposite (d : Direction) : Direction :=
  match d with
  | long => short
  | short => long
  end.

Definition reversed {num : Type} (t : FXTrade num) : FXTrade num :=
  {| id := id t;
     notionalUSD := notionalUSD t;
     tradeDate := tradeDate t;
     maturityDate := maturityDate t;
     direction := opposite (direction t) |}.

(** [mirrored a b]: the float [b] is [a] with the opposite sign, or both are
    zeros (of any signs). *)
Definition mirrored (a b : spec_float) : Prop :=
  b = SFopp a \/ (exists s s', a = S754_zero s /\ b = S754_zero s').

(** ** Facts about binary64 arithmetic *)

Module Binary64Facts.

Local Open Scope float_scope.

Lemma SFcompare_refl (x : spec_float) :
  SFcompare x x = match x with S754_nan => None | _ => Some Eq end.
Proof.
  destruct x as [s|s| |s m e]; simpl; try reflexivity.
  - destruct s; reflexivity.
  - rewrite Z.compare_refl, Pos.compare_cont_refl. destruct s; reflexivity.
Qed.

Lemma SFcompare_antisym (x y : spec_float) :
  SFcompare y x = option_map CompOpp (SFcompare x y).
Proof.
  destruct x as [s|s| |s m e], y as [s'|s'| |s' m' e']; simpl;
    try reflexivity; try (destruct s; reflexivity); try (destruct s'; reflexivity);
    try (destruct s, s'; reflexivity).
  pose proof (Pos.compare_antisym m m') as A. unfold Pos.compare in A.
  destruct s, s'; try reflexivity;
    rewrite (Z.compare_antisym e e'), A; destruct (e ?= e')%Z; simpl; try reflexivity;
    destruct (Pos.compare_cont Eq m m'); reflexivity.
Qed.

Lemma SFcompare_Eq_finite s m e (y : spec_float) :
  SFcompare (S754_finite s m e) y = Some Eq -> y = S754_finite s m e.
Proof.
  destruct y as [s'|s'| |s' m' e']; simpl; try discriminate;
    try (destruct s; discriminate); try (destruct s'; discriminate).
  destruct s, s'; try discriminate;
    destruct (e ?= e')%Z eqn:Ee; try discriminate;
    destruct (Pos.compare_cont Eq m m') eqn:Em; try discriminate; intros _;
    apply Z.compare_eq in Ee; apply Pos.compare_eq in Em; subst; reflexivity.
Qed.

Lemma is_nan_spec (x : float) :
  is_nan x = match Prim2SF x with S754_nan => true | _ => false end.
Proof.
  unfold is_nan. rewrite eqb_spec. unfold SFeqb. rewrite SFcompare_refl.
  destruct (Prim2SF x); reflexivity.
Qed.

Lemma nan_intro (x : float) : Prim2SF x = S754_nan -> x = nan.
Proof. intros E. apply Prim2SF_inj. rewrite E. reflexivity. Qed.

Lemma ltb_leb (x y : float) : (x <? y) = true -> (x <=? y) = true.
Proof.
  rewrite ltb_spec, leb_spec. unfold SFltb, SFleb.
  destruct (SFcompare (Prim2SF x) (Prim2SF y)) as [[ | | ]|]; auto.
Qed.

(** A float that is not NaN and neither below nor above a finite nonzero
    float is that float. *)
Lemma not_ltb_eq (c x : float) s m e :
  Prim2SF c = S754_finite s m e ->
  is_nan x = false -> (c <? x) = false -> (x <? c) = false -> x = c.
Proof.
  intros Ec Nx L1 L2. apply Prim2SF_inj.
  rewrite is_nan_spec in Nx. rewrite ltb_spec in L1, L2.
  unfold SFltb in L1, L2. rewrite (SFcompare_antisym (Prim2SF c)) in L2.
  rewrite Ec in *.
  destruct (SFcompare (S754_finite s m e) (Prim2SF x)) as [[ | | ]|] eqn:C;
    try discriminate.
  - apply SFcompare_Eq_finite in C. rewrite C. reflexivity.
  - destruct (Prim2SF x); try discriminate; simpl in C; discriminate.
Qed.

Lemma clamp_range (x : float) :
  let r := Binary64.max 0 (Binary64.min 1 x) in
  is_nan r = true \/ in_unit_interval r = true.
Proof.
  cbv zeta. unfold Binary64.min. change (is_nan 1) with false. cbn [orb].
  destruct (is_nan x) eqn:Nx; [left; reflexivity|].
  destruct (1 <? x) eqn:L1; [right; reflexivity|].
  assert (B : forall y, is_nan y = false -> (y <=? 1) = true ->
            is_nan (Binary64.max 0 y) = true \/ in_unit_interval (Binary64.max 0 y) = true).
  { intros y Ny Uy. right. unfold Binary64.max. change (is_nan 0) with false.
    rewrite Ny. cbn [orb].
    destruct (0 <? y) eqn:L3.
    - unfold in_unit_interval. rewrite (ltb_leb _ _ L3), Uy. reflexivity.
    - destruct (y <? 0); [reflexivity|]. change (get_sign 0) with false. reflexivity. }
  destruct (x <? 1) eqn:L2.
  - apply B; [exact Nx | apply ltb_leb; exact L2].
  - change (get_sign 1) with false. cbv iota.
    rewrite (not_ltb_eq 1 x false 4503599627370496 (-52) eq_refl Nx L1 L2).
    right; reflexivity.
Qed.


Lemma round_sign (s : bool) (m e : Z) (l : location) :
  match binary_round_aux prec emax s m e l with
  | S754_zero s' | S754_infinity s' | S754_finite s' _ _ => s' = s
  | S754_nan => True
  end.
Proof.
  unfold binary_round_aux.
  destruct (shr_fexp prec emax m e l) as [mrs' e'].
  destruct (shr_fexp prec emax _ e' loc_Exact) as [mrs'' e''].
  destruct (shr_m mrs''); [reflexivity| |exact I].
  destruct (e'' <=? emax - prec)%Z; reflexivity.
Qed.

Lemma round_nonneg (m e : Z) (l : location) :
  sf_nonneg (binary_round_aux prec emax false m e l) = true.
Proof.
  pose proof (round_sign false m e l) as S.
  destruct (binary_round_aux prec emax false m e l); simpl; try reflexivity;
    rewrite S; reflexivity.
Qed.

Lemma leb_zero_nonneg (x : float) :
  (0 <=? x) = true -> sf_nonneg (Prim2SF x) = true.
Proof.
  rewrite leb_spec. change (Prim2SF 0) with (S754_zero false).
  destruct (Prim2SF x) as [s|[|]| |[|] m e]; simpl; auto; discriminate.
Qed.

Lemma nonneg_leb_zero (x : float) :
  sf_nonneg (Prim2SF x) = true -> is_nan x = true \/ (0 <=? x) = true.
Proof.
  rewrite is_nan_spec, leb_spec. change (Prim2SF 0) with (S754_zero false).
  destruct (Prim2SF x) as [s|[|]| |[|] m e]; simpl; auto; discriminate.
Qed.

Lemma mul_nonneg (x y : float) :
  sf_nonneg (Prim2SF x) = true -> sf_nonneg (Prim2SF y) = true ->
  sf_nonneg (Prim2SF (x * y)) = true.
Proof.
  rewrite mul_spec. unfold SF64mul, SFmul.
  destruct (Prim2SF x) as [s|[|]| |[|] m e], (Prim2SF y) as [s'|[|]| |[|] m' e'];
    simpl; try reflexivity; try discriminate; intros _ _.
  apply round_nonneg.
Qed.

Lemma sqrt_nonneg (x : float) :
  sf_nonneg (Prim2SF x) = true -> sf_nonneg (Prim2SF (PrimFloat.sqrt x)) = true.
Proof.
  rewrite sqrt_spec. unfold SF64sqrt, SFsqrt.
  destruct (Prim2SF x) as [s|[|]| |[|] m e]; simpl; try reflexivity; try discriminate.
  intros _. destruct (SFsqrt_core_binary prec emax (Z.pos m) e) as [[mz ez] lz].
  apply round_nonneg.
Qed.

(** Dividing by a positive finite float keeps the sign. *)
Lemma div_nonneg (x c : float) m e :
  Prim2SF c = S754_finite false m e ->
  sf_nonneg (Prim2SF x) = true -> sf_nonneg (Prim2SF (x / c)) = true.
Proof.
  intros Ec. rewrite div_spec, Ec. unfold SF64div, SFdiv.
  destruct (Prim2SF x) as [s|[|]| |[|] m' e']; simpl; try reflexivity; try discriminate.
  intros _. destruct (SFdiv_core_binary prec emax (Z.pos m') e' (Z.pos m) e) as [[mz ez] lz].
  apply round_nonneg.
Qed.

Lemma add_nan_r (x : float) : x + nan = nan.
Proof.
  apply nan_intro. rewrite add_spec. change (Prim2SF nan) with S754_nan.
  unfold SF64add, SFadd. destruct (Prim2SF x); reflexivity.
Qed.

Lemma div_nan_r (x : float) : x / nan = nan.
Proof.
  apply nan_intro. rewrite div_spec. change (Prim2SF nan) with S754_nan.
  unfold SF64div, SFdiv. destruct (Prim2SF x); reflexivity.
Qed.

Lemma mul_nan_r (x : float) : x * nan = nan.
Proof.
  apply nan_intro. rewrite mul_spec. change (Prim2SF nan) with S754_nan.
  unfold SF64mul, SFmul. destruct (Prim2SF x); reflexivity.
Qed.

Lemma sub_nan_r (x : float) : x - nan = nan.
Proof.
  apply nan_intro. rewrite sub_spec. change (Prim2SF nan) with S754_nan.
  unfold SF64sub, SFsub. destruct (Prim2SF x); reflexivity.
Qed.

(** With no exposure the cost penalty is 0/0 or NaN/0, whatever the forward
    points [y]. *)
Lemma zero_exposure_penalty (y : float) : abs (0 * 1 * y) / 0 = nan.
Proof.
  apply nan_intro. rewrite div_spec, abs_spec, mul_spec.
  change (Prim2SF (0 * 1)) with (S754_zero false).
  change (Prim2SF 0) with (S754_zero false).
  destruct (Prim2SF y) as [s|s| |s m e]; reflexivity.
Qed.

Lemma is_finite_spec (x : float) : is_finite x = sf_finite (Prim2SF x).
Proof.
  unfold is_finite, is_infinity. rewrite is_nan_spec, eqb_spec, abs_spec.
  change (Prim2SF infinity) with (S754_infinity false).
  destruct (Prim2SF x) as [s|s| |s m e]; reflexivity.
Qed.

Lemma mul_one_r (x : float) : x * 1 = x.
Proof.
  apply Prim2SF_inj. rewrite mul_spec.
  change (Prim2SF 1) with (S754_finite false 4503599627370496 (-52)).
  pose proof (Prim2SF_valid x) as V.
  destruct (Prim2SF x) as [s|s| |s m e];
    try reflexivity; try (destruct s; reflexivity).
  unfold SF64mul, SFmul.
  rewrite xorb_false_r, Pos.mul_comm. simpl Pos.mul.
  simpl in V. unfold SpecFloat.bounded, canonical_mantissa in V.
  apply andb_prop in V. destruct V as [C B]. apply Z.eqb_eq in C.
  unfold binary_round_aux, shr_fexp. cbn [Zdigits2 digits2_pos].
  match goal with
  | |- context [fexp prec emax (?a + (e + -52))] =>
      replace (a + (e + -52))%Z with (Z.pos (digits2_pos m) + e)%Z by lia
  end.
  rewrite C. replace (e - (e + -52))%Z with 52%Z by lia.
  cbn [shr shr_record_of_loc SpecFloat.iter_pos shr_1 orb shr_m loc_of_shr_record
       round_nearest_even Zdigits2].
  replace (e + -52 + 52)%Z with e by lia. rewrite C.
  rewrite Z.sub_diag. cbn [shr shr_m]. rewrite B. reflexivity.
Qed.

Local Close Scope float_scope.
Local Open Scope Z_scope.

Lemma digits2_size (p : positive) : digits2_pos p = Pos.size p.
Proof. induction p; simpl; congruence. Qed.

Lemma Zdigits2_lt (m : Z) : 0 <= m -> m < 2 ^ Zdigits2 m.
Proof.
  destruct m as [|p|p]; intros Hm; simpl; try lia.
  rewrite digits2_size. pose proof (Pos.size_gt p) as G.
  apply Pos2Z.pos_lt_pos in G. rewrite Pos2Z.inj_pow in G. exact G.
Qed.

Lemma Zdigits2_le (m k : Z) : 0 <= k -> 0 <= m < 2 ^ k -> Zdigits2 m <= k.
Proof.
  intros Hk [Hm Hlt]. destruct m as [|p|p]; simpl; try lia.
  rewrite digits2_size. pose proof (Pos.size_le p) as G.
  apply Pos2Z.pos_le_pos in G. rewrite Pos2Z.inj_pow in G.
  change (Z.pos p~0) with (2 * Z.pos p) in G.
  assert (L : 2 ^ Z.pos (Pos.size p) < 2 ^ (k + 1)).
  { rewrite Z.pow_add_r, Z.pow_1_r by lia. lia. }
  apply Z.pow_lt_mono_r_iff in L; lia.
Qed.

Lemma Zdigits2_ge (p : positive) : 2 ^ (Z.pos (digits2_pos p) - 1) <= Z.pos p.
Proof.
  rewrite digits2_size. pose proof (Pos.size_le p) as G.
  apply Pos2Z.pos_le_pos in G. rewrite Pos2Z.inj_pow in G.
  change (Z.pos p~0) with (2 * Z.pos p) in G.
  replace (Z.pos (Pos.size p)) with (Z.pos (Pos.size p) - 1 + 1) in G by lia.
  rewrite Z.pow_add_r, Z.pow_1_r in G by lia. lia.
Qed.

Lemma shr_1_m (mrs : shr_record) :
  0 <= shr_m mrs -> shr_m (shr_1 mrs) = shr_m mrs / 2.
Proof.
  destruct mrs as [m r s]. simpl. intros Hm.
  rewrite <- Z.div2_div. destruct m as [|[p|p|]|p]; try reflexivity; lia.
Qed.

Lemma pow2_double (p : positive) : 2 ^ Z.pos p~0 = 2 ^ Z.pos p * 2 ^ Z.pos p.
Proof. rewrite Pos2Z.inj_xO, <- Z.pow_add_r by lia. f_equal. lia. Qed.

Lemma iter_shr_m (p : positive) (mrs : shr_record) :
  0 <= shr_m mrs ->
  shr_m (SpecFloat.iter_pos shr_1 p mrs) = shr_m mrs / 2 ^ Z.pos p.
Proof.
  revert mrs. induction p as [p IH|p IH|]; intros mrs Hm; simpl SpecFloat.iter_pos.
  - assert (H1 : 0 <= shr_m (shr_1 mrs))
      by (rewrite shr_1_m by exact Hm; apply Z.div_pos; lia).
    assert (H2 : 0 <= shr_m (SpecFloat.iter_pos shr_1 p (shr_1 mrs)))
      by (rewrite IH by exact H1; apply Z.div_pos; lia).
    rewrite IH, IH, shr_1_m by assumption.
    rewrite !Z.div_div by lia. f_equal.
    rewrite Pos2Z.inj_xI, Z.pow_add_r, Z.pow_1_r by lia.
    change (2 * Z.pos p) with (Z.pos p~0). rewrite pow2_double. ring.
  - assert (H1 : 0 <= shr_m (SpecFloat.iter_pos shr_1 p mrs))
      by (rewrite IH by exact Hm; apply Z.div_pos; lia).
    rewrite IH, IH by assumption.
    rewrite Z.div_div by lia. f_equal. rewrite pow2_double. reflexivity.
  - rewrite shr_1_m by exact Hm. reflexivity.
Qed.

Lemma shr_record_of_loc_m (m : Z) (l : location) : shr_m (shr_record_of_loc m l) = m.
Proof. destruct l as [|[ | | ]]; reflexivity. Qed.

Lemma fexp_le (k : Z) : k <= emax -> fexp prec emax k <= emax - prec.
Proof. unfold fexp, SpecFloat.emin, emax, prec. lia. Qed.

(** What [shr_fexp] does to a non-negative mantissa: the mantissa stays
    non-negative, the exponent is the old one or the canonical one, and the
    magnitude (digits plus exponent) does not grow past either. *)
Lemma shr_fexp_bounds (m e : Z) (l : location) :
  0 <= m ->
  0 <= shr_m (fst (shr_fexp prec emax m e l)) /\
  (snd (shr_fexp prec emax m e l) = e \/
   snd (shr_fexp prec emax m e l) = fexp prec emax (Zdigits2 m + e)) /\
  Zdigits2 (shr_m (fst (shr_fexp prec emax m e l))) + snd (shr_fexp prec emax m e l)
    <= Z.max (Zdigits2 m + e) (snd (shr_fexp prec emax m e l)).
Proof.
  intros Hm. unfold shr_fexp, shr.
  destruct (fexp prec emax (Zdigits2 m + e) - e) as [|p|p] eqn:En; cbn [fst snd];
    rewrite ?shr_record_of_loc_m; try (repeat split; auto; lia).
  rewrite iter_shr_m by (rewrite shr_record_of_loc_m; exact Hm).
  rewrite shr_record_of_loc_m.
  assert (P : 0 < 2 ^ Z.pos p) by (apply Z.pow_pos_nonneg; lia).
  split; [apply Z.div_pos; lia|]. split; [right; lia|].
  pose proof (Zdigits2_lt m Hm) as Lt.
  assert (D : Zdigits2 (m / 2 ^ Z.pos p) <= Z.max 0 (Zdigits2 m - Z.pos p)).
  { apply Zdigits2_le; [lia|]. split; [apply Z.div_pos; lia|].
    apply Z.div_lt_upper_bound; [lia|].
    destruct (Z.le_gt_cases (Z.pos p) (Zdigits2 m)) as [C|C].
    - rewrite Z.max_r by lia. rewrite <- Z.pow_add_r by lia.
      replace (Z.pos p + (Zdigits2 m - Z.pos p)) with (Zdigits2 m) by lia. exact Lt.
    - rewrite Z.max_l by lia. rewrite Z.pow_0_r, Z.mul_1_r.
      apply Z.lt_le_trans with (1 := Lt). apply Z.pow_le_mono_r; lia. }
  lia.
Qed.

Lemma round_nearest_even_bounds (m : Z) (l : location) :
  0 <= m -> 0 <= round_nearest_even m l <= m + 1.
Proof.
  intros Hm. destruct l as [|[ | | ]]; simpl; try lia.
  destruct (Z.even m); lia.
Qed.

(** Rounding does not overflow when the magnitude is below [emax]. *)
Lemma round_finite (s : bool) (m e : Z) (l : location) :
  0 <= m -> Zdigits2 m + e < emax -> e <= emax - prec ->
  sf_finite (binary_round_aux prec emax s m e l) = true.
Proof.
  intros Hm Hd He. unfold binary_round_aux.
  pose proof (shr_fexp_bounds m e l Hm) as (M1 & E1 & D1).
  destruct (shr_fexp prec emax m e l) as [mrs' e']. cbn [fst snd] in M1, E1, D1.
  set (m1 := round_nearest_even (shr_m mrs') (loc_of_shr_record mrs')).
  pose proof (round_nearest_even_bounds (shr_m mrs') (loc_of_shr_record mrs') M1) as R.
  fold m1 in R.
  assert (E1' : e' <= emax - prec).
  { destruct E1 as [->| ->]; [exact He| apply fexp_le; lia]. }
  assert (Dm1 : Zdigits2 m1 <= Zdigits2 (shr_m mrs') + 1).
  { apply Zdigits2_le.
    - destruct (shr_m mrs'); simpl; lia.
    - split; [lia|]. pose proof (Zdigits2_lt (shr_m mrs') M1) as Lt.
      rewrite Z.pow_add_r, Z.pow_1_r; [lia| |lia].
      destruct (shr_m mrs'); simpl; lia. }
  pose proof (shr_fexp_bounds m1 e' loc_Exact (proj1 R)) as (M2 & E2 & D2).
  destruct (shr_fexp prec emax m1 e' loc_Exact) as [mrs'' e'']. cbn [fst snd] in M2, E2, D2.
  assert (E2' : e'' <= emax - prec).
  { destruct E2 as [->| ->]; [exact E1'| apply fexp_le].
    unfold emax, prec in *. lia. }
  destruct (shr_m mrs''); [reflexivity| |lia].
  apply Z.leb_le in E2'. rewrite E2'. reflexivity.
Qed.

Lemma valid_magnitude (m : positive) (e : Z) :
  SpecFloat.bounded prec emax m e = true -> Z.pos (digits2_pos m) + e <= emax.
Proof.
  unfold SpecFloat.bounded, canonical_mantissa. intros V. apply andb_prop in V.
  destruct V as [C B]. apply Z.eqb_eq in C. apply Z.leb_le in B.
  unfold fexp, SpecFloat.emin, emax, prec in *. lia.
Qed.

(** A finite float divided by a finite float of magnitude at least 2 is
    finite. *)
Lemma div_finite (x c : float) (s : bool) (m : positive) (e : Z) :
  Prim2SF c = S754_finite s m e -> 2 <= Z.pos (digits2_pos m) + e ->
  is_finite x = true -> is_finite (x / c)%float = true.
Proof.
  intros Ec Hc. rewrite !is_finite_spec, div_spec, Ec.
  pose proof (Prim2SF_valid x) as V.
  destruct (Prim2SF x) as [sx|sx| |sx mx ex]; try discriminate; [reflexivity|].
  intros _. simpl in V. pose proof (valid_magnitude mx ex V) as Vx.
  unfold SF64div, SFdiv, SFdiv_core_binary. cbn [Zdigits2].
  set (d1 := Z.pos (digits2_pos mx)) in *. set (d2 := Z.pos (digits2_pos m)) in *.
  set (e' := Z.min (fexp prec emax (d1 + ex - (d2 + e))) (ex - e)).
  set (sh := ex - e - e').
  set (m' := match sh with Z.pos _ => Z.shiftl (Z.pos mx) sh | 0 => Z.pos mx | Z.neg _ => 0 end).
  assert (Hsh : 0 <= sh) by (unfold sh, e'; lia).
  assert (Hm' : m' = Z.pos mx * 2 ^ sh).
  { unfold m'. destruct sh as [|p|p] eqn:Es; try lia.
    rewrite Z.shiftl_mul_pow2 by lia. reflexivity. }
  destruct (Z.div_eucl m' (Z.pos m)) as [q r] eqn:Ed.
  assert (Hq : q = m' / Z.pos m) by (unfold Z.div; rewrite Ed; reflexivity).
  assert (P : 0 < 2 ^ sh) by (apply Z.pow_pos_nonneg; lia).
  assert (Q0 : 0 <= q) by (rewrite Hq; apply Z.div_pos; lia).
  assert (Dq : Zdigits2 q <= Z.max 0 (d1 + sh - d2 + 1)).
  { apply Zdigits2_le; [lia|]. split; [exact Q0|].
    rewrite Hq. apply Z.div_lt_upper_bound; [lia|].
    pose proof (Zdigits2_lt (Z.pos mx) ltac:(lia)) as L1. cbn [Zdigits2] in L1. fold d1 in L1.
    pose proof (Zdigits2_ge m) as L2. fold d2 in L2.
    assert (L3 : m' < 2 ^ (d1 + sh)).
    { rewrite Hm', Z.pow_add_r by (unfold d1; lia). nia. }
    assert (P2 : 0 < 2 ^ (d2 - 1)) by (apply Z.pow_pos_nonneg; unfold d2; lia).
    destruct (Z.le_gt_cases 0 (d1 + sh - d2 + 1)) as [C|C].
    - rewrite Z.max_r by lia.
      assert (L4 : 2 ^ (d1 + sh) = 2 ^ (d2 - 1) * 2 ^ (d1 + sh - d2 + 1)).
      { rewrite <- Z.pow_add_r by (unfold d2; lia). f_equal. lia. }
      assert (P3 : 0 < 2 ^ (d1 + sh - d2 + 1)) by (apply Z.pow_pos_nonneg; lia).
      nia.
    - rewrite Z.max_l by lia. rewrite Z.pow_0_r, Z.mul_1_r.
      assert (L4 : 2 ^ (d1 + sh) <= 2 ^ (d2 - 1)) by (apply Z.pow_le_mono_r; lia).
      lia. }
  apply round_finite; [exact Q0| |].
  - unfold sh in Dq. unfold e' in *. unfold fexp, SpecFloat.emin, emax, prec in *. lia.
  - unfold e'. pose proof (fexp_le (d1 + ex - (d2 + e)) ltac:(lia)). lia.
Qed.


Local Close Scope Z_scope.
Local Open Scope float_scope.

Lemma mul_finite_zero (x z : float) (s : bool) :
  is_finite x = true -> Prim2SF z = S754_zero s ->
  exists s', Prim2SF (x * z) = S754_zero s'.
Proof.
  rewrite is_finite_spec, mul_spec. intros Fx ->. unfold SF64mul, SFmul.
  destruct (Prim2SF x) as [sx|sx| |sx mx ex]; try discriminate; eexists; reflexivity.
Qed.

Lemma mul_zero_finite (z x : float) (s : bool) :
  Prim2SF z = S754_zero s -> is_finite x = true ->
  exists s', Prim2SF (z * x) = S754_zero s'.
Proof.
  rewrite is_finite_spec, mul_spec. intros -> Fx. unfold SF64mul, SFmul.
  destruct (Prim2SF x) as [sx|sx| |sx mx ex]; try discriminate; eexists; reflexivity.
Qed.

Lemma one_plus_zero (z : float) (s : bool) : Prim2SF z = S754_zero s -> 1 + z = 1.
Proof.
  intros E. apply Prim2SF_inj. rewrite add_spec, E. reflexivity.
Qed.

End Binary64Facts.

(** ** Facts about the loops *)

Section Generic.
Context {num : Type} `{JSNumber num}.

Lemma push_loop_map {A B : Type} (f : A -> B) (xs : list A) (acc : list B) :
  fold_left (fun l x => l ++ [f x]) xs acc = acc ++ map f xs.
Proof.
  revert acc. induction xs as [|x xs IH]; intros acc; simpl.
  - rewrite app_nil_r. reflexivity.
  - rewrite IH, <- app_assoc. reflexivity.
Qed.

Lemma sensitivity_map (trades : list (FXTrade num)) (baseRate : num) (shockRange : option num) :
  generatePnLSensitivity trades baseRate shockRange =
  map (sensitivity_point trades baseRate (dflt shockRange (lit 0.5))) (seq 0 (S steps)).
Proof. unfold generatePnLSensitivity. rewrite push_loop_map. reflexivity. Qed.

Lemma sensitivity_length (trades : list (FXTrade num)) (baseRate : num) (shockRange : option num) :
  List.length (generatePnLSensitivity trades baseRate shockRange) = 51%nat.
Proof. rewrite sensitivity_map, length_map, length_seq. reflexivity. Qed.

Lemma sensitivity_nth (trades : list (FXTrade num)) (baseRate : num) (shockRange : option num)
  (i : nat) (d : SensitivityPoint num) :
  (i <= 50)%nat ->
  nth i (generatePnLSensitivity trades baseRate shockRange) d =
  sensitivity_point trades baseRate (dflt shockRange (lit 0.5)) i.
Proof.
  intros Hi. rewrite sensitivity_map.
  rewrite (nth_indep _ d (sensitivity_point trades baseRate (dflt shockRange (lit 0.5)) 0)).
  - rewrite map_nth, seq_nth; [reflexivity|unfold steps; lia].
  - rewrite length_map, length_seq. unfold steps. lia.
Qed.
End Generic.


Section GenFacts.
Context {num : Type} `{JSNumber num}.
Variable random_source : nat -> num.
Variable clock : nat -> Z.

Lemma generate_trade_run (trades : list (FXTrade num)) (i : nat) :
  generate_trade random_source clock trades i
    {| random_calls := 4 * i; now_calls := 2 * i |} =
  (trades ++ [trade_at random_source clock i],
   {| random_calls := 4 * S i; now_calls := 2 * S i |}).
Proof.
  unfold generate_trade, bind, ret, Math_random, Date_now, trade_at. cbn [random_calls now_calls].
  replace (S (4 * i)) with (4 * i + 1)%nat by lia.
  replace (S (4 * i + 1)) with (4 * i + 2)%nat by lia.
  replace (S (4 * i + 2)) with (4 * i + 3)%nat by lia.
  replace (S (2 * i)) with (2 * i + 1)%nat by lia.
  repeat f_equal; lia.
Qed.

Lemma for_each_run (n a : nat) (trades : list (FXTrade num)) :
  for_each (seq a n) (generate_trade random_source clock) trades
    {| random_calls := 4 * a; now_calls := 2 * a |} =
  (trades ++ map (trade_at random_source clock) (seq a n),
   {| random_calls := 4 * (a + n); now_calls := 2 * (a + n) |}).
Proof.
  revert a trades. induction n as [|n IH]; intros a trades; cbn [seq for_each map].
  - unfold ret. rewrite app_nil_r, Nat.add_0_r. reflexivity.
  - unfold bind. rewrite generate_trade_run, IH, <- app_assoc.
    replace (S a + n)%nat with (a + S n)%nat by lia. reflexivity.
Qed.

Lemma generateFXTrades_run (count : option nat) :
  generateFXTrades random_source clock count fresh =
  (map (trade_at random_source clock) (seq 0 (dflt count 100%nat)),
   {| random_calls := 4 * dflt count 100%nat; now_calls := 2 * dflt count 100%nat |}).
Proof. unfold generateFXTrades. apply (for_each_run _ 0 []). Qed.

End GenFacts.

Lemma decimal_value_pad (k : nat) (s : string) :
  decimal_value (string_of_list_ascii (repeat "0"%char k) ++ s) = decimal_value s.
Proof.
  induction k as [|k IH]; [reflexivity|].
  unfold decimal_value in *. cbn [repeat string_of_list_ascii String.append NilEmpty.uint_of_string].
  destruct (NilEmpty.uint_of_string (string_of_list_ascii (repeat "0"%char k) ++ s)) as [d|];
    [|exact IH].
  cbn [uint_of_char option_map] in *.
  change (Nat.of_uint (Decimal.D0 d)) with (Nat.of_uint d). exact IH.
Qed.

Lemma decimal_value_toString (i : nat) : decimal_value (toString i) = Some i.
Proof.
  unfold decimal_value, toString. rewrite NilEmpty.usu. simpl.
  rewrite DecimalNat.Unsigned.of_to. reflexivity.
Qed.

Lemma trade_id_inj (i j : nat) : trade_id i = trade_id j -> i = j.
Proof.
  unfold trade_id. intros E. simpl in E. injection E as E.
  apply (f_equal decimal_value) in E. unfold padStart in E.
  rewrite !decimal_value_pad, !decimal_value_toString in E. congruence.
Qed.

Lemma trade_ids_NoDup (a n : nat) : NoDup (map trade_id (seq a n)).
Proof.
  revert a. induction n as [|n IH]; intros a; cbn [seq map]; constructor.
  - rewrite in_map_iff. intros (j & E & Hj). apply trade_id_inj in E.
    apply in_seq in Hj. lia.
  - apply IH.
Qed.

(** ** Facts about the exact reading *)

Section RealFacts.
Local Open Scope R_scope.

Lemma lit_real (q : Q) : lit (num := R) q = IZR (Qnum q) / IZR (Zpos (Qden q)).
Proof. reflexivity. Qed.

Lemma of_nat_real (i : nat) : n_of_nat (num := R) i = INR i.
Proof.
  unfold n_of_nat. cbn [n_of_Z real_number]. rewrite INR_IZR_INZ. reflexivity.
Qed.

Lemma fxRate_real (trades : list (FXTrade R)) (b sr : R) (i : nat) :
  fxRate (sensitivity_point trades b sr i) = b - sr + 2 * sr * INR i / 50.
Proof.
  unfold sensitivity_point; cbn [fxRate]. rewrite !of_nat_real.
  cbn [n_add n_sub n_mul n_div real_number]. rewrite lit_real.
  unfold steps. simpl. lra.
Qed.

Lemma pnl_step_real (b r acc : R) (t : FXTrade R) :
  pnl_step b r acc t = acc + pnl_step b r 0 t.
Proof.
  unfold pnl_step; simpl. destruct (direction t); lra.
Qed.

Lemma pnl_fold_real (b r : R) (ts : list (FXTrade R)) (acc : R) :
  fold_left (pnl_step b r) ts acc = acc + fold_left (pnl_step b r) ts 0.
Proof.
  revert acc. induction ts as [|t ts IH]; intros acc; cbn [fold_left].
  - lra.
  - rewrite IH, (IH (pnl_step b r 0 t)), (pnl_step_real b r acc t). lra.
Qed.

Lemma pnl_real (b r : R) (ts : list (FXTrade R)) :
  calculateUnhedgedPnL ts b r = fold_left (pnl_step b r) ts 0.
Proof. unfold calculateUnhedgedPnL. rewrite lit_real. simpl. f_equal. lra. Qed.

Lemma pnl_flat_real (b : R) (ts : list (FXTrade R)) :
  calculateUnhedgedPnL ts b b = 0.
Proof.
  rewrite pnl_real. induction ts as [|t ts IH]; cbn [fold_left]; [reflexivity|].
  rewrite pnl_fold_real, IH. unfold pnl_step; simpl. destruct (direction t); lra.
Qed.

End RealFacts.

(** ** Rounding to nearest in binary64 *)

(** The operations of [PrimFloat] are specified by [SpecFloat]: the exact
    result of an operation is rounded by [binary_round_aux], which shifts
    the mantissa to the canonical exponent and rounds to nearest, ties to
    even.  This part relates that rounding to the real numbers for the
    floats the trade generator computes with (the zeros and the positive
    floats below 2^971): the rounded float lies between any two such floats
    that enclose the exact result ([round_le], [round_ge]), and is within
    half a unit in the last place of it.  Hence the product, the sum and the
    difference of floats that lie between integer bounds lie between the
    product, the sum and the difference of the bounds ([mul_between],
    [add_between], [sub_between]), also for sums and differences of floats
    of either sign ([add_enclosed], [sub_enclosed]). *)

Module Rounding.
Import Binary64Facts.
Local Open Scope Z_scope.

(** *** Shifting a mantissa to the right *)

Lemma shifted_start (m : Z) :
  0 <= m -> shifted 0 m {| shr_m := m; shr_r := false; shr_s := false |}.
Proof.
  intros Hm. unfold shifted; cbn [shr_m shr_r shr_s].
  rewrite Z.pow_0_r. repeat split; try lia.
Qed.

Lemma shifted_step (k m : Z) (X : shr_record) :
  shifted k m X -> shifted (k + 1) m (shr_1 X).
Proof.
  intros (Hk & Hq & Hrem & Hr & Hs).
  destruct X as [q r s]. cbn [shr_m shr_r shr_s] in *.
  set (rem := m - q * 2 ^ k) in *.
  assert (P : 0 < 2 ^ k) by (apply Z.pow_pos_nonneg; lia).
  assert (E : 2 ^ (k + 1) = 2 * 2 ^ k) by (rewrite Z.pow_add_r, Z.pow_1_r; lia).
  assert (RS : r || s = negb (rem =? 0)).
  { rewrite Hr, Hs. destruct (0 <? k) eqn:K.
    - apply Z.ltb_lt in K. cbn [andb].
      assert (P1 : 0 < 2 ^ (k - 1)) by (apply Z.pow_pos_nonneg; lia).
      assert (E1 : 2 ^ k = 2 * 2 ^ (k - 1)).
      { replace k with (k - 1 + 1) at 1 by lia. rewrite Z.pow_add_r, Z.pow_1_r; lia. }
      destruct (2 ^ (k - 1) <=? rem) eqn:C.
      + apply Z.leb_le in C. cbn [orb]. symmetry. apply negb_true_iff, Z.eqb_neq. lia.
      + apply Z.leb_gt in C. cbn [orb]. rewrite Z.mod_small by lia. reflexivity.
    - apply Z.ltb_ge in K. assert (k = 0) by lia. subst k.
      rewrite Z.pow_0_r in Hrem. cbn [andb orb]. symmetry.
      apply negb_false_iff, Z.eqb_eq. lia. }
  pose proof (Z.div2_odd q) as D.
  assert (Q : 0 <= Z.div2 q) by (apply Z.div2_nonneg; lia).
  assert (step : shr_1 {| shr_m := q; shr_r := r; shr_s := s |} =
                 {| shr_m := Z.div2 q; shr_r := Z.odd q; shr_s := r || s |}).
  { unfold shr_1. destruct q as [|[p|p|]|p]; try reflexivity; lia. }
  rewrite step. unfold shifted; cbn [shr_m shr_r shr_s].
  replace (k + 1 - 1) with k by lia.
  assert (R' : m - Z.div2 q * 2 ^ (k + 1) = Z.b2z (Z.odd q) * 2 ^ k + rem)
    by (unfold rem; nia).
  rewrite R'.
  assert (K1 : (0 <? k + 1) = true) by (apply Z.ltb_lt; lia). rewrite K1. cbn [andb].
  assert (Md : (Z.b2z (Z.odd q) * 2 ^ k + rem) mod 2 ^ k = rem).
  { rewrite Z.add_comm, Z.mod_add by lia. apply Z.mod_small. lia. }
  rewrite Md, RS.
  assert (B : 0 <= Z.b2z (Z.odd q) <= 1) by (destruct (Z.odd q); cbn; lia).
  repeat split; try lia; try nia.
  destruct (Z.odd q); cbn [Z.b2z]; symmetry;
    [apply Z.leb_le | apply Z.leb_gt]; lia.
Qed.

Lemma shifted_iter (p : positive) (k m : Z) (X : shr_record) :
  shifted k m X -> shifted (k + Z.pos p) m (SpecFloat.iter_pos shr_1 p X).
Proof.
  revert k X. induction p as [p IH|p IH|]; intros k X HX; cbn [SpecFloat.iter_pos].
  - replace (k + Z.pos p~1) with (k + 1 + Z.pos p + Z.pos p) by lia.
    apply IH, IH, shifted_step, HX.
  - replace (k + Z.pos p~0) with (k + Z.pos p + Z.pos p) by lia.
    apply IH, IH, HX.
  - apply shifted_step, HX.
Qed.

(** Rounding to nearest after [k] shifts is within half of [2^k] of the
    mantissa, is the quotient or its successor, and is the quotient when
    the shift is exact. *)
Lemma shifted_round (k m : Z) (X : shr_record) :
  shifted k m X ->
  let r := round_nearest_even (shr_m X) (loc_of_shr_record X) in
  shr_m X <= r <= shr_m X + 1 /\
  2 * Z.abs (r * 2 ^ k - m) <= 2 ^ k /\
  (m - shr_m X * 2 ^ k = 0 -> r = shr_m X).
Proof.
  intros (Hk & Hq & Hrem & Hr & Hs). cbv zeta.
  destruct X as [q r s]. cbn [shr_m shr_r shr_s] in *.
  set (rem := m - q * 2 ^ k) in *.
  assert (P : 0 < 2 ^ k) by (apply Z.pow_pos_nonneg; lia).
  destruct (0 <? k) eqn:K.
  - apply Z.ltb_lt in K. cbn [andb] in Hr, Hs.
    assert (P1 : 0 < 2 ^ (k - 1)) by (apply Z.pow_pos_nonneg; lia).
    assert (E1 : 2 ^ k = 2 * 2 ^ (k - 1)).
    { replace k with (k - 1 + 1) at 1 by lia. rewrite Z.pow_add_r, Z.pow_1_r; lia. }
    subst r s.
    assert (Em : m = q * 2 ^ k + rem) by (unfold rem; lia).
    clearbody rem. subst m. rewrite E1 in *. set (t := 2 ^ (k - 1)) in *.
    clearbody t.
    replace (q * (2 * t) + rem - q * (2 * t)) with rem by lia.
    destruct (t <=? rem) eqn:C1; destruct (rem mod t =? 0) eqn:C2;
      cbn [negb loc_of_shr_record round_nearest_even].
    + (* the half *)
      apply Z.leb_le in C1. apply Z.eqb_eq in C2.
      assert (rem = t).
      { destruct (Z.eq_dec rem t) as [C|C]; [exact C|].
        apply Z.mod_divide in C2; [|lia]. destruct C2 as [c C2].
        assert (c = 1) by nia. subst c. lia. }
      destruct (Z.even q); repeat split; try lia; nia.
    + (* above the half *)
      apply Z.leb_le in C1. apply Z.eqb_neq in C2.
      assert (rem <> t).
      { intros C. apply C2. rewrite C. apply Z.mod_same. lia. }
      repeat split; try lia; nia.
    + (* exact *)
      apply Z.leb_gt in C1. apply Z.eqb_eq in C2.
      rewrite Z.mod_small in C2 by lia. repeat split; try lia; nia.
    + (* below the half *)
      apply Z.leb_gt in C1. repeat split; try lia; nia.
  - apply Z.ltb_ge in K. assert (k = 0) by lia. subst k.
    rewrite Z.pow_0_r in *. cbn [andb] in Hr, Hs. subst r s.
    cbn [loc_of_shr_record round_nearest_even]. repeat split; lia.
Qed.

(** *** The value of a rounded float *)

Lemma pow2_pos (e : Z) : (0 < pow2 e)%R.
Proof. apply powerRZ_lt. lra. Qed.

Lemma pow2_add (a b : Z) : (pow2 (a + b) = pow2 a * pow2 b)%R.
Proof. apply powerRZ_add. lra. Qed.

Lemma pow2_IZR (k : Z) : (0 <= k)%Z -> IZR (2 ^ k) = pow2 k.
Proof.
  intros Hk. unfold pow2.
  rewrite <- (Z2Nat.id k) by exact Hk.
  rewrite <- pow_powerRZ, <- pow_IZR. reflexivity.
Qed.

Lemma pow2_le (a b : Z) : (a <= b)%Z -> (pow2 a <= pow2 b)%R.
Proof.
  intros H. replace b with (a + (b - a))%Z by lia. rewrite pow2_add.
  rewrite <- (pow2_IZR (b - a)) by lia.
  assert (1 <= IZR (2 ^ (b - a)))%R.
  { apply IZR_le. pose proof (Z.pow_pos_nonneg 2 (b - a)). lia. }
  pose proof (pow2_pos a). nra.
Qed.

Lemma pow2_lt (a b : Z) : (a < b)%Z -> (pow2 a < pow2 b)%R.
Proof.
  intros H. replace b with (a + (b - a))%Z by lia. rewrite pow2_add.
  rewrite <- (pow2_IZR (b - a)) by lia.
  assert (2 <= IZR (2 ^ (b - a)))%R.
  { apply IZR_le. replace (b - a)%Z with (1 + (b - a - 1))%Z by lia.
    rewrite Z.pow_add_r by lia. pose proof (Z.pow_pos_nonneg 2 (b - a - 1)). lia. }
  pose proof (pow2_pos a). nra.
Qed.


Lemma shr_fexp_noop (m e : Z) (l : location) :
  fexp prec emax (Zdigits2 m + e) <= e ->
  shr_fexp prec emax m e l = (shr_record_of_loc m l, e).
Proof.
  intros H. unfold shr_fexp, shr.
  destruct (fexp prec emax (Zdigits2 m + e) - e) eqn:En; try reflexivity. lia.
Qed.

Lemma fexp_ge_emin (k : Z) : -1074 <= fexp prec emax k.
Proof. unfold fexp, SpecFloat.emin, emax, prec. lia. Qed.

Lemma fexp_mono (a b : Z) : a <= b -> fexp prec emax a <= fexp prec emax b.
Proof. unfold fexp, SpecFloat.emin, emax, prec. lia. Qed.

(** The float to which [binary_round_aux] rounds an exact non-negative
    mantissa [m] at exponent [e], when it does not overflow: its value is
    [K * 2^E] where [E] is the larger of [e] and the canonical exponent, and
    [K] is [m / 2^(E - e)] rounded to nearest. *)
Lemma round_value (m e : Z) :
  0 <= m ->
  let E := Z.max e (fexp prec emax (Zdigits2 m + e)) in
  let r := binary_round_aux prec emax false m e loc_Exact in
  sf_finite r = true ->
  exists K,
    m / 2 ^ (E - e) <= K <= m / 2 ^ (E - e) + 1 /\
    2 * Z.abs (K * 2 ^ (E - e) - m) <= 2 ^ (E - e) /\
    (m mod 2 ^ (E - e) = 0 -> K = m / 2 ^ (E - e)) /\
    SF2R r = (IZR K * pow2 E)%R /\
    sf_nonneg r = true.
Proof.
  intros Hm E r. unfold r, binary_round_aux.
  destruct (Z.le_gt_cases (fexp prec emax (Zdigits2 m + e)) e) as [C|C].
  - (* no shift: the result is m at e *)
    assert (EE : E = e) by (unfold E; lia).
    rewrite shr_fexp_noop by exact C.
    cbn [shr_record_of_loc shr_m loc_of_shr_record round_nearest_even].
    rewrite shr_fexp_noop by exact C. cbn [shr_record_of_loc shr_m].
    rewrite EE, Z.sub_diag, Z.pow_0_r, Z.div_1_r.
    intros F. exists m. rewrite Z.mul_1_r, Z.sub_diag. cbn [Z.abs].
    repeat split; try lia.
    + destruct m as [|p|p]; [simpl; lra| |lia].
      destruct (e <=? emax - prec); [reflexivity|discriminate].
    + destruct m as [|p|p]; [reflexivity| |lia].
      destruct (e <=? emax - prec); [reflexivity|discriminate].
  - (* a shift by p > 0 *)
    assert (EE : E = fexp prec emax (Zdigits2 m + e)) by (unfold E; lia).
    destruct (fexp prec emax (Zdigits2 m + e) - e) as [|p|p] eqn:En; try lia.
    assert (Ee : e + Z.pos p = E) by lia.
    assert (S1 : shr_fexp prec emax m e loc_Exact =
                 (SpecFloat.iter_pos shr_1 p {| shr_m := m; shr_r := false; shr_s := false |}, E)).
    { unfold shr_fexp, shr. rewrite En, Ee. reflexivity. }
    rewrite S1.
    pose proof (shifted_iter p 0 m _ (shifted_start m Hm)) as Sh.
    rewrite Z.add_0_l in Sh.
    set (X := SpecFloat.iter_pos shr_1 p {| shr_m := m; shr_r := false; shr_s := false |}) in *.
    pose proof (shifted_round _ _ _ Sh) as (K1 & K2 & K3).
    set (K := round_nearest_even (shr_m X) (loc_of_shr_record X)) in *.
    destruct Sh as (_ & Q0 & Rem & _ & _).
    assert (Ep : E - e = Z.pos p) by lia. rewrite Ep.
    assert (P : 0 < 2 ^ Z.pos p) by (apply Z.pow_pos_nonneg; lia).
    assert (Q : shr_m X = m / 2 ^ Z.pos p).
    { apply Z.div_unique with (r := m - shr_m X * 2 ^ Z.pos p); lia. }
    assert (K53 : K <= 2 ^ 53).
    { pose proof (Zdigits2_lt m Hm) as Lt.
      assert (D : Zdigits2 m <= 53 + Z.pos p).
      { unfold fexp, SpecFloat.emin, emax, prec in *. lia. }
      assert (L2 : 2 ^ Zdigits2 m <= 2 ^ (53 + Z.pos p)) by (apply Z.pow_le_mono_r; lia).
      rewrite Z.pow_add_r in L2 by lia. nia. }
    assert (Emin : -1074 <= E) by (rewrite EE; apply fexp_ge_emin).
    intros F. exists K. rewrite <- Q.
    assert (V : SF2R
      (let '(mrs'', e'') := shr_fexp prec emax K E loc_Exact in
       match shr_m mrs'' with
       | 0 => S754_zero false
       | Z.pos m0 => if e'' <=? emax - prec then S754_finite false m0 e'' else S754_infinity false
       | Z.neg _ => S754_nan
       end) = (IZR K * pow2 E)%R /\
      sf_nonneg
      (let '(mrs'', e'') := shr_fexp prec emax K E loc_Exact in
       match shr_m mrs'' with
       | 0 => S754_zero false
       | Z.pos m0 => if e'' <=? emax - prec then S754_finite false m0 e'' else S754_infinity false
       | Z.neg _ => S754_nan
       end) = true).
    { revert F. destruct (Z.eq_dec K (2 ^ 53)) as [T|T].
      - (* the carry: one more shift, which is exact *)
        rewrite T. unfold shr_fexp, shr. change (Zdigits2 (2 ^ 53)) with 54.
        replace (fexp prec emax (54 + E) - E) with 1
          by (unfold fexp, SpecFloat.emin, emax, prec; lia).
        cbn [shr_record_of_loc SpecFloat.iter_pos shr_1 shr_m]. 
        change (2 ^ 53) with 9007199254740992. cbn [shr_1 shr_m orb].
        destruct (E + 1 <=? emax - prec); [|discriminate]. intros _.
        split; [|reflexivity]. cbn [SF2R]. rewrite pow2_add.
        assert (P1 : pow2 1 = 2%R) by (unfold pow2; simpl; lra).
        rewrite P1. lra.
      - rewrite shr_fexp_noop.
        + cbn [shr_record_of_loc shr_m]. destruct K as [|k|k]; [split; [simpl; lra|reflexivity]| |lia].
          destruct (E <=? emax - prec); [|discriminate]. intros _. split; reflexivity.
        + assert (D : Zdigits2 K <= 53) by (apply Zdigits2_le; lia).
          unfold fexp, SpecFloat.emin, emax, prec in *. lia. }
    destruct V as [V1 V2]. repeat split; try lia.
    + intros Hmod. apply K3. rewrite Q. rewrite Z.mod_eq in Hmod by lia. lia.
    + exact V1.
    + exact V2.
Qed.

(** *** Rounding between two floats *)

(** A mantissa moved to a smaller exponent. *)
Lemma rescale (a e e0 : Z) :
  e0 <= e -> (IZR a * pow2 e = IZR (a * 2 ^ (e - e0)) * pow2 e0)%R.
Proof.
  intros H. rewrite mult_IZR, pow2_IZR by lia.
  replace e with ((e - e0) + e0) at 1 by lia. rewrite pow2_add. ring.
Qed.

Lemma scaled_le (a b e : Z) : (IZR a * pow2 e <= IZR b * pow2 e)%R <-> a <= b.
Proof.
  pose proof (pow2_pos e) as P. split; intros H.
  - apply le_IZR. nra.
  - apply IZR_le in H. nra.
Qed.

Lemma scaled_lt (a b e : Z) : (IZR a * pow2 e < IZR b * pow2 e)%R <-> a < b.
Proof.
  pose proof (pow2_pos e) as P. split; intros H.
  - apply lt_IZR. nra.
  - apply IZR_lt in H. nra.
Qed.

(** The magnitude of a positive mantissa at an exponent. *)
Lemma magnitude (p : positive) (e : Z) :
  (pow2 (Z.pos (digits2_pos p) + e - 1) <= IZR (Z.pos p) * pow2 e
   < pow2 (Z.pos (digits2_pos p) + e))%R.
Proof.
  pose proof (Zdigits2_ge p) as G. pose proof (Zdigits2_lt (Z.pos p) ltac:(lia)) as L.
  cbn [Zdigits2] in L. set (d := Z.pos (digits2_pos p)) in *.
  apply IZR_le in G. apply IZR_lt in L. rewrite pow2_IZR in G, L by (unfold d; lia).
  replace (d + e - 1) with ((d - 1) + e) by lia. rewrite !pow2_add.
  pose proof (pow2_pos e). split; nra.
Qed.

Lemma pow2_lt_inv (a b : Z) : (pow2 a < pow2 b)%R -> a < b.
Proof.
  intros H. destruct (Z.lt_ge_cases a b) as [C|C]; [exact C|].
  apply pow2_le in C. lra.
Qed.

Lemma canonical_exponent (m : positive) (e : Z) :
  SpecFloat.bounded prec emax m e = true ->
  fexp prec emax (Z.pos (digits2_pos m) + e) = e.
Proof.
  unfold SpecFloat.bounded, canonical_mantissa. intros V.
  apply andb_prop in V. destruct V as [C _]. apply Z.eqb_eq in C. exact C.
Qed.

Section RoundBounds.

Variables (p : positive) (e : Z).
Let L := Z.pos (digits2_pos p) + e.
Let r := binary_round_aux prec emax false (Z.pos p) e loc_Exact.

(** Rounding an exact positive quantity that is at most a float of moderate
    magnitude gives a finite non-negative float that is at most that float. *)
Lemma round_le (mh : positive) (eh : Z) :
  SpecFloat.bounded prec emax mh eh = true ->
  Z.pos (digits2_pos mh) + eh <= 971 ->
  (IZR (Z.pos p) * pow2 e <= IZR (Z.pos mh) * pow2 eh)%R ->
  sf_finite r = true /\ sf_nonneg r = true /\
  (SF2R r <= IZR (Z.pos mh) * pow2 eh)%R.
Proof.
  intros Vh Mh Hle.
  pose proof (magnitude p e) as [M1 M2]. pose proof (magnitude mh eh) as [N1 N2].
  fold L in M1, M2.
  assert (LL : L <= Z.pos (digits2_pos mh) + eh).
  { assert (L - 1 < Z.pos (digits2_pos mh) + eh) by (apply pow2_lt_inv; lra). lia. }
  assert (F : sf_finite r = true).
  { apply round_finite; [lia| |]; cbn [Zdigits2]; fold L; unfold emax, prec; unfold L in *; lia. }
  destruct (round_value (Z.pos p) e ltac:(lia) F) as (K & K1 & K2 & K3 & V & NN).
  fold r in V, NN. cbn [Zdigits2] in *. fold L in K1, K2, K3, V.
  split; [exact F|]. split; [exact NN|]. rewrite V.
  pose proof (canonical_exponent mh eh Vh) as Ch.
  pose proof (fexp_mono _ _ LL) as FM. rewrite Ch in FM.
  destruct (Z.le_gt_cases (fexp prec emax L) e) as [C|C].
  - rewrite Z.max_l in * by lia. rewrite Z.sub_diag, Z.pow_0_r in K2.
    assert (K = Z.pos p) by lia. subst K. exact Hle.
  - rewrite Z.max_r in * by lia. set (E := fexp prec emax L) in *.
    rewrite (rescale (Z.pos mh) eh E) by lia. apply scaled_le.
    rewrite (rescale (Z.pos mh) eh e), (rescale (Z.pos p) e e) in Hle by lia.
    apply scaled_le in Hle. rewrite Z.sub_diag, Z.pow_0_r, Z.mul_1_r in Hle.
    replace (eh - e) with ((eh - E) + (E - e)) in Hle by lia.
    rewrite Z.pow_add_r in Hle by lia.
    assert (P1 : 0 < 2 ^ (E - e)) by (apply Z.pow_pos_nonneg; lia).
    assert (P2 : 0 < 2 ^ (eh - E)) by (apply Z.pow_pos_nonneg; lia).
    nia.
Qed.

(** Rounding an exact positive quantity that is at least a float gives at
    least that float. *)
Lemma round_ge (ml : positive) (el : Z) :
  SpecFloat.bounded prec emax ml el = true ->
  sf_finite r = true ->
  (IZR (Z.pos ml) * pow2 el <= IZR (Z.pos p) * pow2 e)%R ->
  (IZR (Z.pos ml) * pow2 el <= SF2R r)%R.
Proof.
  intros Vl F Hle.
  pose proof (magnitude p e) as [M1 M2]. pose proof (magnitude ml el) as [N1 N2].
  fold L in M1, M2.
  destruct (round_value (Z.pos p) e ltac:(lia) F) as (K & K1 & K2 & K3 & V & NN).
  fold r in V, NN. cbn [Zdigits2] in *. fold L in K1, K2, K3, V.
  rewrite V.
  pose proof (canonical_exponent ml el Vl) as Cl.
  destruct (Z.le_gt_cases (fexp prec emax L) e) as [C|C].
  - rewrite Z.max_l in * by lia. rewrite Z.sub_diag, Z.pow_0_r in K2.
    assert (K = Z.pos p) by lia. subst K. exact Hle.
  - rewrite Z.max_r in * by lia. set (E := fexp prec emax L) in *.
    assert (P1 : 0 < 2 ^ (E - e)) by (apply Z.pow_pos_nonneg; lia).
    destruct (Z.le_gt_cases E el) as [D|D].
    + rewrite (rescale (Z.pos ml) el E) by lia. apply scaled_le.
      rewrite (rescale (Z.pos ml) el e), (rescale (Z.pos p) e e) in Hle by lia.
      apply scaled_le in Hle. rewrite Z.sub_diag, Z.pow_0_r, Z.mul_1_r in Hle.
      replace (el - e) with ((el - E) + (E - e)) in Hle by lia.
      rewrite Z.pow_add_r in Hle by lia.
      assert (P2 : 0 < 2 ^ (el - E)) by (apply Z.pow_pos_nonneg; lia).
      nia.
    + (* the bound is in a lower binade than the result *)
      assert (LL : Z.pos (digits2_pos ml) + el < L).
      { destruct (Z.lt_ge_cases (Z.pos (digits2_pos ml) + el) L) as [G|G]; [exact G|].
        apply fexp_mono in G. fold E in G. lia. }
      assert (EL : E = L - 53).
      { pose proof (fexp_ge_emin (Z.pos (digits2_pos ml) + el)).
        unfold E, fexp, SpecFloat.emin, emax, prec in *. lia. }
      assert (K52 : 2 ^ 52 <= K).
      { pose proof (Zdigits2_ge p) as G.
        assert (X : 2 ^ (Z.pos (digits2_pos p) - 1) = 2 ^ 52 * 2 ^ (E - e)).
        { rewrite <- Z.pow_add_r by lia. f_equal. unfold L in EL. lia. }
        assert (2 ^ 52 <= Z.pos p / 2 ^ (E - e)); [|lia].
        apply Z.div_le_lower_bound; lia. }
      apply Rle_trans with (pow2 (L - 1)).
      * apply Rle_trans with (pow2 (Z.pos (digits2_pos ml) + el)); [lra|].
        apply pow2_le. lia.
      * replace (L - 1) with (52 + E) by lia. rewrite pow2_add, <- pow2_IZR by lia.
        apply IZR_le in K52. pose proof (pow2_pos E). nra.
Qed.

End RoundBounds.

(** *** The order of ordinary floats *)

Lemma ordinary_cases (x : spec_float) :
  sf_ordinary x = true ->
  (exists s, x = S754_zero s) \/
  (exists m e, x = S754_finite false m e /\ Z.pos (digits2_pos m) + e <= 971).
Proof.
  destruct x as [s|s| |[|] m e]; cbn [sf_ordinary]; try discriminate.
  - intros _. left. eexists; reflexivity.
  - intros H. right. exists m, e. split; [reflexivity|]. apply Z.leb_le. exact H.
Qed.

Lemma ordinary_nonneg (x : spec_float) : sf_ordinary x = true -> (0 <= SF2R x)%R.
Proof.
  intros H. destruct (ordinary_cases x H) as [[s ->]|(m & e & -> & _)]; cbn [SF2R]; [lra|].
  pose proof (pow2_pos e). assert (0 < IZR (Z.pos m))%R by (apply IZR_lt; lia). nra.
Qed.

Lemma finite_pos (m : positive) (e : Z) : (0 < IZR (Z.pos m) * pow2 e)%R.
Proof.
  pose proof (pow2_pos e). assert (0 < IZR (Z.pos m))%R by (apply IZR_lt; lia). nra.
Qed.

(** A finite non-negative float below an ordinary one is ordinary. *)
Lemma ordinary_below (r hi : spec_float) :
  sf_finite r = true -> sf_nonneg r = true -> sf_ordinary hi = true ->
  (SF2R r <= SF2R hi)%R -> sf_ordinary r = true.
Proof.
  intros F N H Hle.
  destruct r as [s|s| |[|] m e]; cbn [sf_finite sf_nonneg sf_ordinary negb] in F, N |- *;
    try discriminate; try reflexivity.
  apply Z.leb_le. pose proof (magnitude m e) as [M1 M2]. cbn [SF2R] in Hle.
  destruct (ordinary_cases hi H) as [[s ->]|(mh & eh & -> & Lh)]; cbn [SF2R] in Hle.
  - pose proof (finite_pos m e). lra.
  - pose proof (magnitude mh eh) as [N1 N2].
    assert (Z.pos (digits2_pos m) + e - 1 < Z.pos (digits2_pos mh) + eh)
      by (apply pow2_lt_inv; lra).
    lia.
Qed.

(** A float with the smaller exponent is the smaller float. *)
Lemma lower_exponent_lt (mx my : positive) (ex ey : Z) :
  SpecFloat.bounded prec emax mx ex = true ->
  SpecFloat.bounded prec emax my ey = true ->
  ex < ey -> (IZR (Z.pos mx) * pow2 ex < IZR (Z.pos my) * pow2 ey)%R.
Proof.
  intros Vx Vy H.
  pose proof (canonical_exponent mx ex Vx) as Cx.
  pose proof (canonical_exponent my ey Vy) as Cy.
  pose proof (magnitude mx ex) as [_ M2]. pose proof (magnitude my ey) as [N1 _].
  assert (Z.pos (digits2_pos mx) + ex <= Z.pos (digits2_pos my) + ey - 1).
  { unfold fexp, SpecFloat.emin, emax, prec in *. lia. }
  pose proof (pow2_le _ _ H0). lra.
Qed.

(** On ordinary floats the comparison of floats is the comparison of the
    reals they stand for. *)
Lemma compare_R (x y : spec_float) :
  valid_binary x = true -> valid_binary y = true ->
  sf_ordinary x = true -> sf_ordinary y = true ->
  match SFcompare x y with
  | Some Lt => (SF2R x < SF2R y)%R
  | Some Eq => SF2R x = SF2R y
  | Some Gt => (SF2R y < SF2R x)%R
  | None => False
  end.
Proof.
  intros Vx Vy Ox Oy.
  destruct (ordinary_cases x Ox) as [[s ->]|(mx & ex & -> & _)];
    destruct (ordinary_cases y Oy) as [[s' ->]|(my & ey & -> & _)];
    cbn [SFcompare SF2R].
  - reflexivity.
  - apply finite_pos.
  - apply finite_pos.
  - cbn [valid_binary] in Vx, Vy.
    destruct (Z.compare_spec ex ey) as [E|E|E].
    + subst ey. pose proof (pow2_pos ex).
      change (Pos.compare_cont Eq mx my) with (Pos.compare mx my).
      destruct (Pos.compare_spec mx my) as [C|C|C].
      * subst. reflexivity.
      * apply Pos2Z.pos_lt_pos, IZR_lt in C. nra.
      * apply Pos2Z.pos_lt_pos, IZR_lt in C. nra.
    + apply lower_exponent_lt; assumption.
    + apply lower_exponent_lt; assumption.
Qed.

Lemma ltb_R (x y : float) :
  ordinary x = true -> ordinary y = true ->
  (PrimFloat.ltb x y = true <-> (F2R x < F2R y)%R).
Proof.
  intros Ox Oy. rewrite ltb_spec. unfold SFltb, F2R.
  pose proof (compare_R _ _ (Prim2SF_valid x) (Prim2SF_valid y) Ox Oy) as C.
  destruct (SFcompare (Prim2SF x) (Prim2SF y)) as [[ | | ]|];
    split; intros H; try reflexivity; try discriminate; try lra; contradiction.
Qed.

Lemma leb_R (x y : float) :
  ordinary x = true -> ordinary y = true ->
  (PrimFloat.leb x y = true <-> (F2R x <= F2R y)%R).
Proof.
  intros Ox Oy. rewrite leb_spec. unfold SFleb, F2R.
  pose proof (compare_R _ _ (Prim2SF_valid x) (Prim2SF_valid y) Ox Oy) as C.
  destruct (SFcompare (Prim2SF x) (Prim2SF y)) as [[ | | ]|];
    split; intros H; try reflexivity; try discriminate; try lra; contradiction.
Qed.

(** *** The rounding relation *)

Lemma Rabs_self (a : R) : Rabs (a - a) = 0%R.
Proof. replace (a - a)%R with 0%R by ring. apply Rabs_R0. Qed.

Lemma round_aux_rounds (p : positive) (e : Z) :
  rounds_to (IZR (Z.pos p) * pow2 e)
            (binary_round_aux prec emax false (Z.pos p) e loc_Exact).
Proof.
  intros hi Vh Oh Hle.
  pose proof (finite_pos p e) as Pv.
  destruct (ordinary_cases hi Oh) as [[s ->]|(mh & eh & -> & Lh)]; cbn [SF2R] in Hle;
    [lra|].
  cbn [valid_binary] in Vh.
  destruct (round_le p e mh eh Vh Lh Hle) as (F & N & Le).
  split; [|split; [exact Le|split]].
  - apply (ordinary_below _ (S754_finite false mh eh)); assumption.
  - intros lo Vl Ol Hlo.
    destruct (ordinary_cases lo Ol) as [[s ->]|(ml & el & -> & _)]; cbn [SF2R] in *.
    + apply ordinary_nonneg. apply (ordinary_below _ (S754_finite false mh eh)); assumption.
    + apply round_ge; assumption.
  - intros k Hk Hv.
    destruct (round_value (Z.pos p) e ltac:(lia) F) as (K & K1 & K2 & K3 & V & _).
    rewrite V. cbn [Zdigits2] in *.
    pose proof (magnitude p e) as [M1 M2].
    set (L := Z.pos (digits2_pos p) + e) in *.
    assert (LK : L <= k).
    { assert (L - 1 < k) by (apply pow2_lt_inv; lra). lia. }
    destruct (Z.le_gt_cases (fexp prec emax L) e) as [C|C].
    + rewrite Z.max_l in * by lia. rewrite Z.sub_diag, Z.pow_0_r in K2.
      assert (K = Z.pos p) by lia. subst K.
      rewrite Rabs_self. pose proof (pow2_pos (k - 54)). lra.
    + rewrite Z.max_r in * by lia. set (E := fexp prec emax L) in *.
      assert (EK : E <= k - 53).
      { unfold E, fexp, SpecFloat.emin, emax, prec. lia. }
      assert (P1 : 0 < 2 ^ (E - e - 1)) by (apply Z.pow_pos_nonneg; lia).
      assert (E2 : 2 ^ (E - e) = 2 * 2 ^ (E - e - 1)).
      { replace (E - e) with (1 + (E - e - 1)) at 1 by lia.
        rewrite Z.pow_add_r by lia. reflexivity. }
      rewrite (rescale K E e) by lia.
      rewrite <- Rmult_minus_distr_r, <- minus_IZR, Rabs_mult, <- abs_IZR.
      rewrite (Rabs_pos_eq (pow2 e)) by (pose proof (pow2_pos e); lra).
      apply Rle_trans with (IZR (2 ^ (E - e - 1)) * pow2 e)%R.
      * apply Rmult_le_compat_r; [pose proof (pow2_pos e); lra|]. apply IZR_le. lia.
      * rewrite pow2_IZR, <- pow2_add by lia. apply pow2_le. lia.
Qed.

Lemma zero_rounds (s : bool) : rounds_to 0 (S754_zero s).
Proof.
  intros hi Vh Oh Hle. cbn [SF2R sf_ordinary]. repeat split; try assumption; auto.
  intros k _ _. rewrite Rabs_self. pose proof (pow2_pos (k - 54)). lra.
Qed.

Lemma self_rounds (x : spec_float) :
  valid_binary x = true -> sf_finite x = true -> sf_nonneg x = true ->
  rounds_to (SF2R x) x.
Proof.
  intros V F N hi Vh Oh Hle. repeat split; try assumption; auto.
  - apply (ordinary_below x hi); assumption.
  - intros k _ _. rewrite Rabs_self. pose proof (pow2_pos (k - 54)). lra.
Qed.

Lemma iter_xO_value (m d : positive) : Z.pos (Pos.iter xO m d) = Z.pos m * 2 ^ Z.pos d.
Proof.
  induction d as [|d IH] using Pos.peano_ind.
  - cbn [Pos.iter]. rewrite Pos2Z.inj_xO, Z.pow_1_r. ring.
  - rewrite Pos.iter_succ, Pos2Z.inj_xO, IH, Pos2Z.inj_succ, Z.pow_succ_r by lia. ring.
Qed.

Lemma shl_align_value (m : positive) (e e' : Z) :
  (IZR (Z.pos (fst (shl_align m e e'))) * pow2 (snd (shl_align m e e'))
   = IZR (Z.pos m) * pow2 e)%R.
Proof.
  unfold shl_align. destruct (e' - e) as [|d|d] eqn:D; cbn [fst snd]; try reflexivity.
  rewrite iter_xO_value. symmetry. rewrite (rescale (Z.pos m) e e') by lia.
  replace (e - e') with (Z.pos d) by lia. reflexivity.
Qed.

Lemma shl_align_fst (m : positive) (e e' : Z) :
  e' <= e -> Z.pos (fst (shl_align m e e')) = Z.pos m * 2 ^ (e - e').
Proof.
  intros H. unfold shl_align. destruct (e' - e) as [|d|d] eqn:D; cbn [fst]; try lia.
  - replace (e - e') with 0 by lia. rewrite Z.pow_0_r. lia.
  - rewrite iter_xO_value. replace (e - e') with (Z.pos d) by lia. reflexivity.
Qed.

Lemma binary_round_rounds (p : positive) (e : Z) :
  rounds_to (IZR (Z.pos p) * pow2 e) (binary_round prec emax false p e).
Proof.
  unfold binary_round.
  pose proof (shl_align_value p e (fexp prec emax (Z.pos (digits2_pos p) + e))) as V.
  destruct (shl_align p e (fexp prec emax (Z.pos (digits2_pos p) + e))) as [mz ez].
  cbn [fst snd] in V. rewrite <- V. apply round_aux_rounds.
Qed.

Lemma normalize_rounds (z e : Z) :
  0 <= z -> rounds_to (IZR z * pow2 e) (binary_normalize prec emax z e false).
Proof.
  intros Hz. destruct z as [|p|p]; [|apply binary_round_rounds|lia].
  cbn [binary_normalize]. rewrite Rmult_0_l. apply zero_rounds.
Qed.

(** *** The operations on ordinary floats *)

Lemma mul_rounds (x y : float) :
  ordinary x = true -> ordinary y = true ->
  rounds_to (F2R x * F2R y) (Prim2SF (x * y)%float).
Proof.
  unfold ordinary, F2R. intros Ox Oy. rewrite mul_spec. unfold SF64mul.
  destruct (ordinary_cases _ Ox) as [[s ->]|(mx & ex & -> & _)];
    destruct (ordinary_cases _ Oy) as [[s' ->]|(my & ey & -> & _)];
    cbn [SFmul SF2R xorb]; rewrite ?Rmult_0_l, ?Rmult_0_r; try apply zero_rounds.
  replace (IZR (Z.pos mx) * pow2 ex * (IZR (Z.pos my) * pow2 ey))%R
    with (IZR (Z.pos (mx * my)) * pow2 (ex + ey))%R
    by (rewrite Pos2Z.inj_mul, mult_IZR, pow2_add; ring).
  apply round_aux_rounds.
Qed.

Lemma add_rounds (x y : float) :
  ordinary x = true -> ordinary y = true ->
  rounds_to (F2R x + F2R y) (Prim2SF (x + y)%float).
Proof.
  unfold ordinary, F2R. intros Ox Oy. rewrite add_spec. unfold SF64add.
  pose proof (Prim2SF_valid x) as Vx. pose proof (Prim2SF_valid y) as Vy.
  destruct (ordinary_cases _ Ox) as [[s Ex]|(mx & ex & Ex & _)];
    destruct (ordinary_cases _ Oy) as [[s' Ey]|(my & ey & Ey & _)];
    rewrite Ex, Ey in *; cbn [SFadd SF2R].
  - rewrite Rplus_0_l. destruct s, s'; apply zero_rounds.
  - rewrite Rplus_0_l. apply (self_rounds (S754_finite false my ey)); auto.
  - rewrite Rplus_0_r. apply (self_rounds (S754_finite false mx ex)); auto.
  - cbn [cond_Zopp].
    rewrite !shl_align_fst by lia.
    set (ez := Z.min ex ey).
    replace (IZR (Z.pos mx) * pow2 ex + IZR (Z.pos my) * pow2 ey)%R
      with (IZR (Z.pos mx * 2 ^ (ex - ez) + Z.pos my * 2 ^ (ey - ez)) * pow2 ez)%R.
    + apply normalize_rounds.
      assert (0 < 2 ^ (ex - ez)) by (apply Z.pow_pos_nonneg; unfold ez; lia).
      assert (0 < 2 ^ (ey - ez)) by (apply Z.pow_pos_nonneg; unfold ez; lia).
      nia.
    + rewrite plus_IZR, Rmult_plus_distr_r.
      rewrite <- (rescale (Z.pos mx) ex ez), <- (rescale (Z.pos my) ey ez)
        by (unfold ez; lia).
      reflexivity.
Qed.

Lemma sub_rounds (x y : float) :
  ordinary x = true -> ordinary y = true -> (F2R y <= F2R x)%R ->
  rounds_to (F2R x - F2R y) (Prim2SF (x - y)%float).
Proof.
  unfold ordinary, F2R. intros Ox Oy Hle. rewrite sub_spec. unfold SF64sub.
  pose proof (Prim2SF_valid x) as Vx. pose proof (Prim2SF_valid y) as Vy.
  destruct (ordinary_cases _ Ox) as [[s Ex]|(mx & ex & Ex & _)];
    destruct (ordinary_cases _ Oy) as [[s' Ey]|(my & ey & Ey & _)];
    rewrite Ex, Ey in *; cbn [SFsub SF2R] in *.
  - rewrite Rminus_0_r. destruct s, s'; apply zero_rounds.
  - pose proof (finite_pos my ey). lra.
  - rewrite Rminus_0_r. apply (self_rounds (S754_finite false mx ex)); auto.
  - cbn [cond_Zopp].
    rewrite !shl_align_fst by lia.
    set (ez := Z.min ex ey).
    assert (E : (IZR (Z.pos mx) * pow2 ex - IZR (Z.pos my) * pow2 ey)%R
      = (IZR (Z.pos mx * 2 ^ (ex - ez) - Z.pos my * 2 ^ (ey - ez)) * pow2 ez)%R).
    { rewrite minus_IZR, Rmult_minus_distr_r.
      rewrite <- (rescale (Z.pos mx) ex ez), <- (rescale (Z.pos my) ey ez)
        by (unfold ez; lia).
      reflexivity. }
    rewrite E. apply normalize_rounds.
    apply le_IZR. pose proof (pow2_pos ez).
    assert (0 <= IZR (Z.pos mx * 2 ^ (ex - ez) - Z.pos my * 2 ^ (ey - ez)) * pow2 ez)%R
      by (rewrite <- E; lra).
    nra.
Qed.

(** *** Integers *)

Lemma round_aux_exact (p : positive) (e : Z) :
  fexp prec emax (Z.pos (digits2_pos p) + e) <= e -> e <= emax - prec ->
  binary_round_aux prec emax false (Z.pos p) e loc_Exact = S754_finite false p e.
Proof.
  intros C B. unfold binary_round_aux.
  rewrite shr_fexp_noop by exact C.
  cbn [shr_record_of_loc shr_m loc_of_shr_record round_nearest_even].
  rewrite shr_fexp_noop by exact C. cbn [shr_record_of_loc shr_m].
  apply Z.leb_le in B. rewrite B. reflexivity.
Qed.

Lemma digits2_iter_xO (m d : positive) :
  Z.pos (digits2_pos (Pos.iter xO m d)) = Z.pos (digits2_pos m) + Z.pos d.
Proof.
  induction d as [|d IH] using Pos.peano_ind.
  - cbn [Pos.iter digits2_pos]. lia.
  - rewrite Pos.iter_succ. cbn [digits2_pos]. rewrite Pos2Z.inj_succ, IH. lia.
Qed.

(** An integer below 2^53 is a float, exactly. *)
Lemma of_Z_exact (z : Z) :
  0 <= z < 2 ^ 53 ->
  ordinary (Binary64.of_Z z) = true /\ F2R (Binary64.of_Z z) = IZR z.
Proof.
  intros [Hz Hlt]. destruct z as [|p|p]; [split; reflexivity| |lia].
  unfold ordinary, F2R, Binary64.of_Z. rewrite of_uint63_spec.
  assert (T : Uint63Axioms.to_Z (Uint63.of_Z (Z.pos p)) = Z.pos p).
  { rewrite Uint63.of_Z_spec. apply Z.mod_small. unfold Uint63.wB; simpl. 
    change (2 ^ 53) with 9007199254740992 in Hlt. lia. }
  rewrite T. cbn [binary_normalize]. unfold binary_round.
  assert (D : Z.pos (digits2_pos p) <= 53).
  { apply (Zdigits2_le (Z.pos p)); lia. }
  set (d := Z.pos (digits2_pos p)) in *.
  assert (Fx : fexp prec emax (d + 0) = d - 53).
  { unfold fexp, SpecFloat.emin, emax, prec, d. lia. }
  rewrite Fx. unfold shl_align.
  destruct (d - 53 - 0) as [|q|q] eqn:Q; try lia.
  - rewrite round_aux_exact.
    + cbn [sf_ordinary SF2R]. split; [apply Z.leb_le; fold d; lia|].
      change (pow2 0) with 1%R. lra.
    + fold d. rewrite Fx. lia.
    + unfold emax, prec. lia.
  - rewrite round_aux_exact.
    + cbn [sf_ordinary SF2R]. rewrite digits2_iter_xO. fold d.
      split; [apply Z.leb_le; lia|].
      rewrite iter_xO_value.
      replace (Z.pos q) with (0 - (d - 53)) by lia.
      rewrite <- (rescale (Z.pos p) 0 (d - 53)) by lia.
      change (pow2 0) with 1%R. lra.
    + rewrite digits2_iter_xO. fold d.
      unfold fexp, SpecFloat.emin, emax, prec. lia.
    + unfold emax, prec. lia.
Qed.

(** *** Draws, floors and dates *)

Lemma pow2_0 : pow2 0 = 1%R.
Proof. reflexivity. Qed.

Lemma pow2_half (e : Z) : (pow2 e = 2 * pow2 (e - 1))%R.
Proof.
  replace e with (1 + (e - 1)) at 1 by lia. rewrite pow2_add.
  replace (pow2 1) with 2%R by (unfold pow2; simpl; lra). reflexivity.
Qed.

Lemma pow2_52 : (IZR 4503599627370496 * pow2 (-52) = 1)%R.
Proof.
  replace 4503599627370496 with (2 ^ 52) by reflexivity.
  rewrite pow2_IZR, <- pow2_add by lia. reflexivity.
Qed.

Lemma pow2_m53_half : (pow2 (-53) <= / 2)%R.
Proof.
  replace (/ 2)%R with (pow2 (-1)) by (unfold pow2; simpl; lra). apply pow2_le. lia.
Qed.

(** A valid positive float that compares below 1 stands for a real below 1. *)
Lemma below_one (m : positive) (e : Z) :
  SpecFloat.bounded prec emax m e = true ->
  SFltb (S754_finite false m e) (S754_finite false 4503599627370496 (-52)) = true ->
  (IZR (Z.pos m) * pow2 e < 1)%R.
Proof.
  intros V. unfold SFltb. cbn [SFcompare].
  destruct (Z.compare_spec e (-52)) as [E|E|E]; try discriminate.
  - subst e. destruct (Pos.compare_cont Eq m 4503599627370496) eqn:Cm; try discriminate.
    intros _. assert (D : (m < 4503599627370496)%positive) by exact Cm.
    apply Pos2Z.pos_lt_pos, IZR_lt in D.
    pose proof (pow2_pos (-52)). rewrite <- pow2_52.
    apply Rmult_lt_compat_r; assumption.
  - intros _. rewrite <- pow2_52.
    apply lower_exponent_lt; [exact V|reflexivity|exact E].
Qed.

(** A valid positive float that stands for a real below 1 is at most
    1 - 2^-53. *)
Lemma below_one_grid (m : positive) (e : Z) :
  SpecFloat.bounded prec emax m e = true ->
  (IZR (Z.pos m) * pow2 e < 1)%R ->
  Z.pos (digits2_pos m) + e <= 0 /\ (IZR (Z.pos m) * pow2 e <= 1 - pow2 (-53))%R.
Proof.
  intros V V1.
  pose proof (canonical_exponent m e V) as C.
  pose proof (magnitude m e) as [M1 M2].
  pose proof pow2_m53_half as H53.
  set (L := Z.pos (digits2_pos m) + e) in *.
  assert (L0 : L <= 0).
  { assert (L - 1 < 0) by (apply pow2_lt_inv; rewrite pow2_0; lra). lia. }
  split; [exact L0|].
  destruct (Z.eq_dec L 0) as [Z0|Z0].
  - assert (E : e = -53) by (unfold fexp, SpecFloat.emin, emax, prec in C; lia).
    assert (D : Z.pos m < 2 ^ 53).
    { pose proof (Zdigits2_lt (Z.pos m) ltac:(lia)) as Lt'. cbn [Zdigits2] in Lt'.
      replace (Z.pos (digits2_pos m)) with 53 in Lt' by (unfold L in Z0; lia). exact Lt'. }
    assert (D' : (IZR (Z.pos m) + 1 <= pow2 53)%R).
    { rewrite <- pow2_IZR by lia. rewrite <- plus_IZR. apply IZR_le. lia. }
    assert (X : (pow2 53 * pow2 (-53) = 1)%R) by (rewrite <- pow2_add; reflexivity).
    rewrite E. pose proof (pow2_pos (-53)). nra.
  - assert (M3 : (pow2 L <= pow2 (-1))%R) by (apply pow2_le; lia).
    replace (pow2 (-1)) with (/ 2)%R in M3 by (unfold pow2; simpl; lra). lra.
Qed.

(** A draw of [Math.random()]: a float in [0, 1) is ordinary and at most
    1 - 2^-53. *)
Lemma unit_draw (r : float) :
  PrimFloat.leb 0%float r = true -> PrimFloat.ltb r 1%float = true ->
  ordinary r = true /\ (0 <= F2R r <= 1 - pow2 (-53))%R.
Proof.
  rewrite leb_spec, ltb_spec. unfold ordinary, F2R.
  change (Prim2SF 0%float) with (S754_zero false).
  change (Prim2SF 1%float) with (S754_finite false 4503599627370496 (-52)).
  pose proof (Prim2SF_valid r) as V.
  pose proof pow2_m53_half as H53. pose proof (pow2_pos (-53)) as P53.
  destruct (Prim2SF r) as [s|[|]| |[|] m e]; try discriminate.
  - intros _ _. cbn [sf_ordinary SF2R]. split; [reflexivity|lra].
  - intros _ Lt. cbn [valid_binary] in V.
    pose proof (below_one m e V Lt) as V1.
    destruct (below_one_grid m e V V1) as [L0 G].
    cbn [sf_ordinary SF2R]. split; [apply Z.leb_le; lia|].
    split; [pose proof (finite_pos m e); lra|exact G].
Qed.

(** A float strictly below a float that is not a power of two is at most
    its predecessor on the grid of that float. *)
Lemma below_grid (y : spec_float) (mc : positive) (ec : Z) :
  valid_binary y = true -> sf_ordinary y = true ->
  SpecFloat.bounded prec emax mc ec = true ->
  2 ^ (Z.pos (digits2_pos mc) - 1) < Z.pos mc ->
  (SF2R y < IZR (Z.pos mc) * pow2 ec)%R ->
  (SF2R y <= IZR (Z.pos mc - 1) * pow2 ec)%R.
Proof.
  intros Vy Oy Vc Hc Hlt. pose proof (pow2_pos ec) as Pc.
  destruct (ordinary_cases y Oy) as [[s ->]|(my & ey & -> & _)]; cbn [SF2R] in *.
  - assert (0 <= IZR (Z.pos mc - 1))%R by (apply IZR_le; lia). nra.
  - cbn [valid_binary] in Vy.
    pose proof (canonical_exponent my ey Vy) as Cy.
    pose proof (canonical_exponent mc ec Vc) as Cc.
    pose proof (magnitude my ey) as [M1 M2]. pose proof (magnitude mc ec) as [N1 N2].
    set (Ly := Z.pos (digits2_pos my) + ey) in *.
    set (Lc := Z.pos (digits2_pos mc) + ec) in *.
    destruct (Z.compare_spec ey ec) as [E|E|E].
    + subst Ly Lc. subst ey. apply scaled_lt in Hlt. apply scaled_le. lia.
    + assert (LL : Ly < Lc).
      { destruct (Z.lt_ge_cases Ly Lc) as [G|G]; [exact G|].
        apply fexp_mono in G. lia. }
      apply Rle_trans with (pow2 (Lc - 1)).
      * apply Rle_trans with (pow2 Ly); [lra|]. apply pow2_le. lia.
      * unfold Lc. replace (Z.pos (digits2_pos mc) + ec - 1)
          with ((Z.pos (digits2_pos mc) - 1) + ec) by lia.
        rewrite pow2_add, <- pow2_IZR by lia.
        apply Rmult_le_compat_r; [lra|]. apply IZR_le. lia.
    + assert (LL : Lc < Ly).
      { destruct (Z.lt_ge_cases Lc Ly) as [G|G]; [exact G|].
        apply fexp_mono in G. lia. }
      assert (pow2 Lc <= pow2 (Ly - 1))%R by (apply pow2_le; lia). lra.
Qed.

Lemma shiftl_floor (m : positive) (e : Z) :
  (IZR (Z.shiftl (Z.pos m) e) <= IZR (Z.pos m) * pow2 e < IZR (Z.shiftl (Z.pos m) e) + 1)%R.
Proof.
  destruct (Z.le_gt_cases 0 e) as [C|C].
  - rewrite Z.shiftl_mul_pow2 by exact C. rewrite mult_IZR, pow2_IZR by exact C. lra.
  - rewrite Z.shiftl_div_pow2 by lia.
    assert (P : 0 < 2 ^ (- e)) by (apply Z.pow_pos_nonneg; lia).
    pose proof (Z.div_mod (Z.pos m) (2 ^ (- e)) ltac:(lia)) as D.
    pose proof (Z.mod_pos_bound (Z.pos m) (2 ^ (- e)) P) as B.
    set (q := Z.pos m / 2 ^ (- e)) in *. set (t := Z.pos m mod 2 ^ (- e)) in *.
    rewrite (rescale (Z.pos m) e e) by lia.
    assert (X : (IZR (Z.pos m) * pow2 e = (IZR q * IZR (2 ^ (- e)) + IZR t) * pow2 e)%R).
    { rewrite <- mult_IZR, <- plus_IZR. f_equal. f_equal. lia. }
    rewrite Z.sub_diag, Z.pow_0_r, Z.mul_1_r, X.
    rewrite pow2_IZR by lia.
    assert (U : (pow2 (- e) * pow2 e = 1)%R)
      by (rewrite <- pow2_add; replace (- e + e) with 0 by lia; reflexivity).
    assert (T1 : (0 <= IZR t)%R) by (apply IZR_le; lia).
    assert (T2 : (IZR t < pow2 (- e))%R) by (rewrite <- pow2_IZR by lia; apply IZR_lt; lia).
    pose proof (pow2_pos e).
    assert (T3 : (0 <= IZR t * pow2 e)%R) by (apply Rmult_le_pos; lra).
    assert (T4 : (IZR t * pow2 e < pow2 (- e) * pow2 e)%R)
      by (apply Rmult_lt_compat_r; lra).
    replace ((IZR q * pow2 (- e) + IZR t) * pow2 e)%R
      with (IZR q * (pow2 (- e) * pow2 e) + IZR t * pow2 e)%R by ring.
    rewrite U in *. lra.
Qed.

(** Math.floor on an ordinary float below 2^53. *)
Lemma floor_bounds (x : float) :
  ordinary x = true ->
  ordinary (Binary64.floor x) = true /\ (0 <= F2R (Binary64.floor x) <= F2R x)%R.
Proof.
  intros Ox. pose proof (ordinary_nonneg _ Ox) as Nx. pose proof (Prim2SF_valid x) as V.
  unfold Binary64.floor. unfold ordinary, F2R in *.
  destruct (ordinary_cases _ Ox) as [[s E]|(m & e & E & Le)]; rewrite E in *.
  - rewrite E. cbn [sf_ordinary SF2R]. split; [reflexivity|lra].
  - destruct (0 <=? e) eqn:C.
    + rewrite E. split; [exact Ox|]. lra.
    + apply Z.leb_gt in C. cbn [Binary64.floorZ].
      pose proof (shiftl_floor m e) as [F1 F2].
      set (z := Z.shiftl (Z.pos m) e) in *.
      assert (Z0 : 0 <= z).
      { apply Z.shiftl_nonneg. lia. }
      destruct (z =? 0) eqn:Zz.
      * change (Prim2SF PrimFloat.zero) with (S754_zero false). cbn [sf_ordinary SF2R] in *.
        split; [reflexivity|lra].
      * assert (Zlt : z < 2 ^ 53).
        { cbn [valid_binary] in V. pose proof (canonical_exponent m e V) as Ce.
          assert (D : Z.pos (digits2_pos m) <= 53)
            by (unfold fexp, SpecFloat.emin, emax, prec in Ce; lia).
          pose proof (Zdigits2_lt (Z.pos m) ltac:(lia)) as Lt. cbn [Zdigits2] in Lt.
          assert (Z.pos m < 2 ^ 53).
          { apply Z.lt_le_trans with (1 := Lt). apply Z.pow_le_mono_r; lia. }
          unfold z. rewrite Z.shiftl_div_pow2 by lia.
          apply Z.div_lt_upper_bound; [apply Z.pow_pos_nonneg; lia|].
          assert (1 <= 2 ^ (- e)) by (pose proof (Z.pow_pos_nonneg 2 (- e)); lia).
          nia. }
        destruct (of_Z_exact z (conj Z0 Zlt)) as [Oz Fz].
        unfold ordinary, F2R in Oz, Fz. rewrite Fz. split; [exact Oz|].
        split; [apply IZR_le; exact Z0|cbn [SF2R]; lra].
Qed.

(** [new Date(t)] on an ordinary time value within the range of dates: the
    time value of the date is the integer part of [t]. *)
Lemma time_clip_ordinary (t : float) :
  ordinary t = true -> (F2R t <= 8640000000000000)%R ->
  exists z, Binary64.time_clip t = Some z /\ (IZR z <= F2R t < IZR z + 1)%R.
Proof.
  intros Ot Hle. unfold Binary64.time_clip.
  rewrite is_finite_spec.
  assert (A : Prim2SF (PrimFloat.abs t) = SFabs (Prim2SF t)) by apply abs_spec.
  pose proof (Prim2SF_valid t) as V.
  destruct (of_Z_exact 8640000000000000 ltac:(lia)) as [Oc Fc].
  change (Binary64.of_Z 8640000000000000) with 8.64e15%float in Oc, Fc.
  unfold ordinary, F2R in *.
  assert (Lt : PrimFloat.ltb 8.64e15%float (PrimFloat.abs t) = false).
  { rewrite ltb_spec, A. unfold SFltb.
    assert (Oa : sf_ordinary (SFabs (Prim2SF t)) = true /\
                 SF2R (SFabs (Prim2SF t)) = SF2R (Prim2SF t) /\
                 valid_binary (SFabs (Prim2SF t)) = true).
    { destruct (ordinary_cases _ Ot) as [[s E]|(m & e & E & Le)]; rewrite E in *;
        cbn [SFabs]; repeat split; assumption. }
    destruct Oa as (Oa & Va & Vv).
    pose proof (compare_R _ _ (Prim2SF_valid 8.64e15%float) Vv Oc Oa) as C.
    destruct (SFcompare (Prim2SF 8.64e15%float) (SFabs (Prim2SF t))) as [[ | | ]|];
      try reflexivity. lra. }
  rewrite Lt.
  destruct (ordinary_cases _ Ot) as [[s E]|(m & e & E & Le)]; rewrite E in *;
    cbn [sf_finite negb Binary64.truncZ SF2R].
  - exists 0. split; [reflexivity|lra].
  - exists (Z.shiftl (Z.pos m) e). split; [reflexivity|]. apply shiftl_floor.
Qed.


(** *** Intervals with integer bounds *)

Lemma rounds_between (v : R) (r : float) (a b : Z) :
  rounds_to v (Prim2SF r) -> 0 <= a -> b < 9007199254740992 -> (IZR a <= v <= IZR b)%R ->
  between a b r.
Proof.
  intros H Ha Hb [L U].
  assert (AB : a <= b) by (apply le_IZR; lra).
  destruct (of_Z_exact a ltac:(change (2 ^ 53) with 9007199254740992; lia)) as [Oa Fa].
  destruct (of_Z_exact b ltac:(change (2 ^ 53) with 9007199254740992; lia)) as [Ob Fb].
  unfold F2R in Fa, Fb.
  destruct (H (Prim2SF (Binary64.of_Z b)) (Prim2SF_valid _) Ob ltac:(lra))
    as (Or & Le & Lo & _).
  specialize (Lo (Prim2SF (Binary64.of_Z a)) (Prim2SF_valid _) Oa ltac:(lra)).
  split; [exact Or|]. unfold F2R. lra.
Qed.

Lemma int_between (k : float) (c : Z) :
  k = Binary64.of_Z c -> 0 <= c < 9007199254740992 -> between c c k.
Proof.
  intros -> H. destruct (of_Z_exact c H) as [O F]. split; [exact O|]. rewrite F. lra.
Qed.

Lemma mul_between (x y : float) (a b a' b' : Z) :
  between a b x -> between a' b' y -> 0 <= a -> 0 <= a' -> b * b' < 9007199254740992 ->
  between (a * a') (b * b') (x * y)%float.
Proof.
  intros [Ox [L U]] [Oy [L' U']] Ha Ha' Hb.
  apply (rounds_between (F2R x * F2R y)); [apply mul_rounds; assumption|nia|exact Hb|].
  rewrite !mult_IZR. apply IZR_le in Ha, Ha'. split; nra.
Qed.

Lemma add_between (x y : float) (a b a' b' : Z) :
  between a b x -> between a' b' y -> 0 <= a -> 0 <= a' -> b + b' < 9007199254740992 ->
  between (a + a') (b + b') (x + y)%float.
Proof.
  intros [Ox [L U]] [Oy [L' U']] Ha Ha' Hb.
  apply (rounds_between (F2R x + F2R y)); [apply add_rounds; assumption|lia|exact Hb|].
  rewrite !plus_IZR. split; lra.
Qed.

Lemma sub_between (x y : float) (a b a' b' : Z) :
  between a b x -> between a' b' y -> 0 <= a' -> b' <= a -> b < 9007199254740992 ->
  between (a - b') (b - a') (x - y)%float.
Proof.
  intros [Ox [L U]] [Oy [L' U']] Ha' Ha Hb.
  assert (V : (F2R y <= F2R x)%R) by (apply IZR_le in Ha; lra).
  apply (rounds_between (F2R x - F2R y)); [apply sub_rounds; assumption|lia|lia|].
  rewrite !minus_IZR. split; lra.
Qed.

Lemma between_weaken (a b a' b' : Z) (x : float) :
  between a b x -> a' <= a -> b <= b' -> between a' b' x.
Proof.
  intros [O [L U]] Ha Hb. apply IZR_le in Ha, Hb. split; [exact O|lra].
Qed.

Lemma draw_between (r : float) :
  PrimFloat.leb 0%float r = true -> PrimFloat.ltb r 1%float = true -> between 0 1 r.
Proof.
  intros H0 H1. destruct (unit_draw r H0 H1) as [O [L U]].
  pose proof (pow2_pos (-53)). split; [exact O|lra].
Qed.

Lemma floor_between (x : float) (b : Z) :
  between 0 b x -> between 0 b (Binary64.floor x).
Proof.
  intros [O [L U]]. destruct (floor_bounds x O) as [Of [Lf Uf]].
  split; [exact Of|lra].
Qed.

(** *** Floats of either sign *)

Lemma round_aux_opp (m e : Z) (l : location) :
  binary_round_aux prec emax true m e l = SFopp (binary_round_aux prec emax false m e l).
Proof.
  unfold binary_round_aux.
  destruct (shr_fexp prec emax m e l) as [mrs' e'].
  destruct (shr_fexp prec emax _ e' loc_Exact) as [mrs'' e''].
  destruct (shr_m mrs''); [reflexivity| |reflexivity].
  destruct (e'' <=? emax - prec); reflexivity.
Qed.

Lemma normalize_opp (p : positive) (e : Z) :
  binary_normalize prec emax (Z.neg p) e false
  = SFopp (binary_normalize prec emax (Z.pos p) e false).
Proof.
  cbn [binary_normalize]. unfold binary_round.
  destruct (shl_align p e (fexp prec emax (Z.pos (digits2_pos p) + e))) as [mz ez].
  apply round_aux_opp.
Qed.

Lemma SF2R_opp (x : spec_float) : SF2R (SFopp x) = (- SF2R x)%R.
Proof. destruct x as [s|s| |[|] m e]; cbn [SFopp SF2R negb]; lra. Qed.

Lemma regular_opp (x : spec_float) : sf_regular (SFopp x) = sf_regular x.
Proof. destruct x as [s|s| |s m e]; reflexivity. Qed.

Lemma ordinary_regular (x : spec_float) : sf_ordinary x = true -> sf_regular x = true.
Proof.
  destruct x as [s|s| |[|] m e]; cbn [sf_ordinary sf_regular]; try discriminate; auto.
Qed.

(** A rounded non-negative quantity between two integers stays between
    them. *)
Lemma rounds_enclosed (v : R) (r : spec_float) (lo hi : Z) :
  rounds_to v r -> hi < 9007199254740992 -> (IZR lo <= v <= IZR hi)%R -> (0 <= v)%R ->
  sf_ordinary r = true /\ (IZR lo <= SF2R r <= IZR hi)%R.
Proof.
  intros H Hhi [L U] Hv.
  assert (H0 : 0 <= hi) by (apply le_IZR; lra).
  destruct (of_Z_exact hi ltac:(change (2 ^ 53) with 9007199254740992; lia)) as [Oh Fh].
  unfold F2R, ordinary in Fh, Oh.
  destruct (H (Prim2SF (Binary64.of_Z hi)) (Prim2SF_valid _) Oh ltac:(lra))
    as (Or & Le & Lo & _).
  split; [exact Or|]. split; [|lra].
  destruct (Z.le_gt_cases 0 lo) as [P|P].
  - assert (lo <= hi) by (apply le_IZR; lra).
    destruct (of_Z_exact lo ltac:(change (2 ^ 53) with 9007199254740992; lia)) as [Ol Fl].
    unfold F2R, ordinary in Fl, Ol.
    specialize (Lo (Prim2SF (Binary64.of_Z lo)) (Prim2SF_valid _) Ol ltac:(lra)). lra.
  - pose proof (ordinary_nonneg r Or). apply IZR_lt in P. lra.
Qed.

(** The same for a quantity of either sign, as [binary_normalize] rounds
    it. *)
Lemma normalize_enclosed (z e lo hi : Z) :
  -9007199254740992 < lo -> hi < 9007199254740992 ->
  (IZR lo <= IZR z * pow2 e <= IZR hi)%R ->
  sf_regular (binary_normalize prec emax z e false) = true /\
  (IZR lo <= SF2R (binary_normalize prec emax z e false) <= IZR hi)%R.
Proof.
  intros Hlo Hhi [L U]. pose proof (pow2_pos e) as P.
  destruct z as [|p|p].
  - cbn [binary_normalize sf_regular SF2R]. rewrite Rmult_0_l in L, U. split; [reflexivity|lra].
  - assert (V : (0 <= IZR (Z.pos p) * pow2 e)%R).
    { apply Rmult_le_pos; [apply IZR_le; lia|lra]. }
    destruct (rounds_enclosed _ _ lo hi (normalize_rounds (Z.pos p) e ltac:(lia)) Hhi
                (conj L U) V) as [O B].
    split; [apply ordinary_regular; exact O|exact B].
  - rewrite normalize_opp, regular_opp, SF2R_opp.
    assert (E : (IZR (Z.neg p) * pow2 e = - (IZR (Z.pos p) * pow2 e))%R).
    { change (Z.neg p) with (- Z.pos p). rewrite opp_IZR. ring. }
    rewrite E in L, U.
    assert (V : (0 <= IZR (Z.pos p) * pow2 e)%R).
    { apply Rmult_le_pos; [apply IZR_le; lia|lra]. }
    destruct (rounds_enclosed _ _ (- hi) (- lo) (normalize_rounds (Z.pos p) e ltac:(lia))
                ltac:(lia) ltac:(rewrite !opp_IZR; lra) V) as [O B].
    rewrite !opp_IZR in B.
    split; [apply ordinary_regular; exact O|lra].
Qed.

Lemma signed_value (s : bool) (m : positive) (e ez : Z) :
  ez <= e ->
  (IZR (cond_Zopp s (Z.pos (fst (shl_align m e ez)))) * pow2 ez
   = SF2R (S754_finite s m e))%R.
Proof.
  intros H. rewrite shl_align_fst by exact H.
  pose proof (rescale (Z.pos m) e ez H) as Rs.
  destruct s; cbn [SF2R cond_Zopp]; rewrite ?opp_IZR; lra.
Qed.

Lemma regular_cases (x : spec_float) :
  sf_regular x = true ->
  (exists s, x = S754_zero s) \/ (exists s m e, x = S754_finite s m e).
Proof.
  destruct x as [s|s| |s m e]; try discriminate; intros _;
    [left; exists s; reflexivity | right; exists s, m, e; reflexivity].
Qed.

Lemma add_enclosed (x y : float) (a b a' b' : Z) :
  enclosed a b x -> enclosed a' b' y ->
  -9007199254740992 < a + a' -> b + b' < 9007199254740992 ->
  enclosed (a + a') (b + b') (x + y)%float.
Proof.
  unfold enclosed, F2R. intros [Rx [Lx Ux]] [Ry [Ly Uy]] Hlo Hhi.
  rewrite add_spec. unfold SF64add. rewrite !plus_IZR.
  destruct (regular_cases _ Rx) as [[s Ex]|(s & m & e & Ex)];
    destruct (regular_cases _ Ry) as [[s' Ey]|(s' & m' & e' & Ey)];
    rewrite Ex, Ey in *; cbn [SFadd]; cbn [SF2R] in Lx, Ux, Ly, Uy.
  - split; [destruct s, s'; reflexivity|]. destruct s, s'; cbn [SF2R]; lra.
  - split; [exact Ry|]. cbn [SF2R]. lra.
  - split; [exact Rx|]. cbn [SF2R]. lra.
  - set (ez := Z.min e e').
    rewrite <- !plus_IZR. apply normalize_enclosed; [exact Hlo|exact Hhi|].
    rewrite (plus_IZR (cond_Zopp _ _)), Rmult_plus_distr_r.
    rewrite !signed_value by (unfold ez; lia). cbn [SF2R]. rewrite !plus_IZR. lra.
Qed.

Lemma sub_enclosed (x y : float) (a b a' b' : Z) :
  enclosed a b x -> enclosed a' b' y ->
  -9007199254740992 < a - b' -> b - a' < 9007199254740992 ->
  enclosed (a - b') (b - a') (x - y)%float.
Proof.
  unfold enclosed, F2R. intros [Rx [Lx Ux]] [Ry [Ly Uy]] Hlo Hhi.
  rewrite sub_spec. unfold SF64sub. rewrite !minus_IZR.
  destruct (regular_cases _ Rx) as [[s Ex]|(s & m & e & Ex)];
    destruct (regular_cases _ Ry) as [[s' Ey]|(s' & m' & e' & Ey)];
    rewrite Ex, Ey in *; cbn [SFsub]; cbn [SF2R] in Lx, Ux, Ly, Uy.
  - split; [destruct s, s'; reflexivity|]. destruct s, s'; cbn [SF2R]; lra.
  - split; [exact Ry|]. cbn [SF2R negb]. destruct s'; cbn [negb]; lra.
  - split; [exact Rx|]. cbn [SF2R]. lra.
  - set (ez := Z.min e e').
    rewrite <- !minus_IZR. apply normalize_enclosed; [exact Hlo|exact Hhi|].
    rewrite (minus_IZR (cond_Zopp _ _)), Rmult_minus_distr_r.
    rewrite !signed_value by (unfold ez; lia). cbn [SF2R]. rewrite !minus_IZR. lra.
Qed.

Lemma between_enclosed (a b : Z) (x : float) : between a b x -> enclosed a b x.
Proof. intros [O B]. split; [apply ordinary_regular; exact O|exact B]. Qed.

(** An integer of magnitude below 2^53 is a float, exactly. *)
Lemma int_enclosed (c : Z) :
  -9007199254740992 < c < 9007199254740992 -> enclosed c c (Binary64.of_Z c).
Proof.
  intros H. destruct c as [|p|p].
  - split; [reflexivity|]. unfold F2R. cbn. lra.
  - apply between_enclosed. apply int_between; [reflexivity|lia].
  - destruct (of_Z_exact (Z.pos p) ltac:(change (2 ^ 53) with 9007199254740992; lia))
      as [O F].
    unfold enclosed, F2R, ordinary in *. cbn [Binary64.of_Z] in *.
    rewrite opp_spec, regular_opp, SF2R_opp, F.
    split; [apply ordinary_regular; exact O|].
    change (Z.neg p) with (- Z.pos p). rewrite opp_IZR. lra.
Qed.

(** [new Date(t)] on a regular time value between two integers within the
    range of dates: a valid date between the same integers. *)
Lemma time_clip_enclosed (t : float) (a b : Z) :
  enclosed a b t -> -8640000000000000 <= a -> b <= 8640000000000000 ->
  exists z, Binary64.time_clip t = Some z /\ a <= z <= b.
Proof.
  intros [Rt [L U]] Ha Hb.
  destruct (Prim2SF t) as [s|s| |[|] m e] eqn:Et; try discriminate.
  - (* a zero *)
    assert (O : ordinary t = true) by (unfold ordinary; rewrite Et; reflexivity).
    destruct (time_clip_ordinary t O) as (z & Ez & Lz & Uz).
    { apply IZR_le in Hb. lra. }
    exists z. split; [exact Ez|]. split.
    + apply Z.lt_succ_r. apply lt_IZR. rewrite succ_IZR. lra.
    + apply le_IZR. lra.
  - (* below zero *)
    set (u := (- t)%float).
    assert (Eu : Prim2SF u = S754_finite false m e).
    { unfold u. rewrite opp_spec, Et. reflexivity. }
    assert (O : ordinary u = true).
    { unfold ordinary. rewrite Eu. exact Rt. }
    assert (Fu : F2R u = (- F2R t)%R).
    { unfold F2R. rewrite Eu, Et. cbn [SF2R]. ring. }
    destruct (time_clip_ordinary u O) as (z & Ez & Lz & Uz).
    { apply IZR_le in Ha. rewrite Fu. lra. }
    exists (- z). split.
    + revert Ez. unfold Binary64.time_clip.
      rewrite !is_finite_spec, Eu, Et. cbn [sf_finite negb].
      assert (A : PrimFloat.abs t = PrimFloat.abs u).
      { apply Prim2SF_inj. rewrite !abs_spec, Eu, Et. reflexivity. }
      rewrite A. destruct (PrimFloat.ltb _ _); [discriminate|].
      cbn [Binary64.truncZ]. intros Ez. injection Ez as <-. reflexivity.
    + rewrite Fu in Lz, Uz. split.
      * apply Z.opp_le_mono. rewrite Z.opp_involutive. apply le_IZR. rewrite opp_IZR. lra.
      * apply Z.opp_le_mono. rewrite Z.opp_involutive.
        apply Z.lt_succ_r. apply lt_IZR. rewrite succ_IZR, opp_IZR. lra.
  - (* above zero *)
    assert (O : ordinary t = true) by (unfold ordinary; rewrite Et; exact Rt).
    destruct (time_clip_ordinary t O) as (z & Ez & Lz & Uz).
    { apply IZR_le in Hb. lra. }
    exists z. split; [exact Ez|]. split.
    + apply Z.lt_succ_r. apply lt_IZR. rewrite succ_IZR. lra.
    + apply le_IZR. lra.
Qed.

End Rounding.

(** ** Facts about the trade generator on binary64 *)

Ltac float_ops :=
  cbn [n_add n_sub n_mul n_div n_neg n_eq n_lt n_of_Z Math_abs Math_sqrt
       Math_floor Math_min Math_max float_number dflt];
  repeat match goal with
         | |- context [@lit float float_number ?q] =>
             let v := eval vm_compute in (@lit float float_number q) in
             change (@lit float float_number q) with v
         end.

Section GeneratorFacts.

Import Binary64Facts Rounding.

Section FloatGenerator.

Local Open Scope Z_scope.

Variable random_source : nat -> float.
Variable clock : nat -> Z.
Hypothesis random_unit : unit_source random_source.
Hypothesis clock_fine : clock_in_era clock.

(** The notional of a generated trade, as a real number. *)
Lemma trade_at_notional_value (i : nat) :
  let n := notionalUSD (trade_at random_source clock i) in
  ordinary n = true /\ (50000 <= F2R n < 2050000)%R.
Proof.
  cbv zeta. unfold trade_at; cbn [notionalUSD]. float_ops.
  destruct (random_unit (4 * i)%nat) as [R0 R1].
  set (r := random_source (4 * i)) in *.
  destruct (unit_draw r R0 R1) as [Or [Lr Ur]].
  pose proof (int_between 2000000%float 2000000 eq_refl ltac:(lia)) as [Oc [Lc Uc]].
  assert (Fc : F2R 2000000%float = 2000000%R) by lra.
  pose proof (mul_rounds r 2000000%float Or Oc) as My.
  set (y := (r * 2000000)%float) in *. rewrite Fc in My.
  pose proof (pow2_pos (-53)) as P53.
  assert (E33 : (pow2 (-33) = 1048576 * pow2 (-53))%R).
  { replace (-33) with (20 + -53) by lia. rewrite pow2_add, <- pow2_IZR by lia. reflexivity. }
  assert (E32 : (pow2 (-32) = 2 * pow2 (-33))%R) by (rewrite (pow2_half (-32)); reflexivity).
  assert (P21 : pow2 21 = 2097152%R) by (rewrite <- pow2_IZR by lia; reflexivity).
  (* the product stays below 2,000,000 *)
  destruct (My (Prim2SF 2000000%float) (Prim2SF_valid _) Oc ltac:(fold (F2R 2000000%float); nra))
    as (Oy & Uy & Ly & Ey).
  fold (F2R y) in Uy, Ey. fold (F2R 2000000%float) in Uy.
  specialize (Ey 21 ltac:(lia) ltac:(nra)).
  replace (21 - 54) with (-33) in Ey by lia.
  assert (Vy : (F2R y < 2000000)%R).
  { pose proof (Rle_abs (F2R y - F2R r * 2000000)). nra. }
  assert (Ny : (0 <= F2R y)%R) by (apply ordinary_nonneg; exact Oy).
  assert (Gy : (F2R y <= 2000000 - pow2 (-32))%R).
  { pose proof (below_grid (Prim2SF y) 8589934592000000 (-32)
                  (Prim2SF_valid y) Oy eq_refl ltac:(now vm_compute)) as G.
    assert (C : (IZR 8589934592000000 * pow2 (-32) = 2000000)%R).
    { change 8589934592000000 with (2000000 * 2 ^ 32). rewrite mult_IZR, pow2_IZR by lia.
      rewrite Rmult_assoc, <- pow2_add. change (pow2 (32 + -32)) with 1%R. lra. }
    fold (F2R y) in G. rewrite C in G. specialize (G Vy).
    rewrite minus_IZR, Rmult_minus_distr_r, C in G. lra. }
  (* adding 50,000 *)
  pose proof (int_between 50000%float 50000 eq_refl ltac:(lia)) as [Ok [Lk Uk]].
  pose proof (int_between 2050000%float 2050000 eq_refl ltac:(lia)) as [Oh [Lh Uh]].
  pose proof (add_rounds 50000%float y Ok Oy) as Mn.
  set (n := (50000 + y)%float) in *.
  destruct (Mn (Prim2SF 2050000%float) (Prim2SF_valid _) Oh
               ltac:(fold (F2R 2050000%float); lra)) as (On & Un & Ln & En).
  fold (F2R n) in Un, En.
  specialize (Ln (Prim2SF 50000%float) (Prim2SF_valid _) Ok ltac:(fold (F2R 50000%float); lra)).
  fold (F2R n) in Ln. fold (F2R 50000%float) in Ln.
  specialize (En 21 ltac:(lia) ltac:(lra)).
  replace (21 - 54) with (-33) in En by lia.
  pose proof (Rle_abs (F2R n - (F2R 50000%float + F2R y))) as An.
  split; [exact On|]. pose proof (pow2_pos (-33)). lra.
Qed.

Lemma trade_at_notional_binary64 (i : nat) :
  let n := notionalUSD (trade_at random_source clock i) in
  PrimFloat.leb 50000%float n && PrimFloat.ltb n 2050000%float = true.
Proof.
  cbv zeta. destruct (trade_at_notional_value i) as [On [Ln Un]].
  pose proof (int_between 50000%float 50000 eq_refl ltac:(lia)) as [Ok [Lk Uk]].
  pose proof (int_between 2050000%float 2050000 eq_refl ltac:(lia)) as [Oh [Lh Uh]].
  apply andb_true_intro. split.
  - apply leb_R; [exact Ok|exact On|lra].
  - apply ltb_R; [exact On|exact Oh|lra].
Qed.

(** The dates of a generated trade: the trade date is a valid date at most
    90 days before the first clock reading, and the maturity date a valid
    date 30 to 395 days after the second one. *)
Lemma trade_at_dates_binary64 (i : nat) :
  exists d m : Z,
    tradeDate (trade_at random_source clock i) = Some d /\
    maturityDate (trade_at random_source clock i) = Some m /\
    clock (2 * i)%nat - 90 * 86400000 <= d <= clock (2 * i)%nat /\
    clock (2 * i + 1)%nat + 30 * 86400000 <= m <= clock (2 * i + 1)%nat + 395 * 86400000.
Proof.
  destruct clock_fine as [Mono Range].
  unfold trade_at, new_Date; cbn [maturityDate tradeDate]. float_ops.
  cbn [TimeClip float_number].
  destruct (random_unit (4 * i + 3)%nat) as [A0 A1].
  destruct (random_unit (4 * i + 2)%nat) as [B0 B1].
  pose proof (Mono (2 * i)%nat (2 * i + 1)%nat ltac:(lia)) as C12.
  pose proof (Range (2 * i)%nat) as [L1 U1]. pose proof (Range (2 * i + 1)%nat) as [L2 U2].
  change (90 * 86400000) with 7776000000 in L1, L2.
  change (8640000000000000 - 395 * 86400000) with 8639965872000000 in U1, U2.
  set (c1 := clock (2 * i)%nat) in *. set (c2 := clock (2 * i + 1)%nat) in *.
  pose proof (draw_between _ A0 A1) as D4. pose proof (draw_between _ B0 B1) as D3.
  set (r4 := random_source (4 * i + 3)) in *. set (r3 := random_source (4 * i + 2)) in *.
  assert (K : forall c, 0 <= c < 9007199254740992 -> forall k, k = Binary64.of_Z c -> between c c k).
  { intros c Hc k E. apply int_between; [exact E|exact Hc]. }
  (* the trade date *)
  pose proof (mul_between _ _ _ _ _ _ D4 (K 90 ltac:(lia) 90%float eq_refl)
                ltac:(lia) ltac:(lia) ltac:(now vm_compute)) as T1.
  pose proof (mul_between _ _ _ _ _ _ T1 (K 24 ltac:(lia) 24%float eq_refl)
                ltac:(lia) ltac:(lia) ltac:(now vm_compute)) as T2.
  pose proof (mul_between _ _ _ _ _ _ T2 (K 60 ltac:(lia) 60%float eq_refl)
                ltac:(lia) ltac:(lia) ltac:(now vm_compute)) as T3.
  pose proof (mul_between _ _ _ _ _ _ T3 (K 60 ltac:(lia) 60%float eq_refl)
                ltac:(lia) ltac:(lia) ltac:(now vm_compute)) as T4.
  pose proof (mul_between _ _ _ _ _ _ T4 (K 1000 ltac:(lia) 1000%float eq_refl)
                ltac:(lia) ltac:(lia) ltac:(now vm_compute)) as T5.
  pose proof (between_weaken _ _ 0 7776000000 _ T5
                ltac:(now vm_compute) ltac:(now vm_compute)) as T6.
  pose proof (sub_between _ _ _ _ _ _ (K c1 ltac:(lia) _ eq_refl) T6
                ltac:(lia) ltac:(lia) ltac:(lia)) as [Ot [Lt Ut]].
  destruct (time_clip_ordinary _ Ot) as (zt & Et & Zt1 & Zt2).
  { apply IZR_le in U1. rewrite minus_IZR in Ut. lra. }
  (* the maturity date *)
  pose proof (mul_between _ _ _ _ _ _ D3 (K 365 ltac:(lia) 365%float eq_refl)
                ltac:(lia) ltac:(lia) ltac:(now vm_compute)) as M0.
  pose proof (floor_between _ _ M0) as M1.
  pose proof (add_between _ _ _ _ _ _ M1 (K 30 ltac:(lia) 30%float eq_refl)
                ltac:(lia) ltac:(lia) ltac:(now vm_compute)) as M2.
  pose proof (mul_between _ _ _ _ _ _ M2 (K 24 ltac:(lia) 24%float eq_refl)
                ltac:(lia) ltac:(lia) ltac:(now vm_compute)) as M3.
  pose proof (mul_between _ _ _ _ _ _ M3 (K 60 ltac:(lia) 60%float eq_refl)
                ltac:(lia) ltac:(lia) ltac:(now vm_compute)) as M4.
  pose proof (mul_between _ _ _ _ _ _ M4 (K 60 ltac:(lia) 60%float eq_refl)
                ltac:(lia) ltac:(lia) ltac:(now vm_compute)) as M5.
  pose proof (mul_between _ _ _ _ _ _ M5 (K 1000 ltac:(lia) 1000%float eq_refl)
                ltac:(lia) ltac:(lia) ltac:(now vm_compute)) as M6.
  pose proof (between_weaken _ _ 2592000000 34128000000 _ M6
                ltac:(now vm_compute) ltac:(now vm_compute)) as M7.
  pose proof (add_between _ _ _ _ _ _ (K c2 ltac:(lia) _ eq_refl) M7
                ltac:(lia) ltac:(lia) ltac:(lia)) as [Om [Lm Um]].
  destruct (time_clip_ordinary _ Om) as (zm & Em & Zm1 & Zm2).
  { apply IZR_le in U2. rewrite plus_IZR in Um. lra. }
  exists zt, zm. rewrite Et, Em.
  change (90 * 86400000) with 7776000000.
  change (30 * 86400000) with 2592000000. change (395 * 86400000) with 34128000000.
  rewrite !minus_IZR in Lt, Ut. rewrite !plus_IZR in Lm, Um.
  repeat split; try reflexivity.
  - apply Z.lt_succ_r. apply lt_IZR. rewrite succ_IZR, minus_IZR. lra.
  - apply le_IZR. lra.
  - apply Z.lt_succ_r. apply lt_IZR. rewrite succ_IZR, plus_IZR. lra.
  - apply le_IZR. rewrite plus_IZR. lra.
Qed.

End FloatGenerator.

Section FloatGeneratorDates.

Local Open Scope Z_scope.

Variable random_source : nat -> float.
Variable clock : nat -> Z.
Hypothesis random_unit : unit_source random_source.
Hypothesis clock_range :
  forall k, -8640000000000000 + 90 * 86400000 <= clock k
            <= 8640000000000000 - 395 * 86400000.

(** The offset of the trade date: at most 90 days, in milliseconds. *)
Lemma trade_offset_between (r : float) :
  PrimFloat.leb 0%float r = true -> PrimFloat.ltb r 1%float = true ->
  between 0 7776000000 (r * 90 * 24 * 60 * 60 * 1000)%float.
Proof.
  intros R0 R1. pose proof (draw_between _ R0 R1) as D.
  assert (K : forall c, 0 <= c < 9007199254740992 ->
                forall k, k = Binary64.of_Z c -> between c c k).
  { intros c Hc k E. apply int_between; [exact E|exact Hc]. }
  pose proof (mul_between _ _ _ _ _ _ D (K 90 ltac:(lia) 90%float eq_refl)
                ltac:(lia) ltac:(lia) ltac:(now vm_compute)) as T1.
  pose proof (mul_between _ _ _ _ _ _ T1 (K 24 ltac:(lia) 24%float eq_refl)
                ltac:(lia) ltac:(lia) ltac:(now vm_compute)) as T2.
  pose proof (mul_between _ _ _ _ _ _ T2 (K 60 ltac:(lia) 60%float eq_refl)
                ltac:(lia) ltac:(lia) ltac:(now vm_compute)) as T3.
  pose proof (mul_between _ _ _ _ _ _ T3 (K 60 ltac:(lia) 60%float eq_refl)
                ltac:(lia) ltac:(lia) ltac:(now vm_compute)) as T4.
  pose proof (mul_between _ _ _ _ _ _ T4 (K 1000 ltac:(lia) 1000%float eq_refl)
                ltac:(lia) ltac:(lia) ltac:(now vm_compute)) as T5.
  exact (between_weaken _ _ 0 7776000000 _ T5 ltac:(now vm_compute) ltac:(now vm_compute)).
Qed.

(** The offset of the maturity date: 30 to 395 days, in milliseconds. *)
Lemma maturity_offset_between (r : float) :
  PrimFloat.leb 0%float r = true -> PrimFloat.ltb r 1%float = true ->
  between 2592000000 34128000000
    ((Binary64.floor (r * 365) + 30) * 24 * 60 * 60 * 1000)%float.
Proof.
  intros R0 R1. pose proof (draw_between _ R0 R1) as D.
  assert (K : forall c, 0 <= c < 9007199254740992 ->
                forall k, k = Binary64.of_Z c -> between c c k).
  { intros c Hc k E. apply int_between; [exact E|exact Hc]. }
  pose proof (mul_between _ _ _ _ _ _ D (K 365 ltac:(lia) 365%float eq_refl)
                ltac:(lia) ltac:(lia) ltac:(now vm_compute)) as M0.
  pose proof (floor_between _ _ M0) as M1.
  pose proof (add_between _ _ _ _ _ _ M1 (K 30 ltac:(lia) 30%float eq_refl)
                ltac:(lia) ltac:(lia) ltac:(now vm_compute)) as M2.
  pose proof (mul_between _ _ _ _ _ _ M2 (K 24 ltac:(lia) 24%float eq_refl)
                ltac:(lia) ltac:(lia) ltac:(now vm_compute)) as M3.
  pose proof (mul_between _ _ _ _ _ _ M3 (K 60 ltac:(lia) 60%float eq_refl)
                ltac:(lia) ltac:(lia) ltac:(now vm_compute)) as M4.
  pose proof (mul_between _ _ _ _ _ _ M4 (K 60 ltac:(lia) 60%float eq_refl)
                ltac:(lia) ltac:(lia) ltac:(now vm_compute)) as M5.
  pose proof (mul_between _ _ _ _ _ _ M5 (K 1000 ltac:(lia) 1000%float eq_refl)
                ltac:(lia) ltac:(lia) ltac:(now vm_compute)) as M6.
  exact (between_weaken _ _ 2592000000 34128000000 _ M6
           ltac:(now vm_compute) ltac:(now vm_compute)).
Qed.

(** The dates of a generated trade, for a clock on either side of the
    epoch: the trade date is a valid date at most 90 days before the first
    clock reading, and the maturity date a valid date 30 to 395 days after
    the second one. *)
Lemma trade_at_dates_any_era (i : nat) :
  exists d m : Z,
    tradeDate (trade_at random_source clock i) = Some d /\
    maturityDate (trade_at random_source clock i) = Some m /\
    clock (2 * i)%nat - 90 * 86400000 <= d <= clock (2 * i)%nat /\
    clock (2 * i + 1)%nat + 30 * 86400000 <= m <= clock (2 * i + 1)%nat + 395 * 86400000.
Proof.
  pose proof clock_range as Range.
  unfold trade_at, new_Date; cbn [maturityDate tradeDate]. float_ops.
  cbn [TimeClip float_number].
  destruct (random_unit (4 * i + 3)%nat) as [A0 A1].
  destruct (random_unit (4 * i + 2)%nat) as [B0 B1].
  pose proof (Range (2 * i)%nat) as [L1 U1]. pose proof (Range (2 * i + 1)%nat) as [L2 U2].
  change (-8640000000000000 + 90 * 86400000) with (-8639992224000000) in L1, L2.
  change (8640000000000000 - 395 * 86400000) with 8639965872000000 in U1, U2.
  change (90 * 86400000) with 7776000000.
  change (30 * 86400000) with 2592000000. change (395 * 86400000) with 34128000000.
  set (c1 := clock (2 * i)%nat) in *. set (c2 := clock (2 * i + 1)%nat) in *.
  pose proof (trade_offset_between _ A0 A1) as T. pose proof (maturity_offset_between _ B0 B1) as M.
  pose proof (sub_enclosed _ _ _ _ _ _ (int_enclosed c1 ltac:(lia)) (between_enclosed _ _ _ T)
                ltac:(lia) ltac:(lia)) as Et.
  pose proof (add_enclosed _ _ _ _ _ _ (int_enclosed c2 ltac:(lia)) (between_enclosed _ _ _ M)
                ltac:(lia) ltac:(lia)) as Em.
  destruct (time_clip_enclosed _ _ _ Et ltac:(lia) ltac:(lia)) as (zt & Zt & Bt).
  destruct (time_clip_enclosed _ _ _ Em ltac:(lia) ltac:(lia)) as (zm & Zm & Bm).
  exists zt, zm. rewrite Zt, Zm. repeat split; try reflexivity; lia.
Qed.

End FloatGeneratorDates.

(** The sum of the notionals of the trades generated at the counters
    [a .. a + n - 1], accumulated from [acc] as [calculateRiskMetrics] does. *)
Lemma exposure_between (random_source : nat -> float) (clock : nat -> Z) :
  unit_source random_source ->
  forall (n a : nat) (lo hi : Z) (acc : float),
    between lo hi acc -> (0 <= lo)%Z ->
    (hi + 2050000 * Z.of_nat n < 9007199254740992)%Z ->
    between (lo + 50000 * Z.of_nat n) (hi + 2050000 * Z.of_nat n)
      (fold_left (fun sum trade => (sum + notionalUSD trade)%num)
         (map (trade_at random_source clock) (seq a n)) acc).
Proof.
  intros Hr. induction n as [|n IH]; intros a lo hi acc B Hlo Hhi; cbn [seq map fold_left].
  - replace (lo + 50000 * Z.of_nat 0)%Z with lo by lia.
    replace (hi + 2050000 * Z.of_nat 0)%Z with hi by lia. exact B.
  - destruct (trade_at_notional_value random_source clock Hr a) as [On [Ln Un]].
    assert (Bn : between 50000 2050000 (notionalUSD (trade_at random_source clock a))).
    { split; [exact On|lra]. }
    pose proof (add_between _ _ _ _ _ _ B Bn Hlo ltac:(lia) ltac:(lia)) as B'.
    specialize (IH (S a) (lo + 50000)%Z (hi + 2050000)%Z _ B' ltac:(lia) ltac:(lia)).
    replace (lo + 50000 * Z.of_nat (S n))%Z with (lo + 50000 + 50000 * Z.of_nat n)%Z by lia.
    replace (hi + 2050000 * Z.of_nat (S n))%Z with (hi + 2050000 + 2050000 * Z.of_nat n)%Z by lia.
    exact IH.
Qed.

End GeneratorFacts.

(** ** Facts about NaN *)

Section NaNFacts.

Import Binary64Facts.

Local Open Scope Z_scope.

(** Rounding a non-negative mantissa never gives NaN. *)
Lemma round_not_nan (s : bool) (m e : Z) (l : location) :
  0 <= m -> binary_round_aux prec emax s m e l <> S754_nan.
Proof.
  intros Hm. unfold binary_round_aux.
  pose proof (shr_fexp_bounds m e l Hm) as (M1 & _ & _).
  destruct (shr_fexp prec emax m e l) as [mrs' e']. cbn [fst] in M1.
  set (m1 := round_nearest_even (shr_m mrs') (loc_of_shr_record mrs')).
  pose proof (round_nearest_even_bounds (shr_m mrs') (loc_of_shr_record mrs') M1) as R.
  fold m1 in R.
  pose proof (shr_fexp_bounds m1 e' loc_Exact (proj1 R)) as (M2 & _ & _).
  destruct (shr_fexp prec emax m1 e' loc_Exact) as [mrs'' e'']. cbn [fst] in M2.
  destruct (shr_m mrs''); [discriminate| |lia].
  destruct (e'' <=? emax - prec); discriminate.
Qed.

Lemma mul_into_not_nan (x y : float) :
  sf_finite_nonzero (Prim2SF x) = true -> is_nan y = false -> is_nan (x * y) = false.
Proof.
  rewrite !is_nan_spec, mul_spec. unfold SF64mul, SFmul.
  destruct (Prim2SF x) as [sx|sx| |sx mx ex], (Prim2SF y) as [sy|sy| |sy my ey];
    try discriminate; try reflexivity. intros _ _.
  pose proof (round_not_nan (xorb sx sy) (Z.pos (mx * my)) (ex + ey) loc_Exact ltac:(lia)) as N.
  destruct (binary_round_aux prec emax (xorb sx sy) (Z.pos (mx * my)) (ex + ey) loc_Exact);
    congruence.
Qed.

Lemma mul_finite_not_nan (x y : float) :
  is_finite x = true -> is_finite y = true -> is_nan (x * y) = false.
Proof.
  rewrite !is_finite_spec, is_nan_spec, mul_spec. unfold SF64mul, SFmul.
  destruct (Prim2SF x) as [sx|sx| |sx mx ex], (Prim2SF y) as [sy|sy| |sy my ey];
    try discriminate; try reflexivity. intros _ _.
  pose proof (round_not_nan (xorb sx sy) (Z.pos (mx * my)) (ex + ey) loc_Exact ltac:(lia)) as N.
  destruct (binary_round_aux prec emax (xorb sx sy) (Z.pos (mx * my)) (ex + ey) loc_Exact);
    congruence.
Qed.

Local Close Scope Z_scope.

Lemma mul_nan_l (x : float) : (PrimFloat.nan * x)%float = PrimFloat.nan.
Proof.
  apply nan_intro. rewrite mul_spec. change (Prim2SF PrimFloat.nan) with S754_nan.
  reflexivity.
Qed.

(** The square root of a float below zero is NaN. *)
Lemma sqrt_negative (q : float) :
  PrimFloat.ltb q 0%float = true -> PrimFloat.sqrt q = PrimFloat.nan.
Proof.
  rewrite ltb_spec. change (Prim2SF 0%float) with (S754_zero false).
  intros H. apply nan_intro. rewrite sqrt_spec. unfold SF64sqrt, SFsqrt.
  destruct (Prim2SF q) as [[|]|[|]| |[|] m e]; try discriminate; reflexivity.
Qed.

(** A product with a finite factor that is not zero is NaN only when the
    other factor is. *)
Lemma mul_by_not_nan (x z : float) :
  PrimFloat.is_nan x = false -> sf_finite_nonzero (Prim2SF z) = true ->
  PrimFloat.is_nan (x * z)%float = false.
Proof.
  rewrite !is_nan_spec, mul_spec. unfold SF64mul, SFmul.
  destruct (Prim2SF x) as [sx|sx| |sx mx ex], (Prim2SF z) as [sy|sy| |sy my ey];
    try discriminate; try reflexivity. intros _ _.
  pose proof (round_not_nan (xorb sx sy) (Z.pos (mx * my)) (ex + ey) loc_Exact ltac:(lia)) as N.
  destruct (binary_round_aux prec emax (xorb sx sy) (Z.pos (mx * my)) (ex + ey) loc_Exact);
    congruence.
Qed.

Lemma zScore_finite_nonzero (c : float) : sf_finite_nonzero (Prim2SF (zScore c)) = true.
Proof. unfold zScore. float_ops. destruct (PrimFloat.eqb _ _); reflexivity. Qed.

(** The sign of the VaR of non-negative arguments. *)
Lemma var_sign (X V : float) (c T : option float) :
  PrimFloat.leb 0%float X = true ->
  PrimFloat.leb 0%float V = true ->
  PrimFloat.leb 0%float (dflt T 1%float) = true ->
  PrimFloat.is_nan (calculateVaR X V c T) = true \/
  PrimFloat.leb 0%float (calculateVaR X V c T) = true.
Proof.
  intros HX HV HT. apply nonneg_leb_zero.
  unfold calculateVaR. float_ops.
  repeat apply mul_nonneg.
  - apply leb_zero_nonneg, HX.
  - apply leb_zero_nonneg, HV.
  - apply sqrt_nonneg.
    apply (div_nonneg _ _ 8866461766385664 (-45)); [reflexivity|].
    apply leb_zero_nonneg. exact HT.
  - unfold zScore. float_ops. destruct (PrimFloat.eqb _ _); reflexivity.
Qed.

End NaNFacts.

(** ** The claims *)

Section Claims.

Import Binary64Facts.

(** *** C1: the empty portfolio *)

(** C1, as stated, fails: for the empty trade list and the dashboard's
    scenario, [totalExposureUSD] is 0, and the optimizer's [costPenalty] is
    not 0 but NaN ([|hedgeCost| / 0] with [hedgeCost = 0]), and the
    [optimalHedgeRatio] is NaN, which is not in [0, 1]. *)
Lemma empty_portfolio_ratio_not_clamped :
  let m := calculateRiskMetrics [] dashboard_scenario in
  totalExposureUSD m = 0%float /\
  PrimFloat.eqb (costPenalty (totalExposureUSD m) (hedgeCost m)) 0%float = false /\
  optimalHedgeRatio m = PrimFloat.nan /\
  in_unit_interval (optimalHedgeRatio m) = false.
Proof. vm_compute. repeat split. Qed.

(** C1, amended: for every scenario and the empty trade list,
    [totalExposureUSD] is 0, [hedgeCost] is a zero or NaN, the optimizer's
    [costPenalty] is NaN, and [optimalHedgeRatio] and [hedgedPnL] are NaN.
    The result is a value (no exception is raised), but there is no
    zero-exposure rule and no clamping of it into [0, 1]. *)
Theorem empty_portfolio_ratio_is_nan (scenario : RiskScenario float) :
  let m := calculateRiskMetrics [] scenario in
  totalExposureUSD m = 0%float /\
  costPenalty (totalExposureUSD m) (hedgeCost m) = PrimFloat.nan /\
  optimalHedgeRatio m = PrimFloat.nan /\
  hedgedPnL m = PrimFloat.nan.
Proof.
  cbv zeta.
  assert (E : costPenalty (totalExposureUSD (calculateRiskMetrics [] scenario))
                          (hedgeCost (calculateRiskMetrics [] scenario)) = PrimFloat.nan).
  { apply zero_exposure_penalty. }
  assert (R : optimalHedgeRatio (calculateRiskMetrics [] scenario) = PrimFloat.nan).
  { unfold calculateRiskMetrics, optimalHedgeRatio, calculateOptimalHedgeRatio.
    unfold calculateRiskMetrics, totalExposureUSD, hedgeCost in E. rewrite E.
    float_ops. rewrite add_nan_r, div_nan_r. reflexivity. }
  repeat split; [exact E | exact R |].
  unfold calculateRiskMetrics, hedgedPnL.
  unfold calculateRiskMetrics, optimalHedgeRatio in R. rewrite R.
  float_ops. rewrite !mul_nan_r, sub_nan_r. reflexivity.
Qed.

(** *** C2: the range of the optimal hedge ratio *)

(** C2, as stated, fails: on finite inputs the optimizer can return NaN,
    which is not in [0, 1].  It does so with a positive exposure when both
    the volatility and the hedge cost are 0 (0/0), and with a zero exposure
    and a zero hedge cost. *)
Lemma optimal_ratio_nan_on_finite_inputs :
  calculateOptimalHedgeRatio 1000000%float 0%float 0%float None = PrimFloat.nan /\
  in_unit_interval
    (calculateOptimalHedgeRatio 1000000%float 0%float 0%float None) = false /\
  calculateOptimalHedgeRatio 0%float 0.15%float 0%float (Some 0.5%float) = PrimFloat.nan /\
  in_unit_interval
    (calculateOptimalHedgeRatio 0%float 0.15%float 0%float (Some 0.5%float)) = false.
Proof. vm_compute. repeat split. Qed.

(** C2, amended: for all inputs, the result of [calculateOptimalHedgeRatio]
    is NaN or lies in [0, 1]. *)
Theorem optimal_ratio_nan_or_unit
  (totalExposure expectedVolatility hedgeCost : float) (riskAversion : option float) :
  let r :=
    calculateOptimalHedgeRatio totalExposure expectedVolatility hedgeCost riskAversion in
  PrimFloat.is_nan r = true \/ in_unit_interval r = true.
Proof.
  cbv zeta. unfold calculateOptimalHedgeRatio. float_ops. apply clamp_range.
Qed.

(** *** C3: the z-score of the VaR *)

(** C3, as stated, fails in its second half: with X = 3, V = 1 and T = 252
    the two VaRs are 4.9350000000000005 and 6.99, and their quotient is not
    the number [1.645 / 2.33]. *)
Lemma var_ratio_rounds :
  PrimFloat.eqb
    (calculateVaR 3 1 (Some 0.95) (Some 252) / calculateVaR 3 1 (Some 0.99) (Some 252))%float
    (1.645 / 2.33)%float = false.
Proof. vm_compute. reflexivity. Qed.

(** C3, amended: the z-score is exactly 1.645 when [confidenceLevel === 0.95]
    (also when it is omitted) and exactly 2.33 for every other value, so the
    two VaRs are the same number [X * (V * sqrt (T / 252))] times 1.645 and
    times 2.33; and in exact real arithmetic their quotient is 1.645 / 2.33
    for all X, V, T > 0.  (In binary64 each product and the quotient are
    rounded, and the quotient can differ from [1.645 / 2.33] in the last
    place.) *)
Theorem var_zscore_and_ratio :
  (forall (X V : float) (c T : option float),
     calculateVaR X V c T =
     (X * (V * PrimFloat.sqrt (dflt T 1 / 252))
      * (if dflt c 0.95 =? 0.95 then 1.645 else 2.33))%float) /\
  (forall X V T : R,
     (0 < X)%R -> (0 < V)%R -> (0 < T)%R ->
     (calculateVaR X V (Some 0.95) (Some T) / calculateVaR X V (Some 0.99) (Some T)
      = 1.645 / 2.33)%R).
Proof.
  split.
  - intros X V c T. unfold calculateVaR, zScore. float_ops. reflexivity.
  - intros X V T HX HV HT. unfold calculateVaR, zScore.
    cbn [n_mul n_div n_eq Math_sqrt real_number dflt]. rewrite !lit_real. cbn [Qnum Qden].
    unfold Exact.eqb.
    repeat match goal with
           | |- context [Req_dec_T ?a ?b] => destruct (Req_dec_T a b); try lra
           end.
    assert (S : (0 < sqrt (T / (252 / 1)))%R) by (apply sqrt_lt_R0; lra).
    field. repeat split; lra.
Qed.

Lemma var_zscore_and_ratio_witness :
  (calculateVaR 10000000 0.15 (Some 0.95) (Some 1)
   / calculateVaR 10000000 0.15 (Some 0.99) (Some 1) = 1.645 / 2.33)%R.
Proof. apply (proj2 var_zscore_and_ratio); lra. Defined.

(** *** C4: the fields of the risk metrics *)

(** C4: for every trade list and scenario, [calculateRiskMetrics] returns
    metrics whose [totalPnL] is its [unhedgedPnL], whose [hedgedPnL] is
    [unhedgedPnL * (1 - optimalHedgeRatio) - hedgeCost * optimalHedgeRatio],
    and whose [hedgeCost] is the hedge cost of the total exposure at hedge
    ratio 1 against the forward rate that the rate shock model gives for the
    time fraction 0.25. *)
Theorem risk_metrics_fields (trades : list (FXTrade float)) (scenario : RiskScenario float) :
  let m := calculateRiskMetrics trades scenario in
  let forwardRate :=
    calculateShockedFXRate
      (currentFXRate scenario) (interestRateShock scenario) (Some 0.25%float) in
  totalPnL m = unhedgedPnL m /\
  unhedgedPnL m =
    calculateUnhedgedPnL trades (currentFXRate scenario) (shockedFXRate scenario) /\
  hedgedPnL m =
    (unhedgedPnL m * (1 - optimalHedgeRatio m) - hedgeCost m * optimalHedgeRatio m)%float /\
  hedgeCost m =
    calculateHedgeCost (totalExposureUSD m) forwardRate (currentFXRate scenario)
      (Some 1%float) /\
  hedgeCost m =
    (totalExposureUSD m * 1
     * (currentFXRate scenario * (1 + interestRateShock scenario / 10000 * 0.25)
        - currentFXRate scenario))%float.
Proof. cbv zeta. repeat split. Qed.

(** *** C5: the sensitivity curve *)

(** C5, as stated, fails in binary64.  With the base rate 0.1, the default
    shock range and one long trade of 1,000,000, the middle entry has
    neither [fxRate == baseRate] nor [pnl == 0]; with the base rate 1e16 the
    rates of the first two entries do not increase. *)
Lemma sensitivity_curve_rounds :
  let origin := {| fxRate := 0; pnl := 0; hedgedPnl := 0 |}%float in
  let curve := generatePnLSensitivity [position 1000000%float long] 0.1%float None in
  let flat := generatePnLSensitivity [] 1e16%float (Some 0.5%float) in
  PrimFloat.eqb (fxRate (nth 25 curve origin)) 0.1%float = false /\
  PrimFloat.eqb (pnl (nth 25 curve origin)) 0%float = false /\
  PrimFloat.ltb (fxRate (nth 0 flat origin)) (fxRate (nth 1 flat origin)) = false.
Proof. vm_compute. repeat split. Qed.

(** C5, amended: for every trade list, base rate and shock range the
    generator returns exactly 51 points ([steps] is the constant 50, not a
    parameter); and in exact real arithmetic, for a positive base rate and a
    positive shock range, the rates increase strictly, are symmetric around
    the base rate, and the middle point (i = 25) has [fxRate] equal to the
    base rate and [pnl] equal to 0.  (In binary64 the rates are rounded, so
    these hold up to rounding only.) *)
Theorem sensitivity_curve_shape :
  (forall (trades : list (FXTrade float)) (baseRate : float) (shockRange : option float),
     List.length (generatePnLSensitivity trades baseRate shockRange) = 51%nat) /\
  (forall (trades : list (FXTrade R)) (baseRate : R) (shockRange : option R)
          (origin : SensitivityPoint R),
     (0 < baseRate)%R -> (0 < dflt shockRange 0.5)%R ->
     let curve := generatePnLSensitivity trades baseRate shockRange in
     List.length curve = 51%nat /\
     (forall i j, (i < j <= 50)%nat ->
        (fxRate (nth i curve origin) < fxRate (nth j curve origin))%R) /\
     (forall i, (i <= 50)%nat ->
        (fxRate (nth (50 - i) curve origin) - baseRate
         = baseRate - fxRate (nth i curve origin))%R) /\
     fxRate (nth 25 curve origin) = baseRate /\
     pnl (nth 25 curve origin) = 0%R).
Proof.
  split; [intros; apply sensitivity_length|].
  intros trades baseRate shockRange origin Hb Hs curve. unfold curve.
  assert (E : dflt shockRange (lit 0.5) = dflt shockRange 0.5%R).
  { destruct shockRange; simpl; [reflexivity|]. unfold Q2R; simpl. lra. }
  split; [apply sensitivity_length|]. repeat split.
  - intros i j Hij. rewrite !sensitivity_nth by lia. rewrite !fxRate_real, E.
    assert (L : (INR i < INR j)%R) by (apply lt_INR; lia). nra.
  - intros i Hi. rewrite !sensitivity_nth by lia. rewrite !fxRate_real, E.
    rewrite minus_INR by exact Hi. simpl INR. lra.
  - rewrite sensitivity_nth by lia. rewrite fxRate_real, E. simpl INR. lra.
  - rewrite sensitivity_nth by lia. unfold sensitivity_point. cbn [pnl].
    assert (F : fxRate (sensitivity_point trades baseRate (dflt shockRange (lit 0.5)) 25)
                = baseRate).
    { rewrite fxRate_real, E. simpl INR. lra. }
    unfold sensitivity_point in F. cbn [fxRate] in F. rewrite F.
    rewrite pnl_flat_real. simpl. lra.
Qed.

Lemma sensitivity_curve_shape_witness :
  let origin := {| fxRate := 0; pnl := 0; hedgedPnl := 0 |}%R in
  let curve := generatePnLSensitivity [position 1000000%R long] 4.65%R None in
  fxRate (nth 25 curve origin) = 4.65%R /\ pnl (nth 25 curve origin) = 0%R.
Proof.
  cbv zeta.
  apply (proj2 sensitivity_curve_shape [position 1000000%R long] 4.65%R None);
    simpl; lra.
Defined.

(** *** C6: additivity of the P&L *)

(** C6, as stated, fails in binary64: with one long trade of 0.1 in the first
    list, long trades of 0.2 and 0.3 in the second, base rate 0 and rate 1,
    the P&L of the concatenation is 0.6000000000000001 and the sum of the two
    P&Ls is 0.6. *)
Lemma pnl_not_additive_binary64 :
  let trades1 := [position 0.1%float long] in
  let trades2 := [position 0.2%float long; position 0.3%float long] in
  PrimFloat.eqb
    (calculateUnhedgedPnL (trades1 ++ trades2) 0%float 1%float)
    (calculateUnhedgedPnL trades1 0 1 + calculateUnhedgedPnL trades2 0 1)%float = false.
Proof. vm_compute. reflexivity. Qed.

(** C6, amended: in exact real arithmetic the P&L is additive over the
    concatenation of trade lists; in binary64 the P&L of the concatenation is
    the accumulation over the second list continued from the P&L of the
    first (additive up to the rounding of each addition). *)
Theorem pnl_concat :
  (forall (trades1 trades2 : list (FXTrade R)) (base rate : R),
     calculateUnhedgedPnL (trades1 ++ trades2) base rate =
     (calculateUnhedgedPnL trades1 base rate + calculateUnhedgedPnL trades2 base rate)%R) /\
  (forall (trades1 trades2 : list (FXTrade float)) (base rate : float),
     calculateUnhedgedPnL (trades1 ++ trades2) base rate =
     fold_left (pnl_step base rate) trades2 (calculateUnhedgedPnL trades1 base rate)).
Proof.
  split; intros trades1 trades2 base rate.
  - rewrite !pnl_real, fold_left_app. apply pnl_fold_real.
  - unfold calculateUnhedgedPnL. apply fold_left_app.
Qed.

(** *** C7: the rate shock model without a shock *)

(** C7: a zero shock is a no-op for every spot and every finite time
    fraction (also the default one), and a zero time fraction is a no-op for
    every spot and every finite shock: the result is the spot, the same
    float.  The same holds in exact real arithmetic. *)
Theorem shocked_rate_noop :
  (forall (spot : float) (t : option float),
     PrimFloat.is_finite (dflt t 1%float) = true ->
     calculateShockedFXRate spot 0%float t = spot) /\
  (forall spot bps : float,
     PrimFloat.is_finite bps = true ->
     calculateShockedFXRate spot bps (Some 0%float) = spot) /\
  (forall (spot : R) (t : option R), calculateShockedFXRate spot 0%R t = spot) /\
  (forall spot bps : R, calculateShockedFXRate spot bps (Some 0%R) = spot).
Proof.
  repeat split.
  - intros spot t Ft. unfold calculateShockedFXRate. float_ops.
    change (0 / 10000)%float with 0%float.
    destruct (mul_zero_finite 0%float (dflt t 1%float) false eq_refl Ft) as [s E].
    rewrite (one_plus_zero _ s E). apply mul_one_r.
  - intros spot bps Fb. unfold calculateShockedFXRate. float_ops.
    assert (F : PrimFloat.is_finite (bps / 10000)%float = true).
    { apply (div_finite bps 10000%float false 5497558138880000 (-39));
        [reflexivity | now vm_compute | exact Fb]. }
    destruct (mul_finite_zero (bps / 10000)%float 0%float false F eq_refl) as [s E].
    rewrite (one_plus_zero _ s E). apply mul_one_r.
  - intros spot t. unfold calculateShockedFXRate.
    cbn [n_add n_mul n_div real_number]. rewrite !lit_real. cbn [Qnum Qden]. lra.
  - intros spot bps. unfold calculateShockedFXRate.
    cbn [n_add n_mul n_div real_number dflt]. rewrite !lit_real. cbn [Qnum Qden]. lra.
Qed.

Lemma shocked_rate_noop_witness :
  calculateShockedFXRate 4.65%float 0%float (Some (30 / 365)%float) = 4.65%float /\
  calculateShockedFXRate 4.65%float 200%float (Some 0%float) = 4.65%float.
Proof.
  split.
  - apply (proj1 shocked_rate_noop). reflexivity.
  - apply (proj1 (proj2 shocked_rate_noop)). reflexivity.
Defined.

(** *** C8: the generated trades *)

(** C8, as stated, fails: the claim constrains the random source but not the
    clock, which the generator reads twice for each trade.  With every draw
    equal to 0 and a clock that steps back 30 days between the two readings,
    the trade date is the first reading and the maturity date is the same
    instant, not a later one; and with a clock at the end of the range of
    time values (8.64e15 ms), the maturity date is an Invalid Date, which is
    not after any date. *)
Lemma generated_dates_need_clock :
  map (fun t => (tradeDate t, maturityDate t))
      (fst (generateFXTrades (fun _ => 0%float)
              (fun k => if (k =? 0)%nat then 1700000000000%Z else 1697408000000%Z)
              (Some 1%nat) fresh))
  = [(Some 1700000000000%Z, Some 1700000000000%Z)] /\
  map (fun t => Date_gt (maturityDate t) (tradeDate t))
      (fst (generateFXTrades (fun _ => 0%float)
              (fun k => if (k =? 0)%nat then 1700000000000%Z else 1697408000000%Z)
              (Some 1%nat) fresh))
  = [false] /\
  map (fun t => (maturityDate t, Date_gt (maturityDate t) (tradeDate t)))
      (fst (generateFXTrades (fun _ => 0%float) (fun _ => 8640000000000000%Z)
              (Some 1%nat) fresh))
  = [(None, false)].
Proof. vm_compute. repeat split. Qed.

(** C8, amended: on binary64, for every count N, every random source whose
    draws are floats in [0, 1) and every clock of which no reading is 30
    days or more before the previous one (so every clock that does not go
    back) and every reading leaves room, within the range of valid time
    values, for the 90 days before it and the 395 days after it,
    [generateFXTrades] returns exactly N trades, with pairwise distinct ids,
    each with a notional [n] such that [50000 <= n && n < 2050000] and a
    maturity date after its trade date. *)
Theorem generated_trades_wellformed
  (random_source : nat -> float) (clock : nat -> Z) (N : nat) :
  unit_source random_source ->
  clock_ok clock ->
  let trades := fst (generateFXTrades random_source clock (Some N) fresh) in
  List.length trades = N /\
  NoDup (map id trades) /\
  Forall (fun t => PrimFloat.leb 50000%float (notionalUSD t)
                   && PrimFloat.ltb (notionalUSD t) 2050000%float = true /\
                   Date_gt (maturityDate t) (tradeDate t) = true) trades.
Proof.
  intros Hr Hc trades. unfold trades. rewrite generateFXTrades_run. cbn [fst dflt].
  split; [|split].
  - rewrite length_map, length_seq. reflexivity.
  - rewrite map_map. cbn [id trade_at]. apply trade_ids_NoDup.
  - apply Forall_forall. intros t Ht. apply in_map_iff in Ht. destruct Ht as (i & <- & _).
    split; [apply trade_at_notional_binary64; exact Hr|].
    destruct Hc as [Step Range].
    destruct (trade_at_dates_any_era random_source clock Hr Range i)
      as (d & m & Ed & Em & Bd & Bm).
    rewrite Ed, Em. cbn [Date_gt]. apply Z.ltb_lt.
    pose proof (Step (2 * i)%nat) as St.
    replace (S (2 * i)) with (2 * i + 1)%nat in St by lia.
    lia.
Qed.

Lemma generated_trades_wellformed_witness :
  let trades :=
    fst (generateFXTrades (fun _ => 0.5%float) (fun _ => (-1700000000000)%Z)
           (Some 3%nat) fresh) in
  List.length trades = 3%nat /\
  NoDup (map id trades) /\
  Forall (fun t => PrimFloat.leb 50000%float (notionalUSD t)
                   && PrimFloat.ltb (notionalUSD t) 2050000%float = true /\
                   Date_gt (maturityDate t) (tradeDate t) = true) trades.
Proof.
  apply generated_trades_wellformed.
  - intros k. split; reflexivity.
  - split; intros; lia.
Defined.

(** *** C9: the sign of the VaR *)

(** C9, as stated, fails in three ways.  The time horizon is not
    constrained, and with a time horizon of -1 the VaR of a non-negative
    exposure and volatility is NaN (the square root of a negative number).
    With a non-negative time horizon the VaR is NaN when the scaled
    volatility overflows against an exposure of 0 (0 times Infinity), and
    +Infinity when the product overflows: neither is a non-negative real. *)
Lemma var_negative_horizon_nan :
  calculateVaR 10000000%float 0.15%float None (Some (-1)%float) = PrimFloat.nan /\
  PrimFloat.leb 0%float
    (calculateVaR 10000000%float 0.15%float None (Some (-1)%float)) = false /\
  calculateVaR 0%float 1e200%float None (Some 1e300%float) = PrimFloat.nan /\
  calculateVaR 1e308%float 1e308%float None None = PrimFloat.infinity.
Proof. vm_compute. repeat split. Qed.

(** C9, amended: on binary64, for every exposure, volatility and time
    horizon that are [>= 0] (the default horizon is 1) and every confidence
    level, the VaR is NaN or a number [>= 0] (which may be +Infinity); it is
    a number [>= 0], not NaN, whenever in addition the exposure is finite and
    the scaled volatility [volatility * sqrt (timeHorizon / 252)] is finite;
    and whenever [timeHorizon / 252] is below zero the VaR is NaN, whatever
    the other arguments. *)
Theorem var_nonneg_or_nan :
  (forall (totalExposure volatility : float) (confidenceLevel timeHorizon : option float),
     PrimFloat.leb 0%float totalExposure = true ->
     PrimFloat.leb 0%float volatility = true ->
     PrimFloat.leb 0%float (dflt timeHorizon 1%float) = true ->
     let v := calculateVaR totalExposure volatility confidenceLevel timeHorizon in
     PrimFloat.is_nan v = true \/ PrimFloat.leb 0%float v = true) /\
  (forall (totalExposure volatility : float) (confidenceLevel timeHorizon : option float),
     PrimFloat.leb 0%float totalExposure = true ->
     PrimFloat.leb 0%float volatility = true ->
     PrimFloat.leb 0%float (dflt timeHorizon 1%float) = true ->
     PrimFloat.is_finite totalExposure = true ->
     PrimFloat.is_finite
       (volatility * PrimFloat.sqrt (dflt timeHorizon 1 / 252))%float = true ->
     let v := calculateVaR totalExposure volatility confidenceLevel timeHorizon in
     PrimFloat.is_nan v = false /\ PrimFloat.leb 0%float v = true) /\
  (forall (totalExposure volatility : float) (confidenceLevel timeHorizon : option float),
     PrimFloat.ltb (dflt timeHorizon 1 / 252)%float 0%float = true ->
     calculateVaR totalExposure volatility confidenceLevel timeHorizon = PrimFloat.nan).
Proof.
  split; [|split].
  - intros X V c T HX HV HT. cbv zeta. apply var_sign; assumption.
  - intros X V c T HX HV HT FX FS. cbv zeta.
    assert (N : PrimFloat.is_nan (calculateVaR X V c T) = false).
    { unfold calculateVaR. float_ops.
      apply mul_by_not_nan; [|apply zScore_finite_nonzero].
      apply mul_finite_not_nan; assumption. }
    split; [exact N|].
    destruct (var_sign X V c T HX HV HT) as [C|C]; [congruence|exact C].
  - intros X V c T HT. unfold calculateVaR. float_ops.
    rewrite (sqrt_negative _ HT), mul_nan_r, mul_nan_r. apply mul_nan_l.
Qed.

Lemma var_nonneg_or_nan_witness :
  (let v := calculateVaR 10000000%float 0.15%float None None in
   PrimFloat.is_nan v = false /\ PrimFloat.leb 0%float v = true) /\
  (let v := calculateVaR 0%float 1e200%float None (Some 1e300%float) in
   PrimFloat.is_nan v = true \/ PrimFloat.leb 0%float v = true) /\
  calculateVaR 10000000%float 0.15%float (Some 0.99%float) (Some (-1)%float)
    = PrimFloat.nan.
Proof.
  split; [|split].
  - apply (proj1 (proj2 var_nonneg_or_nan)); reflexivity.
  - apply (proj1 var_nonneg_or_nan); reflexivity.
  - apply (proj2 (proj2 var_nonneg_or_nan)). reflexivity.
Defined.

(** A negative time horizon does not always give NaN: when its quotient by
    252 underflows to -0, the VaR is -0, which compares as [>= 0]. *)
Lemma var_tiny_negative_horizon :
  let v := calculateVaR 10000000%float 0.15%float None (Some (-5e-324)%float) in
  Prim2SF v = S754_zero true /\ PrimFloat.leb 0%float v = true.
Proof. vm_compute. split; reflexivity. Qed.

(** *** C10: the P&L of no trades *)

(** C10: for the empty trade list and every base and comparison rate,
    [calculateUnhedgedPnL] returns 0, in binary64 (positive zero) and in exact
    real arithmetic. *)
Theorem pnl_empty :
  (forall base rate : float, calculateUnhedgedPnL [] base rate = 0%float) /\
  (forall base rate : R, calculateUnhedgedPnL [] base rate = 0%R).
Proof.
  split; intros base rate.
  - reflexivity.
  - rewrite pnl_real. reflexivity.
Qed.

End Claims.

(** ** Further properties of the library and of the dashboard page *)

Section Further.

Import Binary64Facts Rounding.

(** *** The trade generator on binary64 *)

(** X1. On binary64, whatever the count and the clock: when every draw of
    [Math.random()] is a float in [0, 1), every trade of the batch returned
    by [generateFXTrades] has a notional [n] with
    [50000 <= n && n < 2050000]. *)
Theorem generated_notionals_binary64
  (random_source : nat -> float) (clock : nat -> Z) (N : nat) :
  unit_source random_source ->
  Forall (fun t => PrimFloat.leb 50000%float (notionalUSD t)
                   && PrimFloat.ltb (notionalUSD t) 2050000%float = true)
         (fst (generateFXTrades random_source clock (Some N) fresh)).
Proof.
  intros Hr. rewrite generateFXTrades_run. cbn [fst dflt].
  apply Forall_forall. intros t Ht. apply in_map_iff in Ht. destruct Ht as (i & <- & _).
  apply trade_at_notional_binary64. exact Hr.
Qed.

Lemma generated_notionals_binary64_witness :
  Forall (fun t => PrimFloat.leb 50000%float (notionalUSD t)
                   && PrimFloat.ltb (notionalUSD t) 2050000%float = true)
         (fst (generateFXTrades (fun _ => 0.5%float) (fun _ => 1700000000000%Z)
                 (Some 3%nat) fresh)).
Proof.
  apply generated_notionals_binary64. intros k. split; reflexivity.
Defined.

(** X2. On binary64, for draws in [0, 1) and a clock of the present era that
    does not go back: the trade pushed at counter [i < N] has a valid trade
    date at most 90 days before the clock reading taken for it, a valid
    maturity date 30 to 395 days after the next reading, and so a maturity
    date strictly after its trade date. *)
Theorem generated_dates_binary64
  (random_source : nat -> float) (clock : nat -> Z) (N i : nat) :
  unit_source random_source -> clock_in_era clock -> (i < N)%nat ->
  exists (t : FXTrade float) (d m : Z),
    nth_error (fst (generateFXTrades random_source clock (Some N) fresh)) i = Some t /\
    tradeDate t = Some d /\ maturityDate t = Some m /\
    (clock (2 * i)%nat - 90 * 86400000 <= d <= clock (2 * i)%nat)%Z /\
    (clock (2 * i + 1)%nat + 30 * 86400000 <= m
       <= clock (2 * i + 1)%nat + 395 * 86400000)%Z /\
    Date_gt (maturityDate t) (tradeDate t) = true.
Proof.
  intros Hr Hc Hi. rewrite generateFXTrades_run. cbn [fst dflt].
  destruct (trade_at_dates_binary64 random_source clock Hr Hc i) as (d & m & Ed & Em & Bd & Bm).
  exists (trade_at random_source clock i), d, m.
  rewrite nth_error_map, nth_error_seq.
  apply Nat.ltb_lt in Hi. rewrite Hi. cbn [option_map Nat.add].
  repeat split; try assumption; try apply Bd; try apply Bm.
  rewrite Ed, Em. cbn [Date_gt]. apply Z.ltb_lt.
  destruct Hc as [Mono _]. pose proof (Mono (2 * i)%nat (2 * i + 1)%nat ltac:(lia)). lia.
Qed.

Lemma generated_dates_binary64_witness :
  exists (t : FXTrade float) (d m : Z),
    nth_error (fst (generateFXTrades (fun _ => 0.5%float) (fun _ => 1700000000000%Z)
                      (Some 3%nat) fresh)) 1 = Some t /\
    tradeDate t = Some d /\ maturityDate t = Some m /\
    (1700000000000 - 90 * 86400000 <= d <= 1700000000000)%Z /\
    (1700000000000 + 30 * 86400000 <= m <= 1700000000000 + 395 * 86400000)%Z /\
    Date_gt (maturityDate t) (tradeDate t) = true.
Proof.
  apply (generated_dates_binary64 (fun _ => 0.5%float) (fun _ => 1700000000000%Z) 3 1).
  - intros k. split; reflexivity.
  - split; intros; lia.
  - lia.
Defined.

(** X3. On binary64, for draws in [0, 1): the total exposure that
    [calculateRiskMetrics] computes for a generated batch of [N] trades
    ([N] up to four billion) lies between [50000 * N] and [2050000 * N],
    whatever the scenario; the rounding of the running sum never takes it out
    of these bounds. *)
Theorem generated_exposure_binary64
  (random_source : nat -> float) (clock : nat -> Z) (N : nat)
  (scenario : RiskScenario float) :
  unit_source random_source -> (Z.of_nat N <= 4000000000)%Z ->
  let trades := fst (generateFXTrades random_source clock (Some N) fresh) in
  let exposure := totalExposureUSD (calculateRiskMetrics trades scenario) in
  PrimFloat.leb (Binary64.of_Z (50000 * Z.of_nat N)) exposure = true /\
  PrimFloat.leb exposure (Binary64.of_Z (2050000 * Z.of_nat N)) = true.
Proof.
  intros Hr HN trades exposure. unfold exposure, trades.
  rewrite generateFXTrades_run. cbn [fst dflt calculateRiskMetrics totalExposureUSD].
  pose proof (exposure_between random_source clock Hr N 0 0 0 (lit 0)
                (int_between _ 0 eq_refl ltac:(lia)) ltac:(lia) ltac:(lia)) as [O [L U]].
  cbn [Z.add] in L, U.
  destruct (of_Z_exact (50000 * Z.of_nat N) ltac:(change (2 ^ 53)%Z with 9007199254740992%Z; lia))
    as [Ol Fl].
  destruct (of_Z_exact (2050000 * Z.of_nat N) ltac:(change (2 ^ 53)%Z with 9007199254740992%Z; lia))
    as [Oh Fh].
  split; (apply leb_R; [assumption|assumption|]); lra.
Qed.

Lemma generated_exposure_binary64_witness :
  let trades :=
    fst (generateFXTrades (fun _ => 0.5%float) (fun _ => 1700000000000%Z) (Some 3%nat) fresh) in
  let exposure := totalExposureUSD (calculateRiskMetrics trades dashboard_scenario) in
  PrimFloat.leb (Binary64.of_Z (50000 * Z.of_nat 3)) exposure = true /\
  PrimFloat.leb exposure (Binary64.of_Z (2050000 * Z.of_nat 3)) = true.
Proof.
  apply generated_exposure_binary64.
  - intros k. split; reflexivity.
  - simpl. lia.
Defined.

(** *** The trade generator, whatever the arithmetic *)

Lemma string_length_append (s t : string) :
  String.length (s ++ t) = (String.length s + String.length t)%nat.
Proof. induction s as [|c s IH]; cbn [String.append String.length]; [reflexivity|]. now rewrite IH. Qed.

Lemma string_length_repeat (c : ascii) (k : nat) :
  String.length (string_of_list_ascii (repeat c k)) = k.
Proof. induction k as [|k IH]; cbn [repeat string_of_list_ascii String.length]; [reflexivity|]. now rewrite IH. Qed.

Lemma padStart_length (n : nat) (c : ascii) (s : string) :
  String.length (padStart n c s) = Nat.max n (String.length s).
Proof. unfold padStart. rewrite string_length_append, string_length_repeat. lia. Qed.

Lemma toString_short (i : nat) : (i < 1000)%nat -> (String.length (toString i) <= 3)%nat.
Proof.
  intros Hi.
  assert (A : forallb (fun j => String.length (toString j) <=? 3)%nat (seq 0 1000) = true)
    by (vm_compute; reflexivity).
  rewrite forallb_forall in A. apply Nat.leb_le. apply A. apply in_seq. lia.
Qed.

(** X4. A batch of [N] trades takes exactly [4 N] draws of [Math.random()]
    and [2 N] readings of [Date.now()]: the state after the call counts that
    many, and two runs whose sources agree on the first [4 N] draws and the
    first [2 N] readings return the same batch. *)
Theorem generator_consumption {num : Type} `{JSNumber num}
  (random_source random_source' : nat -> num) (clock clock' : nat -> Z) (N : nat) :
  (forall k, (k < 4 * N)%nat -> random_source k = random_source' k) ->
  (forall k, (k < 2 * N)%nat -> clock k = clock' k) ->
  snd (generateFXTrades random_source clock (Some N) fresh) =
    {| random_calls := 4 * N; now_calls := 2 * N |} /\
  fst (generateFXTrades random_source clock (Some N) fresh) =
    fst (generateFXTrades random_source' clock' (Some N) fresh).
Proof.
  intros Hr Hc. rewrite !generateFXTrades_run. cbn [fst snd dflt]. split; [reflexivity|].
  apply map_ext_in. intros i Hi. apply in_seq in Hi. unfold trade_at.
  rewrite (Hr (4 * i)%nat), (Hr (4 * i + 1)%nat), (Hr (4 * i + 2)%nat), (Hr (4 * i + 3)%nat),
    (Hc (2 * i)%nat), (Hc (2 * i + 1)%nat) by lia.
  reflexivity.
Qed.

Lemma generator_consumption_witness :
  snd (generateFXTrades (fun _ => 0.5%float) (fun _ => 1700000000000%Z) (Some 2%nat) fresh) =
    {| random_calls := 4 * 2; now_calls := 2 * 2 |} /\
  fst (generateFXTrades (fun _ => 0.5%float) (fun _ => 1700000000000%Z) (Some 2%nat) fresh) =
    fst (generateFXTrades (fun k => if (k <? 8)%nat then 0.5%float else 0.25%float)
           (fun k => if (k <? 4)%nat then 1700000000000%Z else 0%Z) (Some 2%nat) fresh).
Proof.
  apply generator_consumption.
  - intros k Hk. apply Nat.ltb_lt in Hk. simpl in Hk. rewrite Hk. reflexivity.
  - intros k Hk. apply Nat.ltb_lt in Hk. simpl in Hk. rewrite Hk. reflexivity.
Defined.

(** X5. The id of the trade pushed at counter [i] is [FX-] followed by
    decimal digits that read back as [i]; there are three digits, or as many
    as [i] has when it has more (padStart never truncates), so the id has six
    characters for every counter below 1000. *)
Theorem trade_id_format (i : nat) :
  exists digits : string,
    trade_id i = ("FX-" ++ digits)%string /\
    decimal_value digits = Some i /\
    String.length digits = Nat.max 3 (String.length (toString i)) /\
    ((i < 1000)%nat -> String.length (trade_id i) = 6%nat).
Proof.
  exists (padStart 3 "0"%char (toString i)). split; [reflexivity|]. split; [|split].
  - unfold padStart. rewrite decimal_value_pad. apply decimal_value_toString.
  - apply padStart_length.
  - intros Hi. unfold trade_id. rewrite string_length_append, padStart_length.
    pose proof (toString_short i Hi). cbn [String.length]. lia.
Qed.

Lemma trade_id_format_witness :
  exists digits : string,
    trade_id 7 = ("FX-" ++ digits)%string /\
    decimal_value digits = Some 7%nat /\
    String.length (trade_id 7) = 6%nat.
Proof.
  destruct (trade_id_format 7) as (digits & E & V & _ & L).
  exists digits. split; [exact E|]. split; [exact V|]. apply L. lia.
Defined.

(** *** The P&L of the reversed portfolio *)

Section Reversal.

Local Open Scope Z_scope.

Lemma round_aux_negb (s : bool) (m e : Z) (l : location) :
  binary_round_aux prec emax (negb s) m e l = SFopp (binary_round_aux prec emax s m e l).
Proof.
  unfold binary_round_aux.
  destruct (shr_fexp prec emax m e l) as [mrs' e'].
  destruct (shr_fexp prec emax _ e' loc_Exact) as [mrs'' e''].
  destruct (shr_m mrs''); [reflexivity| |reflexivity].
  destruct (e'' <=? emax - prec); reflexivity.
Qed.

Lemma SFopp_involutive (x : spec_float) : SFopp (SFopp x) = x.
Proof. destruct x as [s|s| |s m e]; cbn [SFopp]; rewrite ?negb_involutive; reflexivity. Qed.

Lemma SFmul_opp_l (x y : spec_float) :
  SFmul prec emax (SFopp x) y = SFopp (SFmul prec emax x y).
Proof.
  destruct x as [sx|sx| |sx mx ex], y as [sy|sy| |sy my ey]; cbn [SFopp SFmul];
    try reflexivity; try (destruct sx, sy; reflexivity).
  replace (xorb (negb sx) sy) with (negb (xorb sx sy)) by (destruct sx, sy; reflexivity).
  apply round_aux_negb.
Qed.

Lemma normalize_neg (z e : Z) :
  z <> 0 ->
  binary_normalize prec emax (- z) e false = SFopp (binary_normalize prec emax z e false).
Proof.
  intros Hz. destruct z as [|p|p]; [contradiction| |].
  - apply normalize_opp.
  - change (- Z.neg p) with (Z.pos p). rewrite normalize_opp, SFopp_involutive. reflexivity.
Qed.

Lemma cond_Zopp_negb (s : bool) (z : Z) : cond_Zopp (negb s) z = - cond_Zopp s z.
Proof. destruct s; cbn [cond_Zopp negb]; lia. Qed.

(** Adding opposite terms to mirrored sums gives mirrored sums. *)
Lemma SFadd_mirrored (a a' p : spec_float) :
  mirrored a a' -> mirrored (SFadd prec emax a p) (SFadd prec emax a' (SFopp p)).
Proof.
  intros [->|(s & s' & -> & ->)].
  - destruct a as [sa|sa| |sa ma ea], p as [sp|sp| |sp mp ep]; cbn [SFopp SFadd];
      try (left; reflexivity);
      try (destruct sa, sp; cbn [negb];
           first [left; reflexivity | right; eexists; eexists; split; reflexivity]).
    rewrite !cond_Zopp_negb.
    set (z := cond_Zopp sa _ + cond_Zopp sp _).
    match goal with |- mirrored _ (binary_normalize _ _ ?w _ _) =>
      replace w with (- z) by (unfold z; lia) end.
    destruct (Z.eq_dec z 0) as [E|E].
    + rewrite E. right. exists false, false. split; reflexivity.
    + left. apply normalize_neg. exact E.
  - destruct p as [sp|sp| |sp mp ep]; cbn [SFopp SFadd].
    + right. destruct s, s', sp; cbn [negb]; eexists; eexists; split; reflexivity.
    + left. reflexivity.
    + left. reflexivity.
    + left. reflexivity.
Qed.

Local Close Scope Z_scope.
Local Open Scope float_scope.

Lemma pnl_step_reversed (b r acc acc' : float) (t : FXTrade float) :
  mirrored (Prim2SF acc) (Prim2SF acc') ->
  mirrored (Prim2SF (pnl_step b r acc t)) (Prim2SF (pnl_step b r acc' (reversed t))).
Proof.
  intros M. unfold pnl_step, reversed. cbn [direction notionalUSD]. float_ops.
  rewrite !add_spec. unfold SF64add.
  destruct (direction t); cbn [opposite].
  - replace (Prim2SF (- notionalUSD t * (r - b)))
      with (SFopp (Prim2SF (notionalUSD t * (r - b)))).
    + apply SFadd_mirrored. exact M.
    + rewrite !mul_spec, opp_spec. unfold SF64mul. symmetry. apply SFmul_opp_l.
  - replace (Prim2SF (notionalUSD t * (r - b)))
      with (SFopp (Prim2SF (- notionalUSD t * (r - b)))).
    + apply SFadd_mirrored. exact M.
    + rewrite !mul_spec, opp_spec. unfold SF64mul.
      rewrite SFmul_opp_l, SFopp_involutive. reflexivity.
Qed.

Lemma pnl_fold_reversed (b r : float) (trades : list (FXTrade float)) (acc acc' : float) :
  mirrored (Prim2SF acc) (Prim2SF acc') ->
  mirrored (Prim2SF (fold_left (pnl_step b r) trades acc))
           (Prim2SF (fold_left (pnl_step b r) (map reversed trades) acc')).
Proof.
  revert acc acc'. induction trades as [|t ts IH]; intros acc acc' M; cbn [map fold_left].
  - exact M.
  - apply IH. apply pnl_step_reversed. exact M.
Qed.

(** X6. On binary64, reversing the direction of every trade reverses the
    unhedged P&L: for every portfolio and all rates, the P&L of the reversed
    portfolio [p'] and the P&L [p] of the portfolio satisfy [p' == -p], or
    both are NaN. *)
Theorem pnl_reversed_binary64
  (trades : list (FXTrade float)) (currentRate shockedRate : float) :
  let p := calculateUnhedgedPnL trades currentRate shockedRate in
  let p' := calculateUnhedgedPnL (map reversed trades) currentRate shockedRate in
  (is_nan p = true /\ is_nan p' = true) \/ (p' =? - p) = true.
Proof.
  cbv zeta. unfold calculateUnhedgedPnL. float_ops.
  pose proof (pnl_fold_reversed currentRate shockedRate trades 0 0
                (or_intror (ex_intro _ false (ex_intro _ false (conj eq_refl eq_refl))))) as M.
  set (p := fold_left _ trades 0) in *. set (p' := fold_left _ (map reversed trades) 0) in *.
  rewrite !is_nan_spec, eqb_spec, opp_spec.
  destruct M as [E|(s & s' & E & E')].
  - rewrite E. unfold SFeqb. rewrite SFcompare_refl.
    destruct (Prim2SF p) as [sp|sp| |sp mp ep]; cbn [SFopp]; auto.
  - rewrite E, E'. right. destruct s, s'; reflexivity.
Qed.

End Reversal.

(** *** The chart data of the page *)

(** X12. The data the page hands to the sensitivity chart is empty when
    there are no trades (the generator is not called) and has 51 points
    otherwise, whatever the parameters. *)
Theorem chart_data_length {num : Type} `{JSNumber num}
  (trades : list (FXTrade num)) (parameters : Index.Parameters num) :
  List.length (Index.pnlSensitivityData trades parameters)
  = match trades with [] => 0%nat | _ :: _ => 51%nat end.
Proof.
  unfold Index.pnlSensitivityData. destruct trades as [|t ts]; [reflexivity|].
  cbn [List.length Nat.eqb]. apply sensitivity_length.
Qed.

(** *** The calculators on binary64 *)

Section FloatCalculators.

Local Open Scope float_scope.

Lemma sub_self (x : float) : is_finite x = true -> x - x = 0.
Proof.
  rewrite is_finite_spec. intros F. apply Prim2SF_inj. rewrite sub_spec.
  change (Prim2SF 0) with (S754_zero false). unfold SF64sub, SFsub.
  destruct (Prim2SF x) as [[|]|[|]| |s m e]; try discriminate; try reflexivity.
  rewrite Z.sub_diag. reflexivity.
Qed.

Lemma zero_add_zero (z : float) (s : bool) : Prim2SF z = S754_zero s -> 0 + z = 0.
Proof.
  intros E. apply Prim2SF_inj. rewrite add_spec, E. destruct s; reflexivity.
Qed.

Lemma opp_finite (x : float) : is_finite x = true -> is_finite (- x) = true.
Proof.
  rewrite !is_finite_spec, opp_spec. destruct (Prim2SF x); auto.
Qed.

Lemma eqb_zero (x : float) (s : bool) : Prim2SF x = S754_zero s -> (x =? 0) = true.
Proof. intros E. rewrite eqb_spec, E. destruct s; reflexivity. Qed.

(** The accumulation of [calculateUnhedgedPnL] at an unchanged rate stays at
    zero. *)
Lemma pnl_fold_no_move (rate : float) (trades : list (FXTrade float)) :
  is_finite rate = true ->
  Forall (fun t => is_finite (notionalUSD t) = true) trades ->
  fold_left (pnl_step rate rate) trades 0 = 0.
Proof.
  intros Fr. induction 1 as [|t ts Ft _ IH]; cbn [fold_left]; [reflexivity|].
  replace (pnl_step rate rate 0 t) with 0; [exact IH|].
  unfold pnl_step. float_ops. rewrite (sub_self rate Fr).
  destruct (direction t).
  - destruct (mul_finite_zero (notionalUSD t) 0 false Ft eq_refl) as [s E].
    symmetry. exact (zero_add_zero _ s E).
  - destruct (mul_finite_zero (- notionalUSD t) 0 false (opp_finite _ Ft) eq_refl) as [s E].
    symmetry. exact (zero_add_zero _ s E).
Qed.

(** X13. On binary64, without a move of the rate the unhedged P&L is exactly
    0 for every portfolio of finite notionals and every finite rate. *)
Theorem pnl_no_move_binary64 (trades : list (FXTrade float)) (rate : float) :
  is_finite rate = true ->
  Forall (fun t => is_finite (notionalUSD t) = true) trades ->
  calculateUnhedgedPnL trades rate rate = 0.
Proof. intros Fr Ft. unfold calculateUnhedgedPnL. exact (pnl_fold_no_move rate trades Fr Ft). Qed.

Lemma pnl_no_move_binary64_witness :
  calculateUnhedgedPnL [position 1000000 long; position 0.1 short] 4.65 4.65 = 0.
Proof.
  apply pnl_no_move_binary64; [reflexivity|].
  repeat constructor.
Defined.

Local Close Scope float_scope.
Local Open Scope Z_scope.

Lemma div_core_nonneg (m1 m2 : positive) (e1 e2 : Z) :
  0 <= fst (fst (SFdiv_core_binary prec emax (Z.pos m1) e1 (Z.pos m2) e2)).
Proof.
  unfold SFdiv_core_binary.
  set (sh := e1 - e2 - _).
  set (m' := match sh with Z.pos _ => Z.shiftl (Z.pos m1) sh | 0 => Z.pos m1 | Z.neg _ => 0 end).
  assert (Hm' : 0 <= m').
  { unfold m'. destruct sh; try lia. apply Z.shiftl_nonneg. lia. }
  destruct (Z.div_eucl m' (Z.pos m2)) as [q r] eqn:Ed. cbn [fst].
  assert (Hq : q = m' / Z.pos m2) by (unfold Z.div; rewrite Ed; reflexivity).
  rewrite Hq. apply Z.div_pos; lia.
Qed.

Local Close Scope Z_scope.
Local Open Scope float_scope.

(** A quotient is NaN only for a NaN operand, 0/0 or infinity/infinity. *)
Lemma div_not_nan (x y : float) :
  is_nan x = false -> sf_finite_nonzero (Prim2SF y) = true -> is_nan (x / y) = false.
Proof.
  rewrite !is_nan_spec, div_spec. unfold SF64div, SFdiv.
  destruct (Prim2SF x) as [sx|sx| |sx mx ex], (Prim2SF y) as [sy|sy| |sy my ey];
    try discriminate; try reflexivity. intros _ _.
  pose proof (div_core_nonneg mx my ex ey) as Q.
  destruct (SFdiv_core_binary prec emax (Z.pos mx) ex (Z.pos my) ey) as [[mz ez] lz].
  cbn [fst] in Q. pose proof (round_not_nan (xorb sx sy) mz ez lz Q) as N.
  destruct (binary_round_aux prec emax (xorb sx sy) mz ez lz); congruence.
Qed.

Lemma div_into_not_nan (x y : float) :
  sf_finite_nonzero (Prim2SF x) = true -> is_nan y = false -> is_nan (x / y) = false.
Proof.
  rewrite !is_nan_spec, div_spec. unfold SF64div, SFdiv.
  destruct (Prim2SF x) as [sx|sx| |sx mx ex], (Prim2SF y) as [sy|sy| |sy my ey];
    try discriminate; try reflexivity. intros _ _.
  pose proof (div_core_nonneg mx my ex ey) as Q.
  destruct (SFdiv_core_binary prec emax (Z.pos mx) ex (Z.pos my) ey) as [[mz ez] lz].
  cbn [fst] in Q. pose proof (round_not_nan (xorb sx sy) mz ez lz Q) as N.
  destruct (binary_round_aux prec emax (xorb sx sy) mz ez lz); congruence.
Qed.

Lemma normalize_not_nan (m e : Z) (szero : bool) :
  binary_normalize prec emax m e szero <> S754_nan.
Proof.
  unfold binary_normalize. destruct m as [|p|p]; [discriminate| |];
    unfold binary_round;
    destruct (shl_align p e (fexp prec emax (Z.pos (digits2_pos p) + e))) as [mz ez];
    apply round_not_nan; lia.
Qed.

(** A sum with a finite term is NaN only when the other term is. *)
Lemma add_not_nan (x y : float) :
  is_finite x = true -> is_nan y = false -> is_nan (x + y) = false.
Proof.
  rewrite is_finite_spec, !is_nan_spec, add_spec. unfold SF64add, SFadd.
  destruct (Prim2SF x) as [sx|sx| |sx mx ex], (Prim2SF y) as [sy|sy| |sy my ey];
    try discriminate; try reflexivity; try (destruct sx, sy; reflexivity). intros _ _.
  match goal with |- context [binary_normalize prec emax ?m ?e ?z] =>
    pose proof (normalize_not_nan m e z) as N;
    destruct (binary_normalize prec emax m e z); congruence
  end.
Qed.

Lemma abs_not_nan (x : float) : is_nan x = false -> is_nan (abs x) = false.
Proof. rewrite !is_nan_spec, abs_spec. destruct (Prim2SF x); auto. Qed.

Lemma min_not_nan (a b : float) :
  is_nan a = false -> is_nan b = false -> is_nan (Binary64.min a b) = false.
Proof.
  intros Na Nb. unfold Binary64.min. rewrite Na, Nb. cbn [orb].
  destruct (a <? b); [exact Na|]. destruct (b <? a); [exact Nb|].
  destruct (get_sign a); assumption.
Qed.

Lemma max_not_nan (a b : float) :
  is_nan a = false -> is_nan b = false -> is_nan (Binary64.max a b) = false.
Proof.
  intros Na Nb. unfold Binary64.max. rewrite Na, Nb. cbn [orb].
  destruct (a <? b); [exact Nb|]. destruct (b <? a); [exact Na|].
  destruct (get_sign a); assumption.
Qed.

Lemma finite_nonzero_finite (x : float) :
  sf_finite_nonzero (Prim2SF x) = true -> is_finite x = true.
Proof. rewrite is_finite_spec. destruct (Prim2SF x); auto. Qed.

Lemma finite_nonzero_intro (x : float) :
  is_finite x = true -> (x =? 0) = false -> sf_finite_nonzero (Prim2SF x) = true.
Proof.
  rewrite is_finite_spec, eqb_spec. change (Prim2SF 0) with (S754_zero false).
  destruct (Prim2SF x) as [[|]|s| |s m e]; try discriminate; reflexivity.
Qed.

Lemma ratio_not_nan (E v c : float) (ra : option float) :
  sf_finite_nonzero (Prim2SF E) = true ->
  sf_finite_nonzero (Prim2SF (volatilityBenefit v (dflt ra 0.5))) = true ->
  is_nan c = false ->
  is_nan (calculateOptimalHedgeRatio E v c ra) = false.
Proof.
  intros HE Hb Hc. unfold calculateOptimalHedgeRatio, costPenalty. float_ops.
  apply max_not_nan; [reflexivity|]. apply min_not_nan; [reflexivity|].
  apply div_into_not_nan; [exact Hb|].
  apply add_not_nan; [apply finite_nonzero_finite; exact Hb|].
  apply div_not_nan; [apply abs_not_nan; exact Hc|exact HE].
Qed.

Lemma ratio_in_unit (E v c : float) (ra : option float) :
  sf_finite_nonzero (Prim2SF E) = true ->
  sf_finite_nonzero (Prim2SF (volatilityBenefit v (dflt ra 0.5))) = true ->
  is_nan c = false ->
  is_nan (calculateOptimalHedgeRatio E v c ra) = false /\
  in_unit_interval (calculateOptimalHedgeRatio E v c ra) = true.
Proof.
  intros HE Hb Hc.
  pose proof (ratio_not_nan E v c ra HE Hb Hc) as N. split; [exact N|].
  pose proof (clamp_range
                (volatilityBenefit v (dflt ra 0.5)
                 / (volatilityBenefit v (dflt ra 0.5) + costPenalty E c))) as C.
  cbv zeta in C.
  unfold calculateOptimalHedgeRatio in *. revert N C. float_ops. intros N C.
  destruct C as [C|C]; [congruence|exact C].
Qed.

(** X14. On binary64, [calculateOptimalHedgeRatio] returns a number in
    [0, 1], not NaN, whenever the total exposure is finite and not zero, the
    volatility benefit (volatility times risk aversion, 0.5 by default) is
    finite and not zero, and the hedge cost is not NaN. *)
Theorem optimal_ratio_defined_binary64
  (totalExposure expectedVolatility hedgeCost : float) (riskAversion : option float) :
  is_finite totalExposure = true -> (totalExposure =? 0) = false ->
  is_finite (volatilityBenefit expectedVolatility (dflt riskAversion 0.5)) = true ->
  (volatilityBenefit expectedVolatility (dflt riskAversion 0.5) =? 0) = false ->
  is_nan hedgeCost = false ->
  is_nan (calculateOptimalHedgeRatio totalExposure expectedVolatility hedgeCost riskAversion)
    = false /\
  in_unit_interval
    (calculateOptimalHedgeRatio totalExposure expectedVolatility hedgeCost riskAversion)
  = true.
Proof.
  intros FE NE Fb Nb Hc.
  apply ratio_in_unit;
    [apply finite_nonzero_intro; assumption|apply finite_nonzero_intro; assumption|exact Hc].
Qed.

Lemma optimal_ratio_defined_binary64_witness :
  is_nan (calculateOptimalHedgeRatio 1000000 0.15 23250 None) = false /\
  in_unit_interval (calculateOptimalHedgeRatio 1000000 0.15 23250 None) = true.
Proof. apply optimal_ratio_defined_binary64; reflexivity. Defined.

Lemma div_self (x : float) : sf_finite_nonzero (Prim2SF x) = true -> x / x = 1.
Proof.
  intros F. apply Prim2SF_inj. rewrite div_spec.
  pose proof (Prim2SF_valid x) as V.
  destruct (Prim2SF x) as [s|s| |s m e]; try discriminate.
  unfold SF64div, SFdiv, SFdiv_core_binary.
  replace (Zdigits2 (Z.pos m) + e - (Zdigits2 (Z.pos m) + e))%Z with 0%Z by lia.
  rewrite Z.sub_diag.
  change (Z.min (fexp prec emax 0) 0) with (-53)%Z. change (0 - -53)%Z with 53%Z.
  cbv iota. rewrite Z.shiftl_mul_pow2 by lia.
  destruct (Z.div_eucl (Z.pos m * 2 ^ 53) (Z.pos m)) as [q r] eqn:Ed.
  assert (Hq : q = (2 ^ 53)%Z).
  { replace q with (Z.pos m * 2 ^ 53 / Z.pos m)%Z by (unfold Z.div; rewrite Ed; reflexivity).
    rewrite Z.mul_comm. apply Z.div_mul. lia. }
  assert (Hr : r = 0%Z).
  { replace r with ((Z.pos m * 2 ^ 53) mod Z.pos m)%Z by (unfold Z.modulo; rewrite Ed; reflexivity).
    rewrite Z.mul_comm. apply Z.mod_mul. lia. }
  subst q r.
  assert (L : new_location (Z.pos m) 0 = loc_Exact).
  { unfold new_location, new_location_even, new_location_odd.
    destruct (Z.even (Z.pos m)); reflexivity. }
  rewrite L. rewrite xorb_nilpotent. vm_compute. reflexivity.
Qed.

Lemma add_zero_r (x z : float) (s : bool) :
  sf_finite_nonzero (Prim2SF x) = true -> Prim2SF z = S754_zero s -> x + z = x.
Proof.
  intros F E. apply Prim2SF_inj. rewrite add_spec, E. unfold SF64add, SFadd.
  destruct (Prim2SF x); try discriminate. reflexivity.
Qed.

Lemma zero_div (z y : float) (s : bool) :
  Prim2SF z = S754_zero s -> sf_finite_nonzero (Prim2SF y) = true ->
  exists s', Prim2SF (z / y) = S754_zero s'.
Proof.
  intros E F. rewrite div_spec, E. unfold SF64div, SFdiv.
  destruct (Prim2SF y); try discriminate. eexists; reflexivity.
Qed.

Lemma abs_zero (z : float) (s : bool) :
  Prim2SF z = S754_zero s -> Prim2SF (abs z) = S754_zero false.
Proof. intros E. rewrite abs_spec, E. reflexivity. Qed.

Lemma zero_cases (x : float) : (x =? 0) = true -> exists s, Prim2SF x = S754_zero s.
Proof.
  rewrite eqb_spec. change (Prim2SF 0) with (S754_zero false).
  destruct (Prim2SF x) as [s|[|]| |[|] m e]; try discriminate.
  intros _. exists s; reflexivity.
Qed.

Lemma ratio_free_hedge (E v c : float) (ra : option float) :
  sf_finite_nonzero (Prim2SF E) = true ->
  sf_finite_nonzero (Prim2SF (volatilityBenefit v (dflt ra 0.5))) = true ->
  (c =? 0) = true ->
  calculateOptimalHedgeRatio E v c ra = 1.
Proof.
  intros HE Hb Hc. destruct (zero_cases c Hc) as [s Z].
  destruct (zero_div (abs c) E false (abs_zero _ s Z) HE) as [s' P].
  unfold calculateOptimalHedgeRatio, costPenalty. revert Hb. float_ops. intros Hb.
  rewrite (add_zero_r _ _ s' Hb P), (div_self _ Hb). reflexivity.
Qed.

(** X15. On binary64, a hedge that costs nothing (a hedge cost of 0 or -0)
    is taken in full: [calculateOptimalHedgeRatio] returns exactly 1
    whenever the total exposure and the volatility benefit are finite and
    not zero. *)
Theorem optimal_ratio_free_hedge_binary64
  (totalExposure expectedVolatility hedgeCost : float) (riskAversion : option float) :
  is_finite totalExposure = true -> (totalExposure =? 0) = false ->
  is_finite (volatilityBenefit expectedVolatility (dflt riskAversion 0.5)) = true ->
  (volatilityBenefit expectedVolatility (dflt riskAversion 0.5) =? 0) = false ->
  (hedgeCost =? 0) = true ->
  calculateOptimalHedgeRatio totalExposure expectedVolatility hedgeCost riskAversion = 1.
Proof.
  intros FE NE Fb Nb Hc.
  apply ratio_free_hedge;
    [apply finite_nonzero_intro; assumption|apply finite_nonzero_intro; assumption|exact Hc].
Qed.

Lemma optimal_ratio_free_hedge_binary64_witness :
  calculateOptimalHedgeRatio 1000000 0.15 0 None = 1.
Proof. apply optimal_ratio_free_hedge_binary64; reflexivity. Defined.

(** X16. On binary64, at a horizon of 252 days the volatility is not scaled:
    the VaR is [totalExposure * volatility * zScore], the same float, for every
    exposure, volatility and confidence level. *)
Theorem var_annual_binary64 (totalExposure volatility : float) (confidenceLevel : option float) :
  calculateVaR totalExposure volatility confidenceLevel (Some 252)
  = totalExposure * volatility * zScore (dflt confidenceLevel 0.95).
Proof.
  unfold calculateVaR. float_ops.
  change (PrimFloat.sqrt (252 / 252)) with 1. rewrite mul_one_r. reflexivity.
Qed.


(** X17. On binary64, a hedge at a forward rate equal to the spot costs
    nothing: [calculateHedgeCost] returns a zero for every finite rate,
    whenever the hedged notional (notional times hedge ratio, 1 by default)
    is finite. *)
Theorem hedge_cost_at_par_binary64 (notional rate : float) (hedgeRatio : option float) :
  is_finite (notional * dflt hedgeRatio 1) = true ->
  is_finite rate = true ->
  (calculateHedgeCost notional rate rate hedgeRatio =? 0) = true.
Proof.
  intros Fn Fr. unfold calculateHedgeCost. revert Fn. float_ops. intros Fn.
  rewrite (sub_self rate Fr).
  destruct (mul_finite_zero _ 0 false Fn eq_refl) as [s E].
  exact (eqb_zero _ s E).
Qed.

Lemma hedge_cost_at_par_binary64_witness :
  (calculateHedgeCost 1000000 4.65 4.65 None =? 0) = true.
Proof. apply hedge_cost_at_par_binary64; reflexivity. Defined.

(** *** The page without a shock *)

Lemma shocked_rate_no_shock (spot t : float) :
  is_finite t = true -> calculateShockedFXRate spot 0 (Some t) = spot.
Proof.
  intros Ft. unfold calculateShockedFXRate. float_ops.
  change (0 / 10000) with 0.
  destruct (mul_zero_finite 0 t false eq_refl Ft) as [s E].
  rewrite (one_plus_zero _ s E). apply mul_one_r.
Qed.

Lemma shocked_rate_no_time (spot bps : float) :
  is_finite bps = true -> calculateShockedFXRate spot bps (Some 0) = spot.
Proof.
  intros Fb. unfold calculateShockedFXRate. float_ops.
  assert (F : is_finite (bps / 10000) = true).
  { apply (div_finite bps 10000 false 5497558138880000 (-39));
      [reflexivity | now vm_compute | exact Fb]. }
  destruct (mul_finite_zero (bps / 10000) 0 false F eq_refl) as [s E].
  rewrite (one_plus_zero _ s E). apply mul_one_r.
Qed.

Lemma scenario_no_move (p : Index.Parameters float) :
  is_finite (Index.interestRateShock p) = true ->
  is_finite (Index.timeHorizon p) = true ->
  Index.interestRateShock p = 0 \/ Index.timeHorizon p = 0 ->
  shockedFXRate (Index.riskScenario p) = Index.currentFXRate p.
Proof.
  intros Fs Ft [Z|Z]; unfold Index.riskScenario; cbn [shockedFXRate]; rewrite Z; float_ops.
  - apply shocked_rate_no_shock.
    apply (div_finite _ 365 false 6421147906211840 (-44));
      [reflexivity | now vm_compute | exact Ft].
  - change (0 / 365) with 0. apply shocked_rate_no_time. exact Fs.
Qed.

(** X18. On binary64, with the shock or the time horizon of the page at 0
    (and finite parameters), the scenario the page builds has a shocked rate
    equal to the spot, and for every portfolio of finite notionals
    [calculateRiskMetrics] reports an unhedged P&L and a total P&L of
    exactly 0, which the page shows with the neutral trend. *)
Theorem dashboard_no_move (trades : list (FXTrade float)) (p : Index.Parameters float) :
  is_finite (Index.currentFXRate p) = true ->
  is_finite (Index.interestRateShock p) = true ->
  is_finite (Index.timeHorizon p) = true ->
  Forall (fun t => is_finite (notionalUSD t) = true) trades ->
  Index.interestRateShock p = 0 \/ Index.timeHorizon p = 0 ->
  let m := calculateRiskMetrics trades (Index.riskScenario p) in
  shockedFXRate (Index.riskScenario p) = Index.currentFXRate p /\
  unhedgedPnL m = 0 /\ totalPnL m = 0 /\
  Index.getRiskLevel (unhedgedPnL m) = Index.neutral.
Proof.
  intros Fc Fs Ft Fn Z m.
  pose proof (scenario_no_move p Fs Ft Z) as S.
  assert (U : unhedgedPnL m = 0).
  { unfold m, calculateRiskMetrics; cbn [unhedgedPnL]. rewrite S.
    unfold Index.riskScenario; cbn [currentFXRate].
    unfold calculateUnhedgedPnL. exact (pnl_fold_no_move _ trades Fc Fn). }
  split; [exact S|]. split; [exact U|]. split; [exact U|].
  rewrite U. reflexivity.
Qed.

Lemma dashboard_no_move_witness :
  let p := {| Index.currentFXRate := 4.65; Index.interestRateShock := 200;
              Index.volatility := 0.15; Index.numberOfTrades := 2;
              Index.timeHorizon := 0 |} in
  let m := calculateRiskMetrics [position 1000000 long; position 250000 short]
             (Index.riskScenario p) in
  shockedFXRate (Index.riskScenario p) = Index.currentFXRate p /\
  unhedgedPnL m = 0 /\ totalPnL m = 0 /\
  Index.getRiskLevel (unhedgedPnL m) = Index.neutral.
Proof.
  apply dashboard_no_move; try reflexivity.
  - repeat constructor.
  - right. reflexivity.
Defined.

Lemma ordinary_positive (x : float) :
  ordinary x = true -> (0 < F2R x)%R -> sf_finite_nonzero (Prim2SF x) = true.
Proof.
  unfold ordinary, F2R. destruct (Prim2SF x) as [s|s| |s m e]; cbn [sf_ordinary SF2R];
    try discriminate; try reflexivity. intros _ H. lra.
Qed.

Lemma ordinary_finite (x : float) : ordinary x = true -> is_finite x = true.
Proof.
  rewrite is_finite_spec. unfold ordinary.
  destruct (Prim2SF x) as [s|s| |[|] m e]; cbn [sf_ordinary]; try discriminate; reflexivity.
Qed.

Lemma zero_sub_zero (z : float) (s : bool) : Prim2SF z = S754_zero s -> 0 - z = 0.
Proof.
  intros E. apply Prim2SF_inj. rewrite sub_spec, E. destruct s; reflexivity.
Qed.

(** X19. On binary64, with the shock of the page at 0: for the batch the
    page generates for its [numberOfTrades] (at least one trade, draws in
    [0, 1)), [calculateRiskMetrics] reports an unhedged P&L of 0, a hedge
    cost of 0, an optimal hedge ratio of exactly 1 and a hedged P&L of 0,
    provided the spot and the horizon are finite and the volatility benefit
    (volatility times 0.5) is finite and not zero. *)
Theorem dashboard_without_shock
  (random_source : nat -> float) (clock : nat -> Z) (p : Index.Parameters float) :
  unit_source random_source ->
  (1 <= Z.of_nat (Index.numberOfTrades p) <= 4000000000)%Z ->
  Index.interestRateShock p = 0 ->
  is_finite (Index.currentFXRate p) = true ->
  is_finite (Index.timeHorizon p) = true ->
  is_finite (Index.volatility p * 0.5) = true ->
  (Index.volatility p * 0.5 =? 0) = false ->
  let trades :=
    fst (generateFXTrades random_source clock (Some (Index.numberOfTrades p)) fresh) in
  let m := calculateRiskMetrics trades (Index.riskScenario p) in
  unhedgedPnL m = 0 /\ (hedgeCost m =? 0) = true /\
  optimalHedgeRatio m = 1 /\ (hedgedPnL m =? 0) = true.
Proof.
  intros Hr HN Zs Fc Ft Fv Nv trades m.
  pose proof (scenario_no_move p ltac:(rewrite Zs; reflexivity) Ft (or_introl Zs)) as S.
  (* the exposure *)
  pose proof (exposure_between random_source clock Hr (Index.numberOfTrades p) 0 0 0 0
                (int_between _ 0 eq_refl ltac:(lia)) ltac:(lia) ltac:(lia)) as [OE [LE UE]].
  assert (PE : (0 < IZR (0 + 50000 * Z.of_nat (Index.numberOfTrades p)))%R).
  { apply IZR_lt. lia. }
  pose proof (ordinary_positive _ OE ltac:(lra)) as HE.
  pose proof (ordinary_finite _ OE) as FE.
  (* the notionals *)
  assert (Fn : Forall (fun t => is_finite (notionalUSD t) = true) trades).
  { unfold trades. rewrite generateFXTrades_run. cbn [fst dflt].
    apply Forall_forall. intros t Ht. apply in_map_iff in Ht. destruct Ht as (i & <- & _).
    apply ordinary_finite. apply (trade_at_notional_value random_source clock Hr i). }
  assert (U : unhedgedPnL m = 0).
  { unfold m, calculateRiskMetrics; cbn [unhedgedPnL]. rewrite S.
    unfold Index.riskScenario; cbn [currentFXRate].
    unfold calculateUnhedgedPnL. exact (pnl_fold_no_move _ trades Fc Fn). }
  assert (E : totalExposureUSD m
              = fold_left (fun sum trade => (sum + notionalUSD trade)%num)
                  (map (trade_at random_source clock) (seq 0 (Index.numberOfTrades p))) 0).
  { unfold m, trades. rewrite generateFXTrades_run. reflexivity. }
  rewrite <- E in HE, FE.
  (* the hedge cost *)
  assert (C : exists s, Prim2SF (hedgeCost m) = S754_zero s).
  { unfold m, calculateRiskMetrics; cbn [hedgeCost]. fold m.
    change (fold_left _ trades _) with (totalExposureUSD m).
    unfold Index.riskScenario; cbn [currentFXRate interestRateShock]. rewrite Zs.
    rewrite (shocked_rate_no_shock _ 0.25 eq_refl).
    unfold calculateHedgeCost. float_ops.
    rewrite (sub_self _ Fc), mul_one_r.
    exact (mul_finite_zero _ 0 false FE eq_refl). }
  destruct C as [s C].
  assert (H1 : optimalHedgeRatio m = 1).
  { unfold m, calculateRiskMetrics; cbn [optimalHedgeRatio]. fold m.
    change (fold_left _ trades _) with (totalExposureUSD m).
    change (calculateHedgeCost _ _ _ _) with (hedgeCost m).
    apply ratio_free_hedge; [exact HE| |exact (eqb_zero _ s C)].
    unfold Index.riskScenario; cbn [volatility dflt]. unfold volatilityBenefit. float_ops.
    apply finite_nonzero_intro; assumption. }
  split; [exact U|]. split; [exact (eqb_zero _ s C)|]. split; [exact H1|].
  assert (HP : hedgedPnL m
               = (unhedgedPnL m * (1 - optimalHedgeRatio m)
                  - hedgeCost m * optimalHedgeRatio m)).
  { unfold m, calculateRiskMetrics; cbn [hedgedPnL unhedgedPnL optimalHedgeRatio hedgeCost].
    float_ops. reflexivity. }
  rewrite HP, U, H1, mul_one_r. change (0 * (1 - 1)) with 0.
  rewrite (zero_sub_zero _ s C). reflexivity.
Qed.

Lemma dashboard_without_shock_witness :
  let p := {| Index.currentFXRate := 4.65; Index.interestRateShock := 0;
              Index.volatility := 0.15; Index.numberOfTrades := 3;
              Index.timeHorizon := 30 |} in
  let trades :=
    fst (generateFXTrades (fun _ => 0.5) (fun _ => 1700000000000%Z)
           (Some (Index.numberOfTrades p)) fresh) in
  let m := calculateRiskMetrics trades (Index.riskScenario p) in
  unhedgedPnL m = 0 /\ (hedgeCost m =? 0) = true /\
  optimalHedgeRatio m = 1 /\ (hedgedPnL m =? 0) = true.
Proof.
  apply dashboard_without_shock; try reflexivity.
  - intros k. split; reflexivity.
  - simpl. lia.
Defined.

(** *** The optimal hedge ratio of a generated portfolio *)

(** A difference with a finite term is NaN only when the other term is. *)
Lemma sub_not_nan (x y : float) :
  is_nan x = false -> is_finite y = true -> is_nan (x - y) = false.
Proof.
  rewrite is_finite_spec, !is_nan_spec, sub_spec. unfold SF64sub, SFsub.
  destruct (Prim2SF x) as [sx|sx| |sx mx ex], (Prim2SF y) as [sy|sy| |sy my ey];
    try discriminate; try reflexivity; try (destruct sx, sy; reflexivity). intros _ _.
  match goal with |- context [binary_normalize prec emax ?m ?e ?z] =>
    pose proof (normalize_not_nan m e z) as N;
    destruct (binary_normalize prec emax m e z); congruence
  end.
Qed.

(** X20. On binary64, for a generated batch of at least one trade (at most
    four billion, draws in [0, 1)) and every scenario with a finite spot
    that is not zero, a finite interest rate shock and a volatility benefit
    (volatility times 0.5) that is finite and not zero,
    [calculateRiskMetrics] reports an optimal hedge ratio that is a number in
    [0, 1], not NaN: the NaN of the empty portfolio does not occur. *)
Theorem generated_ratio_defined_binary64
  (random_source : nat -> float) (clock : nat -> Z) (N : nat)
  (scenario : RiskScenario float) :
  unit_source random_source ->
  (1 <= Z.of_nat N <= 4000000000)%Z ->
  is_finite (currentFXRate scenario) = true ->
  (currentFXRate scenario =? 0) = false ->
  is_finite (interestRateShock scenario) = true ->
  is_finite (volatility scenario * 0.5) = true ->
  (volatility scenario * 0.5 =? 0) = false ->
  let trades := fst (generateFXTrades random_source clock (Some N) fresh) in
  let m := calculateRiskMetrics trades scenario in
  is_nan (optimalHedgeRatio m) = false /\
  in_unit_interval (optimalHedgeRatio m) = true.
Proof.
  intros Hr HN Fc Nc Fs Fv Nv trades m.
  pose proof (exposure_between random_source clock Hr N 0 0 0 0
                (int_between _ 0 eq_refl ltac:(lia)) ltac:(lia) ltac:(lia)) as [OE [LE UE]].
  assert (PE : (0 < IZR (0 + 50000 * Z.of_nat N))%R) by (apply IZR_lt; lia).
  pose proof (ordinary_positive _ OE ltac:(lra)) as HE.
  assert (E : totalExposureUSD m
              = fold_left (fun sum trade => (sum + notionalUSD trade)%num)
                  (map (trade_at random_source clock) (seq 0 N)) 0).
  { unfold m, trades. rewrite generateFXTrades_run. reflexivity. }
  rewrite <- E in HE.
  assert (C : is_nan (hedgeCost m) = false).
  { unfold m, calculateRiskMetrics; cbn [hedgeCost]. fold m.
    change (fold_left _ trades _) with (totalExposureUSD m).
    unfold calculateHedgeCost, calculateShockedFXRate. float_ops.
    rewrite mul_one_r. apply mul_into_not_nan; [exact HE|].
    apply sub_not_nan; [|exact Fc].
    apply mul_into_not_nan; [apply finite_nonzero_intro; assumption|].
    apply add_not_nan; [reflexivity|].
    apply mul_finite_not_nan; [|reflexivity].
    apply (div_finite _ 10000 false 5497558138880000 (-39));
      [reflexivity | now vm_compute | exact Fs]. }
  unfold m, calculateRiskMetrics; cbn [optimalHedgeRatio]. fold m.
  change (fold_left _ trades _) with (totalExposureUSD m).
  change (calculateHedgeCost _ _ _ _) with (hedgeCost m).
  apply ratio_in_unit; [exact HE| |exact C].
  unfold volatilityBenefit. cbn [dflt]. float_ops. apply finite_nonzero_intro; assumption.
Qed.

Lemma generated_ratio_defined_binary64_witness :
  let trades :=
    fst (generateFXTrades (fun _ => 0.5) (fun _ => 1700000000000%Z) (Some 3%nat) fresh) in
  let m := calculateRiskMetrics trades dashboard_scenario in
  is_nan (optimalHedgeRatio m) = false /\
  in_unit_interval (optimalHedgeRatio m) = true.
Proof.
  apply generated_ratio_defined_binary64; try reflexivity.
  - intros k. split; reflexivity.
  - simpl. lia.
Defined.

End FloatCalculators.

End Further.
